(** * c-structs: schema-driven binary layouts over a shared ArrayBuffer

    A shallow embedding of [src/index.js] (module [Js]) and of the first
    implementation in [src/index.ts], the one with the class [Ctor]
    (module [Ts]): the primitive registry [p], the helpers of [c], the
    layout pass of [c.struct], [c.array], the view binder [create] and the
    accessors that it installs.  The second implementation in [index.ts]
    resolves a schema as the first one does and binds views as [index.js]
    does.

    Conventions of the model:
    - a schema is the list of its entries, in the order of Object.entries;
    - the numbers of the layout pass are integers or NaN ([number]);
    - the objects that the library tells apart by their properties form a
      closed type per module ([Js.value], [Ts.value]);
    - ArrayBuffers live in a heap and are named by their position; typed
      arrays and instances carry an identity drawn from a counter;
    - an exception is a [Throw] result; DataView and typed arrays follow
      ECMAScript (ToIndex, range and alignment checks, ToNumber and
      ToBigInt on stored values, IEEE 754 rounding to nearest even). *)

From Stdlib Require Import ZArith List String Bool Lia QArith.
Import ListNotations.
Open Scope string_scope.
Open Scope list_scope.
Open Scope Z_scope.

(** ** Errors and results *)

Inductive error : Type :=
| UnknownFieldType (name : string)   (* Error: Unknown field type for NAME *)
| ArrayFirstArg                      (* Error: c.array: first arg must be a struct descriptor *)
| ArrayLength                        (* Error: c.array: length must be a positive integer *)
| TypeError                          (* raised by the engine *)
| RangeError.                        (* raised by the engine *)

Inductive result (A : Type) : Type :=
| Ok (a : A)
| Throw (e : error).
Arguments Ok {A} a.
Arguments Throw {A} e.

Definition bind {A B} (r : result A) (k : A -> result B) : result B :=
  match r with
  | Ok a => k a
  | Throw e => Throw e
  end.

Notation "'let*' x ':=' r 'in' k" := (bind r (fun x => k))
  (at level 10, x binder, r at level 100, k at level 200).

Definition is_ok {A} (r : result A) : bool :=
  match r with Ok _ => true | Throw _ => false end.

(** ** Numbers of the layout pass: an integer or NaN *)

Inductive number : Type :=
| Int (z : Z)
| NaN.

Definition nadd (a b : number) : number :=
  match a, b with
  | Int x, Int y => Int (x + y)
  | _, _ => NaN
  end.

Definition nmul (a b : number) : number :=
  match a, b with
  | Int x, Int y => Int (x * y)
  | _, _ => NaN
  end.

(** ToBoolean on a number: 0 and NaN are falsy. *)
Definition truthy (a : number) : bool :=
  match a with
  | Int z => negb (z =? 0)
  | NaN => false
  end.

(** ** Primitive descriptors *)

(** The typed-array constructors and the DataView accessor families. *)
Inductive ElemType : Type :=
| Float32 | Float64 | Uint16 | Uint32 | BigUint64 | Int16 | Int32 | BigInt64.

(** BYTES_PER_ELEMENT of [<T>Array]; also the number of bytes that
    [DataView.get<T>] / [set<T>] touch. *)
Definition BYTES_PER_ELEMENT (t : ElemType) : Z :=
  match t with
  | Float32 => 4 | Float64 => 8
  | Uint16 => 2 | Uint32 => 4 | BigUint64 => 8
  | Int16 => 2 | Int32 => 4 | BigInt64 => 8
  end.

Record PrimitiveDescriptor : Type := mkPrim {
  size : Z;
  arrayType : ElemType;   (* Float32Array, ... *)
  getter : ElemType;      (* getFloat32, ... *)
  setter : ElemType       (* setFloat32, ... *)
}.

(** The keys of the registry [p], in source order. *)
Inductive PrimitiveName : Type :=
| float32 | float64 | uint16 | uint32 | uint64 | int16 | int32 | int64.

Definition all_names : list PrimitiveName :=
  [float32; float64; uint16; uint32; uint64; int16; int32; int64].

(** Bit width that the name of a registry key announces. *)
Definition bit_width (n : PrimitiveName) : Z :=
  match n with
  | float32 => 32 | float64 => 64
  | uint16 => 16 | uint32 => 32 | uint64 => 64
  | int16 => 16 | int32 => 32 | int64 => 64
  end.

(** ** Values that user code passes to setters *)

(** A JavaScript Number is a finite rational, NaN or an infinity (every
    finite double is a rational; the model accepts all of them). *)
Inductive jsvalue : Type :=
| Undefined
| Num (q : Q)
| NumNaN
| NumInf (negative : bool)
| BigInt (z : Z).

(** Truncation toward zero of a finite number. *)
Definition trunc (q : Q) : Z := Z.quot (Qnum q) (Zpos (Qden q)).

(** ToIntegerOrInfinity followed by the modulo of ToUint16/ToUint32/...:
    NaN and the infinities become 0. *)
Definition to_uint (bits : Z) (v : jsvalue) : result Z :=
  match v with
  | Undefined | NumNaN | NumInf _ => Ok 0
  | Num q => Ok (trunc q mod 2 ^ bits)
  | BigInt _ => Throw TypeError       (* ToNumber of a BigInt *)
  end.

(** ToBigInt followed by BigInt.asUintN(64): a Number is refused. *)
Definition to_biguint64 (v : jsvalue) : result Z :=
  match v with
  | BigInt z => Ok (z mod 2 ^ 64)
  | _ => Throw TypeError
  end.

(** Two's complement reading of a [bits]-bit pattern. *)
Definition signed (bits : Z) (u : Z) : Z :=
  if u <? 2 ^ (bits - 1) then u else u - 2 ^ bits.

(** *** IEEE 754 binary formats, round to nearest, ties to even *)

Definition round_half_even (n d : Z) : Z :=
  let q := n / d in
  let r := n mod d in
  if 2 * r <? d then q
  else if d <? 2 * r then q + 1
  else if Z.even q then q else q + 1.

(** Bit pattern of the nearest value of the format with [ebits] exponent
    bits and [mbits] fraction bits to the positive rational [n/d]. *)
Definition ieee_bits_pos (ebits mbits : Z) (n d : Z) : Z :=
  let bias := 2 ^ (ebits - 1) - 1 in
  let e0 := Z.log2 n - Z.log2 d in
  let e := if n * 2 ^ Z.max 0 (- e0) <? d * 2 ^ Z.max 0 e0 then e0 - 1 else e0 in
  let e' := Z.max e (1 - bias) in
  let sh := mbits - e' in
  let m := round_half_even (n * 2 ^ Z.max 0 sh) (d * 2 ^ Z.max 0 (- sh)) in
  let bits := (e' + bias - 1) * 2 ^ mbits + m in
  Z.min bits ((2 ^ ebits - 1) * 2 ^ mbits).

Definition ieee_bits (ebits mbits : Z) (v : jsvalue) : result Z :=
  let inf := (2 ^ ebits - 1) * 2 ^ mbits in
  let neg := 2 ^ (ebits + mbits) in
  match v with
  | Undefined | NumNaN => Ok (inf + 2 ^ (mbits - 1))
  | NumInf s => Ok (if s then neg + inf else inf)
  | Num q =>
      match Qnum q with
      | Z0 => Ok 0
      | Zpos n => Ok (ieee_bits_pos ebits mbits (Zpos n) (Zpos (Qden q)))
      | Zneg n => Ok (neg + ieee_bits_pos ebits mbits (Zpos n) (Zpos (Qden q)))
      end
  | BigInt _ => Throw TypeError
  end.

Definition ieee_value (ebits mbits : Z) (bits : Z) : jsvalue :=
  let bias := 2 ^ (ebits - 1) - 1 in
  let s := bits / 2 ^ (ebits + mbits) in
  let ex := (bits / 2 ^ mbits) mod 2 ^ ebits in
  let m := bits mod 2 ^ mbits in
  if ex =? 2 ^ ebits - 1 then
    if m =? 0 then NumInf (s =? 1) else NumNaN
  else
    let mant := if ex =? 0 then m else 2 ^ mbits + m in
    let e := Z.max ex 1 - bias - mbits in
    let mag := Qred (inject_Z mant * (if 0 <=? e then inject_Z (2 ^ e)
                                       else / inject_Z (2 ^ (- e)))) in
    Num (if s =? 1 then Qred (- mag) else mag).

(** ** ArrayBuffer, DataView and typed arrays *)

(** An ArrayBuffer is its sequence of bytes (each in 0..255). *)
Definition ArrayBuffer : Type := list Z.

Fixpoint le_bytes (n : nat) (v : Z) : list Z :=
  match n with
  | O => []
  | S k => v mod 256 :: le_bytes k (v / 256)
  end.

Fixpoint le_value (bs : list Z) : Z :=
  match bs with
  | [] => 0
  | b :: r => b + 256 * le_value r
  end.

(** Overwrite [length bs] bytes of [buf] from position [off]. *)
Definition splice (buf : ArrayBuffer) (off : nat) (bs : list Z) : ArrayBuffer :=
  firstn off buf ++ bs ++ skipn (off + List.length bs) buf.

Definition slice (buf : ArrayBuffer) (off len : nat) : list Z :=
  firstn len (skipn off buf).

(** ToIndex: NaN becomes 0, a negative index is a RangeError. *)
Definition to_index (n : number) : result Z :=
  match n with
  | NaN => Ok 0
  | Int z => if z <? 0 then Throw RangeError else Ok z
  end.

(** Value to bit pattern, per element type (the conversion of
    DataView.set<T> and of typed-array element stores). *)
Definition encode (t : ElemType) (v : jsvalue) : result Z :=
  match t with
  | Float32 => ieee_bits 8 23 v
  | Float64 => ieee_bits 11 52 v
  | Uint16 | Int16 => to_uint 16 v
  | Uint32 | Int32 => to_uint 32 v
  | BigUint64 | BigInt64 => to_biguint64 v
  end.

Definition decode (t : ElemType) (bits : Z) : jsvalue :=
  match t with
  | Float32 => ieee_value 8 23 bits
  | Float64 => ieee_value 11 52 bits
  | Uint16 | Uint32 => Num (inject_Z bits)
  | Int16 => Num (inject_Z (signed 16 bits))
  | Int32 => Num (inject_Z (signed 32 bits))
  | BigUint64 => BigInt bits
  | BigInt64 => BigInt (signed 64 bits)
  end.

Definition elem_bytes (t : ElemType) : nat := Z.to_nat (BYTES_PER_ELEMENT t).

(** [new DataView(buffer)] covers the whole buffer; all accesses of the
    library are little-endian ([true] as last argument). *)
Definition DataView_set (t : ElemType) (buf : ArrayBuffer)
    (byteOffset : number) (v : jsvalue) : result ArrayBuffer :=
  let* i := to_index byteOffset in
  let* b := encode t v in
  if Z.of_nat (List.length buf) <? i + BYTES_PER_ELEMENT t then Throw RangeError
  else Ok (splice buf (Z.to_nat i) (le_bytes (elem_bytes t) b)).

Definition DataView_get (t : ElemType) (buf : ArrayBuffer)
    (byteOffset : number) : result jsvalue :=
  let* i := to_index byteOffset in
  if Z.of_nat (List.length buf) <? i + BYTES_PER_ELEMENT t then Throw RangeError
  else Ok (decode t (le_value (slice buf (Z.to_nat i) (elem_bytes t)))).

(** A typed array is a window on a buffer; [ta_id] is its object
    identity. *)
Record TypedArray : Type := mkTypedArray {
  ta_id : nat;
  ta_type : ElemType;
  ta_buffer : nat;
  ta_byteOffset : Z;
  ta_length : Z
}.

(** The heap: the ArrayBuffers allocated so far (a buffer is named by its
    position) and the next free object identity. *)
Record Heap : Type := mkHeap {
  buffers : list ArrayBuffer;
  fresh : nat
}.

Definition empty_heap : Heap := mkHeap [] 0.

Definition byteLength (h : Heap) (buffer : nat) : Z :=
  Z.of_nat (List.length (nth buffer (buffers h) [])).

(** [new ArrayBuffer(n)]: n goes through ToIndex; the bytes are zero. *)
Definition new_ArrayBuffer (n : number) (h : Heap) : result (nat * Heap) :=
  let* len := to_index n in
  Ok (List.length (buffers h),
      mkHeap (buffers h ++ [repeat 0 (Z.to_nat len)]) (fresh h)).

(** [new Typed(buffer, byteOffset, length)] with all three arguments: the
    offset must be a multiple of the element size and the window must fit. *)
Definition new_TypedArray (t : ElemType) (buffer : nat) (byteOffset : number)
    (len : Z) (h : Heap) : result (TypedArray * Heap) :=
  let* off := to_index byteOffset in
  if negb (off mod BYTES_PER_ELEMENT t =? 0) then Throw RangeError
  else if byteLength h buffer <? off + len * BYTES_PER_ELEMENT t then Throw RangeError
  else Ok (mkTypedArray (fresh h) t buffer off len,
           mkHeap (buffers h) (S (fresh h))).

Definition set_buffer (h : Heap) (buffer : nat) (b : ArrayBuffer) : Heap :=
  mkHeap (firstn buffer (buffers h) ++ b :: skipn (S buffer) (buffers h)) (fresh h).

(** [ta[i] = v] for an index inside the window. *)
Definition TypedArray_set (ta : TypedArray) (i : Z) (v : jsvalue) (h : Heap)
    : result Heap :=
  let* b := encode (ta_type ta) v in
  if (0 <=? i) && (i <? ta_length ta) then
    Ok (set_buffer h (ta_buffer ta)
          (splice (nth (ta_buffer ta) (buffers h) [])
                  (Z.to_nat (ta_byteOffset ta + i * BYTES_PER_ELEMENT (ta_type ta)))
                  (le_bytes (elem_bytes (ta_type ta)) b)))
  else Ok h.

Definition TypedArray_get (ta : TypedArray) (i : Z) (h : Heap) : jsvalue :=
  if (0 <=? i) && (i <? ta_length ta) then
    decode (ta_type ta)
      (le_value (slice (nth (ta_buffer ta) (buffers h) [])
                   (Z.to_nat (ta_byteOffset ta + i * BYTES_PER_ELEMENT (ta_type ta)))
                   (elem_bytes (ta_type ta))))
  else Undefined.

(** [arr[i]] on a plain array given as source of a vector assignment. *)
Definition index (arr : list jsvalue) (i : nat) : jsvalue := nth i arr Undefined.

(** The loop [for (i = 0; i < length; i++) ta[i] = arr[i]], from index
    [i], with [n] iterations left. *)
Fixpoint copy_into (ta : TypedArray) (arr : list jsvalue) (n : nat) (i : nat)
    (h : Heap) : result Heap :=
  match n with
  | O => Ok h
  | S n' =>
      let* h1 := TypedArray_set ta (Z.of_nat i) (index arr i) h in
      copy_into ta arr n' (S i) h1
  end.

(** Lookup in a list of named properties. *)
Fixpoint lookup {A} (name : string) (props : list (string * A)) : option A :=
  match props with
  | [] => None
  | (n, a) :: rest => if String.eqb n name then Some a else lookup name rest
  end.

(** [for (const f of fields) step(f)], threading the state and stopping
    at the first exception. *)
Fixpoint for_each {F S} (step : F -> S -> result S) (fs : list F) (s : S)
    : result S :=
  match fs with
  | [] => Ok s
  | f :: fs' => let* s1 := step f s in for_each step fs' s1
  end.

(** The same loop, collecting what each step produces. *)
Fixpoint for_each_collect {F P S} (step : F -> S -> result (P * S))
    (fs : list F) (s : S) : result (list P * S) :=
  match fs with
  | [] => Ok ([], s)
  | f :: fs' =>
      let* '(p, s1) := step f s in
      let* '(ps, s2) := for_each_collect step fs' s1 in
      Ok (p :: ps, s2)
  end.

(** [for (let i = ...; ...; i++) arr.push(make(i))], with [n] iterations
    left. *)
Fixpoint for_index {V S} (make : Z -> S -> result (V * S)) (n : nat) (i : Z)
    (s : S) : result (list V * S) :=
  match n with
  | O => Ok ([], s)
  | S n' =>
      let* '(x, s1) := make i s in
      let* '(rest, s2) := for_index make n' (i + 1) s1 in
      Ok (x :: rest, s2)
  end.

(** Number.isInteger(length) && length > 0, giving the integer. *)
Definition positive_integer (len : jsvalue) : option Z :=
  match len with
  | Num q =>
      if (Zpos (Qden q) * trunc q =? Qnum q) && (0 <? trunc q)
      then Some (trunc q) else None
  | _ => None
  end.

(** [new Array(length)] for an integral Number: a RangeError unless the
    length is one of 0 .. 2^32 - 1. *)
Definition valid_array_length (len : Z) : bool :=
  (0 <=? len) && (len <=? 4294967295).

Definition new_Array (len : Z) : result unit :=
  if valid_array_length len then Ok tt else Throw RangeError.

(** * index.js *)

Module Js.

(** The registry [p] (index.js, lines 2-11). *)
Definition p (n : PrimitiveName) : PrimitiveDescriptor :=
  match n with
  | float32 => mkPrim 4 Float32 Float32 Float32
  | float64 => mkPrim 4 Float64 Float64 Float64
  | uint16 => mkPrim 2 Uint16 Uint16 Uint16
  | uint32 => mkPrim 4 Uint32 Uint32 Uint32
  | uint64 => mkPrim 8 BigUint64 BigUint64 BigUint64
  | int16 => mkPrim 2 Int16 Int16 Int16
  | int32 => mkPrim 4 Int32 Int32 Int32
  | int64 => mkPrim 8 BigInt64 BigInt64 BigInt64
  end.

(** What [c.struct] returns: its [size] and the [fields] that its
    [create] closes over. *)
Inductive StructDescriptor : Type :=
| mkStruct (size : Z) (fields : list FieldDescriptor)
with FieldDescriptor : Type :=
| scalar (name : string) (desc : PrimitiveDescriptor) (offset : Z)
| vector (name : string) (elem : PrimitiveDescriptor) (length : Z) (offset : Z)
| struct_ (name : string) (desc : StructDescriptor) (offset : Z)
| array_ (name : string) (elemDesc : StructDescriptor) (length : Z) (offset : Z).

Definition struct_size (d : StructDescriptor) : Z :=
  match d with mkStruct s _ => s end.

Definition struct_fields (d : StructDescriptor) : list FieldDescriptor :=
  match d with mkStruct _ fs => fs end.

(** The object literal that [c.array] returns: kind 'array', elemDesc,
    length, size.  It has no [create]. *)
Record ArrayDescriptor : Type := mkArray {
  elemDesc : StructDescriptor;
  length : Z;
  array_size : Z
}.

(** The objects that can stand as a field type in a schema, or as first
    argument of [c.array]. *)
Inductive value : Type :=
| VPrimitive (d : PrimitiveDescriptor)       (* has size and arrayType *)
| VList (l : list PrimitiveDescriptor)       (* a JavaScript Array *)
| VStruct (d : StructDescriptor)             (* has size and create *)
| VArray (a : ArrayDescriptor)               (* has kind = 'array' and size *)
| VObject.                                   (* has none of these properties *)

Definition float_ : value := VPrimitive (p float32).
Definition float2 : value := VList [p float32; p float32].
Definition float3 : value := VList [p float32; p float32; p float32].
Definition float4 : value := VList [p float32; p float32; p float32; p float32].
Definition uint : value := VPrimitive (p uint32).
Definition uint2 : value := VList [p uint32; p uint32].
Definition uint3 : value := VList [p uint32; p uint32; p uint32].
Definition uint4 : value := VList [p uint32; p uint32; p uint32; p uint32].

(** [c.array(structDesc, length)] (index.js, lines 25-38). *)
Definition array (structDesc : value) (len : jsvalue) : result value :=
  match structDesc with
  | VStruct d =>
      match positive_integer len with
      | Some n => Ok (VArray (mkArray d n (struct_size d * n)))
      | None => Throw ArrayLength
      end
  | _ => Throw ArrayFirstArg
  end.

(** One iteration of the loop of [c.struct]: the entry recorded for the
    field and the advanced running offset. *)
Definition classify (name : string) (type : value) (offset : Z)
    : result (FieldDescriptor * Z) :=
  match type with
  | VList l =>
      match l with
      | [] => Throw TypeError                  (* elem is undefined: elem.size *)
      | elem :: _ =>
          let len := Z.of_nat (List.length l) in
          Ok (vector name elem len offset, offset + size elem * len)
      end
  | VArray a =>
      Ok (array_ name (elemDesc a) (length a) offset, offset + array_size a)
  | VPrimitive d =>
      Ok (scalar name d offset, offset + size d)
  | VStruct d =>
      if struct_size d =? 0 then Throw (UnknownFieldType name)
      else Ok (struct_ name d offset, offset + struct_size d)
  | VObject => Throw (UnknownFieldType name)
  end.

(** The loop of [c.struct] over Object.entries(schema), from a running
    offset. *)
Fixpoint resolve (schema : list (string * value)) (offset : Z)
    : result (list FieldDescriptor * Z) :=
  match schema with
  | [] => Ok ([], offset)
  | (name, type) :: rest =>
      let* '(entry, offset') := classify name type offset in
      let* '(fields, totalSize) := resolve rest offset' in
      Ok (entry :: fields, totalSize)
  end.

(** [c.struct(schema)] (index.js, lines 40-136). *)
Definition struct (schema : list (string * value)) : result StructDescriptor :=
  let* '(fields, totalSize) := resolve schema 0 in
  Ok (mkStruct totalSize fields).

(** *** The view binder: [create] (index.js, lines 94-134) *)

(** An instance [inst]: the buffer that its [buffer] getter returns and
    its properties, in definition order. *)
Inductive View : Type :=
| mkView (buffer : nat) (props : list (string * Property))
with Property : Type :=
| PScalar (desc : PrimitiveDescriptor) (abs : Z)   (* get/set through the DataView *)
| PVector (ta : TypedArray) (length : Z)           (* get returns ta, set copies into it *)
| PStruct (inst : View)
| PArray (arr : list View).

Definition view_buffer (v : View) : nat :=
  match v with mkView b _ => b end.

Definition view_props (v : View) : list (string * Property) :=
  match v with mkView _ ps => ps end.

Definition field_name (f : FieldDescriptor) : string :=
  match f with
  | scalar n _ _ | vector n _ _ _ | struct_ n _ _ | array_ n _ _ _ => n
  end.

Definition field_offset (f : FieldDescriptor) : Z :=
  match f with
  | scalar _ _ o | vector _ _ _ o | struct_ _ _ o | array_ _ _ _ o => o
  end.

Fixpoint remove_prop {A} (name : string) (props : list (string * A))
    : list (string * A) :=
  match props with
  | [] => []
  | (n, a) :: rest =>
      if String.eqb n name then remove_prop name rest
      else (n, a) :: remove_prop name rest
  end.

(** The last step of [create]: Object.defineProperty(inst, 'buffer', ...).
    An accessor that a scalar or vector field defined under that name is
    not configurable, so redefining it is a TypeError; a nested instance or
    array stored under that name is replaced by the getter. *)
Definition define_buffer (props : list (string * Property))
    : result (list (string * Property)) :=
  match lookup "buffer" props with
  | Some (PScalar _ _) | Some (PVector _ _) => Throw TypeError
  | Some _ => Ok (remove_prop "buffer" props)
  | None => Ok props
  end.

(** [desc.create(buffer, baseOffset)] with both arguments given. *)
Fixpoint create_at (d : StructDescriptor) (buffer : nat) (baseOffset : Z)
    (h : Heap) {struct d} : result (View * Heap) :=
  match d with
  | mkStruct _ fields =>
      let* '(props, h') :=
        for_each_collect
          (fun f h =>
             let* '(pr, h1) := bind_field f buffer baseOffset h in
             Ok ((field_name f, pr), h1))
          fields h in
      let* props' := define_buffer props in
      Ok (mkView buffer props', h')
  end
with bind_field (f : FieldDescriptor) (buffer : nat) (baseOffset : Z)
    (h : Heap) {struct f} : result (Property * Heap) :=
  match f with
  | scalar _ desc fo => Ok (PScalar desc (baseOffset + fo), h)
  | vector _ elem len fo =>
      let* '(ta, h') :=
        new_TypedArray (arrayType elem) buffer (Int (baseOffset + fo)) len h in
      Ok (PVector ta len, h')
  | struct_ _ desc fo =>
      let* '(inst, h') := create_at desc buffer (baseOffset + fo) h in
      Ok (PStruct inst, h')
  | array_ _ elemDesc len fo =>
      let* _ := new_Array len in
      let* '(arr, h') :=
        for_index
          (fun i h =>
             create_at elemDesc buffer
               (baseOffset + fo + i * struct_size elemDesc) h)
          (Z.to_nat len) 0 h in
      Ok (PArray arr, h')
  end.

(** [desc.create()]: the buffer defaults to [new ArrayBuffer(totalSize)]
    and the base offset to 0. *)
Definition create (d : StructDescriptor) (h : Heap) : result (View * Heap) :=
  let* '(buffer, h1) := new_ArrayBuffer (Int (struct_size d)) h in
  create_at d buffer 0 h1.

(** *** Property access on an instance *)

(** What reading a property yields. *)
Inductive propvalue : Type :=
| Value (v : jsvalue)
| Buffer (b : nat)
| Window (ta : TypedArray)
| Sub (inst : View)
| Subs (arr : list View).

(** [inst.name]: the scalar getter reads through the DataView on the whole
    buffer; the vector getter returns the typed array built by [create]. *)
Definition get (h : Heap) (inst : View) (name : string) : result propvalue :=
  if String.eqb name "buffer" then Ok (Buffer (view_buffer inst)) else
  match lookup name (view_props inst) with
  | Some (PScalar desc abs) =>
      let* v := DataView_get (getter desc)
                  (nth (view_buffer inst) (buffers h) []) (Int abs) in
      Ok (Value v)
  | Some (PVector ta _) => Ok (Window ta)
  | Some (PStruct sub) => Ok (Sub sub)
  | Some (PArray arr) => Ok (Subs arr)
  | None => Ok (Value Undefined)
  end.

(** [inst.name = v] for a scalar field [name] and a primitive value. *)
Definition set_scalar (h : Heap) (inst : View) (name : string) (v : jsvalue)
    : option (result Heap) :=
  if String.eqb name "buffer" then None else
  match lookup name (view_props inst) with
  | Some (PScalar desc abs) =>
      Some (let* b := DataView_set (setter desc)
                        (nth (view_buffer inst) (buffers h) []) (Int abs) v in
            Ok (set_buffer h (view_buffer inst) b))
  | _ => None
  end.

(** [inst.name = arr] for a vector field [name] and an Array. *)
Definition set_vector (h : Heap) (inst : View) (name : string)
    (arr : list jsvalue) : option (result Heap) :=
  if String.eqb name "buffer" then None else
  match lookup name (view_props inst) with
  | Some (PVector ta len) => Some (copy_into ta arr (Z.to_nat len) 0 h)
  | _ => None
  end.

End Js.

(** * index.ts (the implementation with the class [Ctor]) *)

Module Ts.

(** The registry [p] (index.ts, lines 89-138). *)
Definition p (n : PrimitiveName) : PrimitiveDescriptor :=
  match n with
  | float32 => mkPrim 4 Float32 Float32 Float32
  | float64 => mkPrim 8 Float64 Float64 Float64
  | uint16 => mkPrim 2 Uint16 Uint16 Uint16
  | uint32 => mkPrim 4 Uint32 Uint32 Uint32
  | uint64 => mkPrim 8 BigUint64 BigUint64 BigUint64
  | int16 => mkPrim 2 Int16 Int16 Int16
  | int32 => mkPrim 4 Int32 Int32 Int32
  | int64 => mkPrim 8 BigInt64 BigInt64 BigInt64
  end.

(** A descriptor is an object with the two properties [size] and
    [create]: [c.struct] closes over the resolved [fields], [c.array] over
    its two arguments. *)
Inductive Descriptor : Type :=
| DStruct (size : number) (fields : list FieldDescriptor)
| DArray (structDesc : Descriptor) (length : Z)
with FieldDescriptor : Type :=
| scalar (name : string) (desc : PrimitiveDescriptor) (offset : number)
| vector (name : string) (elem : PrimitiveDescriptor) (length : Z) (offset : number)
| struct_ (name : string) (desc : Descriptor) (offset : number)
| array_ (name : string) (elemDesc : Descriptor) (length : option Z) (offset : number).

(** The [size] property of a descriptor. *)
Fixpoint desc_size (d : Descriptor) : number :=
  match d with
  | DStruct s _ => s
  | DArray structDesc len => nmul (desc_size structDesc) (Int len)
  end.

Definition field_name (f : FieldDescriptor) : string :=
  match f with
  | scalar n _ _ | vector n _ _ _ | struct_ n _ _ | array_ n _ _ _ => n
  end.

Definition field_offset (f : FieldDescriptor) : number :=
  match f with
  | scalar _ _ o | vector _ _ _ o | struct_ _ _ o | array_ _ _ _ o => o
  end.

(** The objects that can stand as a field type in a schema, or as first
    argument of [c.array]. *)
Inductive value : Type :=
| VPrimitive (d : PrimitiveDescriptor)       (* has size and arrayType *)
| VList (l : list PrimitiveDescriptor)       (* a JavaScript Array *)
| VDesc (d : Descriptor)                     (* has size and create *)
| VObject.                                   (* has none of these properties *)

Definition float_ : value := VPrimitive (p float32).
Definition float2 : value := VList [p float32; p float32].
Definition float3 : value := VList [p float32; p float32; p float32].
Definition float4 : value := VList [p float32; p float32; p float32; p float32].
Definition uint : value := VPrimitive (p uint32).
Definition uint2 : value := VList [p uint32; p uint32].
Definition uint3 : value := VList [p uint32; p uint32; p uint32].
Definition uint4 : value := VList [p uint32; p uint32; p uint32; p uint32].
Definition int : value := VPrimitive (p int32).
Definition int2 : value := VList [p int32; p int32].
Definition int3 : value := VList [p int32; p int32; p int32].
Definition int4 : value := VList [p int32; p int32; p int32; p int32].
Definition int16_ : value := VPrimitive (p int16).
Definition int64_ : value := VPrimitive (p int64).
Definition float64_ : value := VPrimitive (p float64).
Definition matrix3 : value := VList (repeat (p float32) 9).
Definition matrix4 : value := VList (repeat (p float32) 16).

(** *** Instances *)

#[local] Set Warnings "-register-all".

(** Values of the own properties of an instance of [Ctor], and what
    [create] returns (an instance, or an Array of what the element
    descriptor creates). *)
Inductive OwnValue : Type :=
| OBuffer (b : nat)                 (* this.buffer *)
| ONumber (n : number)              (* this.baseOffset *)
| ODataView (b : nat)               (* this.__view = new DataView(buffer) *)
| OInstance (id : nat)              (* an instance of some Ctor *)
| OArray (items : list OwnValue) (b : nat)   (* Array with its buffer getter *)
| OTypedArray (ta : TypedArray).    (* a cached window *)

(** An instance: the fields of its class (the accessors on
    Ctor.prototype) and its own properties. *)
Record Instance : Type := mkInstance {
  proto : list FieldDescriptor;
  own : list (string * OwnValue)
}.

Record Store : Type := mkStore {
  heap : Heap;
  instances : list (nat * Instance)
}.

Definition empty_store : Store := mkStore empty_heap [].

(** Own property write: replace the value or add the property last. *)
Fixpoint put {A} (name : string) (a : A) (props : list (string * A))
    : list (string * A) :=
  match props with
  | [] => [(name, a)]
  | (n, x) :: rest =>
      if String.eqb n name then (n, a) :: rest else (n, x) :: put name a rest
  end.

Fixpoint find_instance (id : nat) (l : list (nat * Instance)) : option Instance :=
  match l with
  | [] => None
  | (i, x) :: rest => if Nat.eqb i id then Some x else find_instance id rest
  end.

Fixpoint update_instance (id : nat) (f : Instance -> Instance)
    (l : list (nat * Instance)) : list (nat * Instance) :=
  match l with
  | [] => []
  | (i, x) :: rest =>
      if Nat.eqb i id then (i, f x) :: rest
      else (i, x) :: update_instance id f rest
  end.

Definition set_own (id : nat) (name : string) (v : OwnValue) (s : Store) : Store :=
  mkStore (heap s)
    (update_instance id (fun x => mkInstance (proto x) (put name v (own x)))
       (instances s)).

(** Allocation of [this] with the three properties that the constructor
    sets first.  They are own properties of the instance (class fields), so
    they are found before any accessor of the prototype. *)
Definition new_instance (fields : list FieldDescriptor) (buffer : nat)
    (baseOffset : number) (s : Store) : nat * Store :=
  let id := fresh (heap s) in
  (id,
   mkStore (mkHeap (buffers (heap s)) (S id))
     (instances s ++
      [(id, mkInstance fields
              [("buffer", OBuffer buffer);
               ("baseOffset", ONumber baseOffset);
               ("__view", ODataView buffer)])])).

Definition length_value (len : option Z) : jsvalue :=
  match len with
  | Some n => Num (inject_Z n)
  | None => Undefined
  end.

(** [desc.create(buffer, baseOffset)] with both arguments given: for a
    struct descriptor [new Ctor(buffer, baseOffset)] (index.ts, lines
    349-364), for an array descriptor [new Array(length)] and the loop of
    lines 263-273.  In the constructor an array field goes through
    [c.array(f.elemDesc, f.length)], whose two checks are written out
    here, and then through that create. *)
Fixpoint create_at (d : Descriptor) (buffer : nat) (baseOffset : number)
    (s : Store) {struct d} : result (OwnValue * Store) :=
  match d with
  | DStruct _ fields =>
      let '(id, s0) := new_instance fields buffer baseOffset s in
      let* s' :=
        for_each (fun f s => init_field f id buffer baseOffset s) fields s0 in
      Ok (OInstance id, s')
  | DArray structDesc len =>
      let* _ := new_Array len in
      let* '(arr, s') :=
        for_index
          (fun i s =>
             create_at structDesc buffer
               (nadd baseOffset (nmul (Int i) (desc_size structDesc))) s)
          (Z.to_nat len) 0 s in
      Ok (OArray arr buffer, s')
  end
with init_field (f : FieldDescriptor) (id : nat) (buffer : nat)
    (baseOffset : number) (s : Store) {struct f} : result Store :=
  match f with
  | scalar _ _ _ => Ok s
  | vector _ _ _ _ => Ok s
  | struct_ name desc fo =>
      let* '(x, s1) := create_at desc buffer (nadd baseOffset fo) s in
      Ok (set_own id name x s1)
  | array_ name elemDesc len fo =>
      match positive_integer (length_value len) with
      | None => Throw ArrayLength
      | Some n =>
          let* _ := new_Array n in
          let* '(arr, s') :=
            for_index
              (fun i s =>
                 create_at elemDesc buffer
                   (nadd (nadd baseOffset fo)
                         (nmul (Int i) (desc_size elemDesc))) s)
              (Z.to_nat n) 0 s in
          Ok (set_own id name (OArray arr buffer) s')
      end
  end.

(** [desc.create()]: the buffer defaults to [new ArrayBuffer(size)] and
    the base offset to 0. *)
Definition create (d : Descriptor) (s : Store) : result (OwnValue * Store) :=
  let* '(buffer, h1) := new_ArrayBuffer (desc_size d) (heap s) in
  create_at d buffer (Int 0) (mkStore h1 (instances s)).

(** [c.array(structDesc, length)] (index.ts, lines 241-276). *)
Definition array (structDesc : value) (len : jsvalue) : result value :=
  match structDesc with
  | VDesc d =>
      match positive_integer len with
      | Some n => Ok (VDesc (DArray d n))
      | None => Throw ArrayLength
      end
  | _ => Throw ArrayFirstArg
  end.

(** [(type as any).length] on a descriptor: the object has the properties
    [size] and [create] only. *)
Definition descriptor_length (d : Descriptor) : option Z := None.

(** [size * length] where [length] may be undefined. *)
Definition times (size : number) (len : option Z) : number :=
  match len with
  | Some n => nmul size (Int n)
  | None => NaN
  end.

Definition is_array (v : OwnValue) : bool :=
  match v with OArray _ _ => true | _ => false end.

(** One iteration of the loop of [c.struct] (index.ts, lines 291-340).  The
    second test calls [type.create()] and looks at what it returns. *)
Definition classify (name : string) (type : value) (offset : number)
    (s : Store) : result (FieldDescriptor * number * Store) :=
  match type with
  | VList l =>
      match l with
      | [] => Throw TypeError                  (* elem is undefined: elem.size *)
      | elem :: _ =>
          let len := Z.of_nat (List.length l) in
          Ok (vector name elem len offset,
              nadd offset (Int (size elem * len)), s)
      end
  | VDesc d =>
      if truthy (desc_size d) then
        let* '(probe, s1) := create d s in
        if is_array probe then
          Ok (array_ name d (descriptor_length d) offset,
              nadd offset (times (desc_size d) (descriptor_length d)), s1)
        else
          Ok (struct_ name d offset, nadd offset (desc_size d), s1)
      else Throw (UnknownFieldType name)
  | VPrimitive d =>
      Ok (scalar name d offset, nadd offset (Int (size d)), s)
  | VObject => Throw (UnknownFieldType name)
  end.

Fixpoint resolve (schema : list (string * value)) (offset : number)
    (s : Store) : result (list FieldDescriptor * number * Store) :=
  match schema with
  | [] => Ok ([], offset, s)
  | (name, type) :: rest =>
      let* '(entry, offset', s1) := classify name type offset s in
      let* '(fields, totalSize, s2) := resolve rest offset' s1 in
      Ok (entry :: fields, totalSize, s2)
  end.

(** [c.struct(schema)] (index.ts, lines 281-434). *)
Definition struct (schema : list (string * value)) (s : Store)
    : result (Descriptor * Store) :=
  let* '(fields, totalSize, s') := resolve schema (Int 0) s in
  Ok (DStruct totalSize fields, s').

(** *** Property access on an instance (index.ts, lines 374-425) *)

(** The accessor that Ctor.prototype holds under [name]: the loop defines
    one for each scalar and vector field, a later definition replacing an
    earlier one. *)
Fixpoint accessor (name : string) (fields : list FieldDescriptor)
    : option FieldDescriptor :=
  match fields with
  | [] => None
  | f :: rest =>
      match accessor name rest with
      | Some g => Some g
      | None =>
          match f with
          | scalar n _ _ | vector n _ _ _ =>
              if String.eqb n name then Some f else None
          | _ => None
          end
      end
  end.

Inductive propvalue : Type :=
| Value (v : jsvalue)
| Own (v : OwnValue).

(** The name under which the vector getter caches its window. *)
Definition cache_name (name : string) : string := String.append "__" name.

(** [this.hasOwnProperty], which the getter of a vector field calls first
    (index.ts, line 404).  The lookup goes through the own properties of
    the instance and the accessors of Ctor.prototype before it reaches
    Object.prototype, so a schema field of that name is found first.  A
    nested instance or Array, and the value that the accessor of a scalar
    field returns, cannot be called: a TypeError.  The accessor of a
    vector field of that name calls [this.hasOwnProperty] again, without
    end: the engine gives up with a RangeError when the call stack is
    exhausted. *)
Definition hasOwnProperty (x : Instance) (s : Store) : option (result unit) :=
  match lookup "hasOwnProperty" (own x) with
  | Some _ => Some (Throw TypeError)
  | None =>
      match accessor "hasOwnProperty" (proto x) with
      | Some (scalar _ desc abs) =>
          match lookup "__view" (own x), lookup "baseOffset" (own x) with
          | Some (ODataView b), Some (ONumber base) =>
              Some (let* _ := DataView_get (getter desc)
                                (nth b (buffers (heap s)) []) (nadd base abs) in
                    Throw TypeError)
          | _, _ => None
          end
      | Some (vector _ _ _ _) => Some (Throw RangeError)
      | _ => Some (Ok tt)
      end
  end.

(** The getter of a vector field, on [this] = instance [id]. *)
Definition vector_getter (id : nat) (x : Instance) (name : string)
    (elem : PrimitiveDescriptor) (len : Z) (abs : number) (s : Store)
    : option (result (propvalue * Store)) :=
  match hasOwnProperty x s with
  | None => None
  | Some (Throw e) => Some (Throw e)
  | Some (Ok _) =>
      match lookup (cache_name name) (own x) with
      | Some w => Some (Ok (Own w, s))
      | None =>
          match lookup "buffer" (own x), lookup "baseOffset" (own x) with
          | Some (OBuffer b), Some (ONumber base) =>
              Some (let* '(ta, h') :=
                      new_TypedArray (arrayType elem) b (nadd base abs) len
                        (heap s) in
                    Ok (Own (OTypedArray ta),
                        set_own id (cache_name name) (OTypedArray ta)
                          (mkStore h' (instances s))))
          | _, _ => None
          end
      end
  end.

(** [inst.name] for the instance [id].  An own property is found first,
    then the accessor of the prototype.  [None]: [id] is not an instance, or
    its properties buffer, baseOffset, __view no longer hold what the
    constructor stored (a field of that name replaced it). *)
Definition get (s : Store) (id : nat) (name : string)
    : option (result (propvalue * Store)) :=
  match find_instance id (instances s) with
  | None => None
  | Some x =>
      match lookup name (own x) with
      | Some v => Some (Ok (Own v, s))
      | None =>
          match accessor name (proto x) with
          | Some (scalar _ desc abs) =>
              match lookup "__view" (own x), lookup "baseOffset" (own x) with
              | Some (ODataView b), Some (ONumber base) =>
                  Some (let* v := DataView_get (getter desc)
                                    (nth b (buffers (heap s)) []) (nadd base abs) in
                        Ok (Value v, s))
              | _, _ => None
              end
          | Some (vector _ elem len abs) => vector_getter id x name elem len abs s
          | _ => Some (Ok (Value Undefined, s))
          end
      end
  end.

(** [inst.name = v] where [name] resolves to the accessor of a scalar
    field; [None] in the other cases. *)
Definition set_scalar (s : Store) (id : nat) (name : string) (v : jsvalue)
    : option (result Store) :=
  match find_instance id (instances s) with
  | None => None
  | Some x =>
      match lookup name (own x), accessor name (proto x) with
      | None, Some (scalar _ desc abs) =>
          match lookup "__view" (own x), lookup "baseOffset" (own x) with
          | Some (ODataView b), Some (ONumber base) =>
              Some (let* buf := DataView_set (setter desc)
                                  (nth b (buffers (heap s)) []) (nadd base abs) v in
                    Ok (mkStore (set_buffer (heap s) b buf) (instances s)))
          | _, _ => None
          end
      | _, _ => None
      end
  end.

(** [inst.name = arr] where [name] resolves to the accessor of a vector
    field and [arr] is an Array: the setter reads [this[name]] (the getter
    above) and copies [length] elements into what it got. *)
Definition set_vector (s : Store) (id : nat) (name : string)
    (arr : list jsvalue) : option (result Store) :=
  match find_instance id (instances s) with
  | None => None
  | Some x =>
      match lookup name (own x), accessor name (proto x) with
      | None, Some (vector _ elem len abs) =>
          match vector_getter id x name elem len abs s with
          | Some (Ok (Own (OTypedArray ta), s1)) =>
              Some (let* h' := copy_into ta arr (Z.to_nat len) 0 (heap s1) in
                    Ok (mkStore h' (instances s1)))
          | Some (Ok (Own (ODataView _), s1)) => Some (Ok s1)
          | Some (Throw e) => Some (Throw e)
          | _ => None
          end
      | _, _ => None
      end
  end.

End Ts.

(** * Definitions used to state the properties *)

(** * The binder with closures

    The second implementation in index.ts (lines 771-815) and the one in
    part_000 (lines 175-217) build an instance as an object literal whose
    accessors close over the DataView, as index.js does, with the offsets
    and descriptors of index.ts.  The two texts differ in one point: the
    Array that the create of c.array returns has a buffer getter in
    index.ts (lines 688-691) and none in part_000 (lines 124-128). *)

Module Closure.

#[local] Set Warnings "-register-all".

(** What a create returns: an instance, or an Array of what the element
    descriptor's create returns. *)
Inductive View : Type :=
| mkView (buffer : nat) (props : list (string * Property))
with Property : Type :=
| PScalar (desc : PrimitiveDescriptor) (abs : number)
| PVector (ta : TypedArray) (length : Z)
| PValue (x : Created)
with Created : Type :=
| CView (inst : View)
| CArray (items : list Created) (buffer : option nat).

Definition view_buffer (v : View) : nat :=
  match v with mkView b _ => b end.

Definition view_props (v : View) : list (string * Property) :=
  match v with mkView _ ps => ps end.

(** The last step of create: Object.defineProperty(inst, 'buffer', ...),
    as in index.js. *)
Definition define_buffer (props : list (string * Property))
    : result (list (string * Property)) :=
  match lookup "buffer" props with
  | Some (PScalar _ _) | Some (PVector _ _) => Throw TypeError
  | Some _ => Ok (Js.remove_prop "buffer" props)
  | None => Ok props
  end.

(** [desc.create(buffer, baseOffset)] with both arguments given;
    [array_buffer] tells whether the Arrays get the buffer getter. *)
Fixpoint create_at (array_buffer : bool) (d : Ts.Descriptor) (buffer : nat)
    (baseOffset : number) (h : Heap) {struct d} : result (Created * Heap) :=
  match d with
  | Ts.DStruct _ fields =>
      let* '(props, h') :=
        for_each_collect
          (fun f h =>
             let* '(pr, h1) := bind_field array_buffer f buffer baseOffset h in
             Ok ((Ts.field_name f, pr), h1))
          fields h in
      let* props' := define_buffer props in
      Ok (CView (mkView buffer props'), h')
  | Ts.DArray structDesc len =>
      let* '(arr, h') :=
        for_index
          (fun i h =>
             create_at array_buffer structDesc buffer
               (nadd baseOffset (nmul (Int i) (Ts.desc_size structDesc))) h)
          (Z.to_nat len) 0 h in
      Ok (CArray arr (if array_buffer then Some buffer else None), h')
  end
with bind_field (array_buffer : bool) (f : Ts.FieldDescriptor) (buffer : nat)
    (baseOffset : number) (h : Heap) {struct f} : result (Property * Heap) :=
  match f with
  | Ts.scalar _ desc fo => Ok (PScalar desc (nadd baseOffset fo), h)
  | Ts.vector _ elem len fo =>
      let* '(ta, h') :=
        new_TypedArray (arrayType elem) buffer (nadd baseOffset fo) len h in
      Ok (PVector ta len, h')
  | Ts.struct_ _ desc fo =>
      let* '(x, h') := create_at array_buffer desc buffer (nadd baseOffset fo) h in
      Ok (PValue x, h')
  | Ts.array_ _ elemDesc len fo =>
      match positive_integer (Ts.length_value len) with
      | None => Throw ArrayLength
      | Some n =>
          let* '(arr, h') :=
            for_index
              (fun i h =>
                 create_at array_buffer elemDesc buffer
                   (nadd (nadd baseOffset fo)
                         (nmul (Int i) (Ts.desc_size elemDesc))) h)
              (Z.to_nat n) 0 h in
          Ok (PValue (CArray arr (if array_buffer then Some buffer else None)), h')
      end
  end.

(** [desc.create()]. *)
Definition create (array_buffer : bool) (d : Ts.Descriptor) (h : Heap)
    : result (Created * Heap) :=
  let* '(buffer, h1) := new_ArrayBuffer (Ts.desc_size d) h in
  create_at array_buffer d buffer (Int 0) h1.

Inductive propvalue : Type :=
| Value (v : jsvalue)
| Buffer (b : nat)
| Window (ta : TypedArray)
| Sub (x : Created).

(** [inst.name]. *)
Definition get (h : Heap) (inst : View) (name : string) : result propvalue :=
  if String.eqb name "buffer" then Ok (Buffer (view_buffer inst)) else
  match lookup name (view_props inst) with
  | Some (PScalar desc abs) =>
      let* v := DataView_get (getter desc)
                  (nth (view_buffer inst) (buffers h) []) abs in
      Ok (Value v)
  | Some (PVector ta _) => Ok (Window ta)
  | Some (PValue x) => Ok (Sub x)
  | None => Ok (Value Undefined)
  end.

(** [inst.name = v] for a scalar field and a primitive value. *)
Definition set_scalar (h : Heap) (inst : View) (name : string) (v : jsvalue)
    : option (result Heap) :=
  if String.eqb name "buffer" then None else
  match lookup name (view_props inst) with
  | Some (PScalar desc abs) =>
      Some (let* b := DataView_set (setter desc)
                        (nth (view_buffer inst) (buffers h) []) abs v in
            Ok (set_buffer h (view_buffer inst) b))
  | _ => None
  end.

(** [inst.name = arr] for a vector field and an Array. *)
Definition set_vector (h : Heap) (inst : View) (name : string)
    (arr : list jsvalue) : option (result Heap) :=
  if String.eqb name "buffer" then None else
  match lookup name (view_props inst) with
  | Some (PVector ta len) => Some (copy_into ta arr (Z.to_nat len) 0 h)
  | _ => None
  end.

Definition is_array (x : Created) : bool :=
  match x with CArray _ _ => true | CView _ => false end.

End Closure.

(** * index.ts, the second implementation (lines 436-817) *)

Module Ts2.

(** One iteration of the loop of c.struct (lines 717-766): the tests of the
    first implementation, the probing call being the create above. *)
Definition classify (name : string) (type : Ts.value) (offset : number)
    (h : Heap) : result (Ts.FieldDescriptor * number * Heap) :=
  match type with
  | Ts.VList l =>
      match l with
      | [] => Throw TypeError
      | elem :: _ =>
          let len := Z.of_nat (List.length l) in
          Ok (Ts.vector name elem len offset,
              nadd offset (Int (size elem * len)), h)
      end
  | Ts.VDesc d =>
      if truthy (Ts.desc_size d) then
        let* '(probe, h1) := Closure.create true d h in
        if Closure.is_array probe then
          Ok (Ts.array_ name d (Ts.descriptor_length d) offset,
              nadd offset (Ts.times (Ts.desc_size d) (Ts.descriptor_length d)), h1)
        else
          Ok (Ts.struct_ name d offset, nadd offset (Ts.desc_size d), h1)
      else Throw (UnknownFieldType name)
  | Ts.VPrimitive d =>
      Ok (Ts.scalar name d offset, nadd offset (Int (size d)), h)
  | Ts.VObject => Throw (UnknownFieldType name)
  end.

Fixpoint resolve (schema : list (string * Ts.value)) (offset : number)
    (h : Heap) : result (list Ts.FieldDescriptor * number * Heap) :=
  match schema with
  | [] => Ok ([], offset, h)
  | (name, type) :: rest =>
      let* '(entry, offset', h1) := classify name type offset h in
      let* '(fields, totalSize, h2) := resolve rest offset' h1 in
      Ok (entry :: fields, totalSize, h2)
  end.

(** [c.struct(schema)] (lines 702-816). *)
Definition struct (schema : list (string * Ts.value)) (h : Heap)
    : result (Ts.Descriptor * Heap) :=
  let* '(fields, totalSize, h') := resolve schema (Int 0) h in
  Ok (Ts.DStruct totalSize fields, h').

Definition create : Ts.Descriptor -> Heap -> result (Closure.Created * Heap) :=
  Closure.create true.

End Ts2.

(** * part_000 (lines 54-258): the implementation without probing *)

Module Part000.

(** One iteration of the loop of c.struct (lines 140-171).  The second
    test reads [type.kind]; no object that the library hands out has such
    a property (the result of c.array has size and create only), so the
    test fails on all of them and an array descriptor goes on to the test
    for a nested struct. *)
Definition classify (name : string) (type : Ts.value) (offset : number)
    : result (Ts.FieldDescriptor * number) :=
  match type with
  | Ts.VList l =>
      match l with
      | [] => Throw TypeError
      | elem :: _ =>
          let len := Z.of_nat (List.length l) in
          Ok (Ts.vector name elem len offset, nadd offset (Int (size elem * len)))
      end
  | Ts.VPrimitive d =>
      Ok (Ts.scalar name d offset, nadd offset (Int (size d)))
  | Ts.VDesc d =>
      if truthy (Ts.desc_size d)
      then Ok (Ts.struct_ name d offset, nadd offset (Ts.desc_size d))
      else Throw (UnknownFieldType name)
  | Ts.VObject => Throw (UnknownFieldType name)
  end.

Fixpoint resolve (schema : list (string * Ts.value)) (offset : number)
    : result (list Ts.FieldDescriptor * number) :=
  match schema with
  | [] => Ok ([], offset)
  | (name, type) :: rest =>
      let* '(entry, offset') := classify name type offset in
      let* '(fields, totalSize) := resolve rest offset' in
      Ok (entry :: fields, totalSize)
  end.

(** [c.struct(schema)] (lines 136-218). *)
Definition struct (schema : list (string * Ts.value)) : result Ts.Descriptor :=
  let* '(fields, totalSize) := resolve schema (Int 0) in
  Ok (Ts.DStruct totalSize fields).

Definition create : Ts.Descriptor -> Heap -> result (Closure.Created * Heap) :=
  Closure.create false.

End Part000.

(** * Example schemas of the test file *)

(** Item = c.struct({ color: c.float3() }) in index.ts. *)
Definition ts_Item : Ts.Descriptor :=
  Ts.DStruct (Int 12) [Ts.vector "color" (Ts.p float32) 3 (Int 0)].

(** The same schema in index.js. *)
Definition js_Item : Js.StructDescriptor :=
  Js.mkStruct 12 [Js.vector "color" (Js.p float32) 3 0].

(** * The layout rule, as the specification words it *)

Module LayoutRule.

(** size(scalar) = the primitive's byte width; size(vector) = byte width
    times length; size(struct) = the nested descriptor's total size;
    size(array) = the element descriptor's size times length. *)
Definition js_field_size (f : Js.FieldDescriptor) : Z :=
  match f with
  | Js.scalar _ desc _ => size desc
  | Js.vector _ elem len _ => size elem * len
  | Js.struct_ _ desc _ => Js.struct_size desc
  | Js.array_ _ elemDesc len _ => Js.struct_size elemDesc * len
  end.

(** offset(field_0) = start and offset(field_i) = offset(field_i-1) +
    size(field_i-1). *)
Fixpoint js_packed (start : Z) (fields : list Js.FieldDescriptor) : Prop :=
  match fields with
  | [] => True
  | f :: rest =>
      Js.field_offset f = start /\ js_packed (start + js_field_size f) rest
  end.

Definition js_total (fields : list Js.FieldDescriptor) : Z :=
  fold_right (fun f acc => js_field_size f + acc) 0 fields.

(** The array descriptors of a schema are results of [c.array]. *)
Definition js_from_array (type : Js.value) : Prop :=
  match type with
  | Js.VArray a => Js.array_size a = Js.struct_size (Js.elemDesc a) * Js.length a
  | _ => True
  end.

(** The same rule for the fields that index.ts records; an array field
    is recorded without a length there, so the rule gives it no size. *)
Definition ts_field_size (f : Ts.FieldDescriptor) : number :=
  match f with
  | Ts.scalar _ desc _ => Int (size desc)
  | Ts.vector _ elem len _ => Int (size elem * len)
  | Ts.struct_ _ desc _ => Ts.desc_size desc
  | Ts.array_ _ elemDesc (Some len) _ => nmul (Ts.desc_size elemDesc) (Int len)
  | Ts.array_ _ _ None _ => NaN
  end.

Fixpoint ts_packed (start : number) (fields : list Ts.FieldDescriptor) : Prop :=
  match fields with
  | [] => True
  | f :: rest =>
      Ts.field_offset f = start /\ ts_packed (nadd start (ts_field_size f)) rest
  end.

Definition ts_total (fields : list Ts.FieldDescriptor) : number :=
  fold_right (fun f acc => nadd (ts_field_size f) acc) (Int 0) fields.

End LayoutRule.

Module Shapes.

(** How the tests of [c.struct] in index.js sort a field type. *)
Inductive shape : Type :=
| Recognized        (* one of the four branches records an entry *)
| Unknown           (* the final else: the error that names the field *)
| EmptyList.        (* an Array without element 0 *)

Definition js_shape (type : Js.value) : shape :=
  match type with
  | Js.VPrimitive _ => Recognized
  | Js.VList [] => EmptyList
  | Js.VList (_ :: _) => Recognized
  | Js.VStruct d => if Js.struct_size d =? 0 then Unknown else Recognized
  | Js.VArray _ => Recognized
  | Js.VObject => Unknown
  end.

Definition js_recognized (e : string * Js.value) : bool :=
  match js_shape (snd e) with Recognized => true | _ => false end.

Definition js_is_struct (v : Js.value) : bool :=
  match v with Js.VStruct _ => true | _ => false end.

Definition ts_is_descriptor (v : Ts.value) : bool :=
  match v with Ts.VDesc _ => true | _ => false end.

End Shapes.


(** The store after c.struct({ u: c.uint() }).create() in index.ts. *)
Definition ts_uint_store : Ts.Store :=
  Ts.mkStore (mkHeap [[0; 0; 0; 0]] 1)
    [(0%nat,
      Ts.mkInstance [Ts.scalar "u" (Ts.p uint32) (Int 0)]
        [("buffer", Ts.OBuffer 0); ("baseOffset", Ts.ONumber (Int 0));
         ("__view", Ts.ODataView 0)])].


(** A window lies inside its buffer (what [new_TypedArray] checks). *)
Definition valid_window (h : Heap) (ta : TypedArray) : Prop :=
  0 <= ta_byteOffset ta /\ 0 <= ta_length ta
  /\ ta_byteOffset ta + ta_length ta * BYTES_PER_ELEMENT (ta_type ta)
     <= byteLength h (ta_buffer ta)
  /\ (ta_buffer ta < List.length (buffers h))%nat.

(** Byte [k] of buffer [b]. *)
Definition byte_at (h : Heap) (b : nat) (k : Z) : Z :=
  nth (Z.to_nat k) (nth b (buffers h) []) 0.

(** First byte of element [i] of a window. *)
Definition elem_start (ta : TypedArray) (i : Z) : Z :=
  ta_byteOffset ta + i * BYTES_PER_ELEMENT (ta_type ta).

(** The store after c.array(Item, 3).create() in index.ts: one buffer of
    36 bytes and the three element instances, at base offsets 0, 12, 24. *)
Definition ts_items_store : Ts.Store :=
  Eval vm_compute in
    match Ts.create (Ts.DArray ts_Item 3) Ts.empty_store with
    | Ok (_, s) => s
    | Throw _ => Ts.empty_store
    end.

(** The window that the getter of items[1].color builds on first use. *)
Definition ts_items_window1 : TypedArray := mkTypedArray 3 Float32 0 12 3.

(** [js_subview w v]: [w] is [v] or is reached from [v] through nested
    instances and array elements. *)
Inductive js_subview (w : Js.View) : Js.View -> Prop :=
| js_sub_self : js_subview w w
| js_sub_struct (v sub : Js.View) (n : string) :
    In (n, Js.PStruct sub) (Js.view_props v) -> js_subview w sub -> js_subview w v
| js_sub_array (v x : Js.View) (n : string) (arr : list Js.View) :
    In (n, Js.PArray arr) (Js.view_props v) -> In x arr -> js_subview w x ->
    js_subview w v.



(** The buffer references inside a property value all name buffer [b]. *)
Fixpoint ts_refs (b : nat) (v : Ts.OwnValue) : Prop :=
  match v with
  | Ts.OBuffer b' | Ts.ODataView b' => b' = b
  | Ts.OTypedArray ta => ta_buffer ta = b
  | Ts.OArray items b' =>
      b' = b /\
      (fix all (l : list Ts.OwnValue) : Prop :=
         match l with
         | [] => True
         | x :: r => ts_refs b x /\ all r
         end) items
  | Ts.OInstance _ | Ts.ONumber _ => True
  end.

(** Every instance in the table has an identity below the counter, and
    those with identity at least [k] hold references to buffer [b] only. *)
Definition ts_inv (k b : nat) (s : Ts.Store) : Prop :=
  forall id x, Ts.find_instance id (Ts.instances s) = Some x ->
    (id < fresh (Ts.heap s))%nat
    /\ ((k <= id)%nat -> Forall (fun p => ts_refs b (snd p)) (Ts.own x)).

(** What a step of a root create may do to the store. *)
Definition ts_step (k b : nat) (s s' : Ts.Store) : Prop :=
  (k <= fresh (Ts.heap s))%nat -> ts_inv k b s ->
  ts_inv k b s'
  /\ buffers (Ts.heap s') = buffers (Ts.heap s)
  /\ (fresh (Ts.heap s) <= fresh (Ts.heap s'))%nat
  /\ (forall id, (id < k)%nat ->
        Ts.find_instance id (Ts.instances s') = Ts.find_instance id (Ts.instances s)).

(** Identities in the instance table are below the counter. *)
Definition ts_wf (s : Ts.Store) : Prop :=
  forall id x, Ts.find_instance id (Ts.instances s) = Some x ->
    (id < fresh (Ts.heap s))%nat.



(** Color = c.struct({ r: c.float(), g: c.float(), b: c.float() }) and
    Item = c.struct({ color: Color }) of the nested-struct test. *)
Definition ts_Color : Ts.Descriptor :=
  Ts.DStruct (Int 12)
    [Ts.scalar "r" (Ts.p float32) (Int 0);
     Ts.scalar "g" (Ts.p float32) (Int 4);
     Ts.scalar "b" (Ts.p float32) (Int 8)].

Definition ts_Nested : Ts.Descriptor :=
  Ts.DStruct (Int 12) [Ts.struct_ "color" ts_Color (Int 0)].

(** The store after Item.create() for Item = c.struct({color: c.float3()}). *)
Definition ts_item_store : Ts.Store :=
  Eval vm_compute in
    match Ts.create ts_Item Ts.empty_store with
    | Ok (_, s) => s
    | Throw _ => Ts.empty_store
    end.

(** * The schemas of the example at the end of index.js *)

(** Item = c.struct({ position: c.float3(), normal: c.float3(),
    uv: c.float2(), materialIndex: c.uint() }). *)
Definition js_example_Item_schema : list (string * Js.value) :=
  [("position", Js.float3); ("normal", Js.float3); ("uv", Js.float2);
   ("materialIndex", Js.uint)].

Definition js_example_Item : Js.StructDescriptor :=
  Js.mkStruct 36
    [Js.vector "position" (Js.p float32) 3 0;
     Js.vector "normal" (Js.p float32) 3 12;
     Js.vector "uv" (Js.p float32) 2 24;
     Js.scalar "materialIndex" (Js.p uint32) 32].

(** Material = c.struct({ items: c.array(Item, 2) }). *)
Definition js_example_Material : Js.StructDescriptor :=
  Js.mkStruct 72 [Js.array_ "items" js_example_Item 2 0].

(** A field type of a schema is a value that the library hands out: an
    array descriptor is a result of [c.array]. *)
Definition js_api_value (type : Js.value) : Prop :=
  match type with
  | Js.VArray a => exists v len, Js.array v len = Ok (Js.VArray a)
  | _ => True
  end.

(** The descriptors on which the constructor of index.ts runs to its end:
    every array field that is reached carries a positive length. *)
(** The first error of a sequence of steps, given the error of each. *)
Fixpoint first_error {F} (out : F -> option error) (fs : list F) : option error :=
  match fs with
  | [] => None
  | f :: r => match out f with Some e => Some e | None => first_error out r end
  end.

(** The error of a loop of [n] rounds that all end alike. *)
Definition loop_error (n : nat) (o : option error) : option error :=
  match n with O => None | S _ => o end.

(** What the constructor of index.ts does with a descriptor, read off the
    descriptor alone: the error that it throws, or none when it returns.
    Fields are visited in order; an array field without a positive length
    is refused by c.array, an array of 2^32 or more elements by
    [new Array]; the elements of an array are created in turn. *)
Fixpoint ts_create_outcome (d : Ts.Descriptor) : option error :=
  match d with
  | Ts.DStruct _ fields =>
      (fix first (fs : list Ts.FieldDescriptor) : option error :=
         match fs with
         | [] => None
         | f :: r =>
             match ts_init_outcome f with
             | Some e => Some e
             | None => first r
             end
         end) fields
  | Ts.DArray d' len =>
      if valid_array_length len
      then loop_error (Z.to_nat len) (ts_create_outcome d')
      else Some RangeError
  end
with ts_init_outcome (f : Ts.FieldDescriptor) : option error :=
  match f with
  | Ts.scalar _ _ _ | Ts.vector _ _ _ _ => None
  | Ts.struct_ _ d _ => ts_create_outcome d
  | Ts.array_ _ d (Some n) _ =>
      if 0 <? n then
        if valid_array_length n
        then loop_error (Z.to_nat n) (ts_create_outcome d)
        else Some RangeError
      else Some ArrayLength
  | Ts.array_ _ _ None _ => Some ArrayLength
  end.

(** Every array under a descriptor has a length that [new Array] takes. *)
Fixpoint ts_array_lengths_valid (d : Ts.Descriptor) : bool :=
  match d with
  | Ts.DStruct _ fields =>
      (fix all (fs : list Ts.FieldDescriptor) : bool :=
         match fs with
         | [] => true
         | f :: r => ts_field_lengths_valid f && all r
         end) fields
  | Ts.DArray d' len => valid_array_length len && ts_array_lengths_valid d'
  end
with ts_field_lengths_valid (f : Ts.FieldDescriptor) : bool :=
  match f with
  | Ts.scalar _ _ _ | Ts.vector _ _ _ _ => true
  | Ts.struct_ _ d _ => ts_array_lengths_valid d
  | Ts.array_ _ d (Some n) _ => valid_array_length n && ts_array_lengths_valid d
  | Ts.array_ _ d None _ => ts_array_lengths_valid d
  end.

(** The buffers that the probing calls [type.create()] of c.struct in
    index.ts allocate: one per field whose type is a descriptor, of that
    descriptor's size. *)
Definition ts_probe_buffers (schema : list (string * Ts.value)) : list ArrayBuffer :=
  flat_map
    (fun e =>
       match snd e with
       | Ts.VDesc d =>
           match Ts.desc_size d with
           | Int z => [repeat 0 (Z.to_nat z)]
           | NaN => []
           end
       | _ => []
       end) schema.

(** Whether the conversion of an element store accepts a value: the
    Number kinds refuse a BigInt (ToNumber), the 64-bit integer kinds
    refuse everything but a BigInt (ToBigInt). *)
Definition accepts (t : ElemType) (v : jsvalue) : bool :=
  match t, v with
  | (BigUint64 | BigInt64), BigInt _ => true
  | (BigUint64 | BigInt64), _ => false
  | _, BigInt _ => false
  | _, _ => true
  end.

(** The bytes of a window. *)
Definition in_window (ta : TypedArray) (k : Z) : Prop :=
  ta_byteOffset ta <= k
  < ta_byteOffset ta + ta_length ta * BYTES_PER_ELEMENT (ta_type ta).

(** The accessor properties of index.js: those that a scalar or a vector
    field defines. *)
Definition js_is_accessor_field (f : Js.FieldDescriptor) : bool :=
  match f with
  | Js.scalar _ _ _ | Js.vector _ _ _ _ => true
  | _ => false
  end.

Definition js_is_accessor (pr : Js.Property) : bool :=
  match pr with
  | Js.PScalar _ _ | Js.PVector _ _ => true
  | _ => false
  end.

(** Every window in the tree of views under [v] has the length of its
    field, starts at a multiple of its element size and ends inside a
    buffer of [size] bytes. *)
Definition js_window_checked (size : Z) (ta : TypedArray) (len : Z) : Prop :=
  ta_length ta = len
  /\ 0 <= ta_byteOffset ta
  /\ ta_byteOffset ta mod BYTES_PER_ELEMENT (ta_type ta) = 0
  /\ ta_byteOffset ta + len * BYTES_PER_ELEMENT (ta_type ta) <= size.

Definition js_windows_checked (size : Z) (v : Js.View) : Prop :=
  forall w, js_subview w v ->
  forall n ta len, In (n, Js.PVector ta len) (Js.view_props w) ->
    js_window_checked size ta len.

Definition js_prop_windows_checked (size : Z) (pr : Js.Property) : Prop :=
  match pr with
  | Js.PScalar _ _ => True
  | Js.PVector ta len => js_window_checked size ta len
  | Js.PStruct sub => js_windows_checked size sub
  | Js.PArray arr => Forall (js_windows_checked size) arr
  end.

(** * What the binder with closures hands out *)

(** Everything under a value that create returns is bound to buffer [b]:
    the buffer getter of every instance and of every Array that has one
    returns [b], and every window of a vector field is a window on [b]
    that has the field's length, starts at a multiple of its element size
    and ends within [size] bytes. *)
Fixpoint closure_bound (size : Z) (b : nat) (x : Closure.Created)
    {struct x} : Prop :=
  match x with
  | Closure.CView v => closure_view_bound size b v
  | Closure.CArray items ob =>
      match ob with Some b' => b' = b | None => True end
      /\ (fix all (l : list Closure.Created) : Prop :=
            match l with
            | [] => True
            | y :: r => closure_bound size b y /\ all r
            end) items
  end
with closure_view_bound (size : Z) (b : nat) (v : Closure.View)
    {struct v} : Prop :=
  match v with
  | Closure.mkView b' props =>
      b' = b
      /\ (fix all (l : list (string * Closure.Property)) : Prop :=
            match l with
            | [] => True
            | (_, pr) :: r => closure_prop_bound size b pr /\ all r
            end) props
  end
with closure_prop_bound (size : Z) (b : nat) (pr : Closure.Property)
    {struct pr} : Prop :=
  match pr with
  | Closure.PScalar _ _ => True
  | Closure.PVector ta len => ta_buffer ta = b /\ js_window_checked size ta len
  | Closure.PValue x => closure_bound size b x
  end.

(** A field entry of kind array, which only the probing resolver records. *)
Definition ts_is_array_field (f : Ts.FieldDescriptor) : bool :=
  match f with Ts.array_ _ _ _ _ => true | _ => false end.

(** The schemas of the example of part_000. *)
Definition part000_ItemDesc : Ts.Descriptor :=
  Ts.DStruct (Int 12) [Ts.vector "position" (Ts.p float32) 3 (Int 0)].

Definition part000_MaterialDesc : Ts.Descriptor :=
  Ts.DStruct (Int 24) [Ts.struct_ "items" (Ts.DArray part000_ItemDesc 2) (Int 0)].

(** The elements of an Array are made in turn, the first in state [s],
    each next one in the state that the one before left, the last one
    leaving [s']. *)
Fixpoint made_in_turn {V St} (make : Z -> St -> result (V * St)) (i : Z)
    (s : St) (xs : list V) (s' : St) : Prop :=
  match xs with
  | [] => s' = s
  | x :: r => exists s1, make i s = Ok (x, s1) /\ made_in_turn make (i + 1) s1 r s'
  end.

(** No nested struct or array of these fields is stored under one of the
    names buffer and baseOffset, which the constructor sets itself. *)
Definition ts_keeps_own (fields : list Ts.FieldDescriptor) : bool :=
  forallb (fun f =>
             match f with
             | Ts.struct_ n _ _ | Ts.array_ n _ _ _ =>
                 negb (String.eqb n "buffer") && negb (String.eqb n "baseOffset")
             | _ => true
             end) fields.

(** In store [s] the value [v] is an instance of the class with these
    fields whose own properties buffer and baseOffset hold [b] and
    [base]. *)
Definition ts_instance_at (s : Ts.Store) (v : Ts.OwnValue)
    (fields : list Ts.FieldDescriptor) (b : nat) (base : number) : Prop :=
  exists id x,
    v = Ts.OInstance id
    /\ Ts.find_instance id (Ts.instances s) = Some x
    /\ Ts.proto x = fields
    /\ lookup "buffer" (Ts.own x) = Some (Ts.OBuffer b)
    /\ lookup "baseOffset" (Ts.own x) = Some (Ts.ONumber base).

(** * Properties *)

(** * The registry *)

Lemma ts_registry_widths (n : PrimitiveName) :
  8 * size (Ts.p n) = bit_width n.
Proof. destruct n; reflexivity. Qed.

Lemma ts_registry_accessors (n : PrimitiveName) :
  BYTES_PER_ELEMENT (arrayType (Ts.p n)) = size (Ts.p n)
  /\ getter (Ts.p n) = arrayType (Ts.p n)
  /\ setter (Ts.p n) = arrayType (Ts.p n).
Proof. destruct n; repeat split; reflexivity. Qed.

Lemma js_registry_widths (n : PrimitiveName) :
  n <> float64 -> 8 * size (Js.p n) = bit_width n.
Proof. destruct n; intros H; try reflexivity; contradiction. Qed.

(** C4 (index.js): the registry entry float64 has size 4, although the
    kind is 64 bits wide and its accessors move 8 bytes; a scalar float64
    field therefore advances the running offset by 4, not 8.  index.ts has
    8 (see [ts_registry_widths]). *)
Theorem C4_js_float64_size :
  size (Js.p float64) = 4
  /\ bit_width float64 = 64
  /\ BYTES_PER_ELEMENT (getter (Js.p float64)) = 8
  /\ Js.struct [("x", Js.VPrimitive (Js.p float64)); ("y", Js.float_)]
     = Ok (Js.mkStruct 8 [Js.scalar "x" (Js.p float64) 0;
                          Js.scalar "y" (Js.p float32) 4]).
Proof. repeat split; reflexivity. Qed.

(** * c.array and array fields *)

Lemma positive_integer_inject (n : Z) :
  0 < n -> positive_integer (Num (inject_Z n)) = Some n.
Proof.
  intros Hn. unfold positive_integer, trunc, inject_Z.
  cbn [Qnum Qden]. rewrite Z.quot_1_r.
  replace (1 * n =? n) with true by (symmetry; apply Z.eqb_eq; lia).
  replace (0 <? n) with true by (symmetry; apply Z.ltb_lt; lia).
  reflexivity.
Qed.

Lemma positive_integer_spec (v : jsvalue) (n : Z) :
  positive_integer v = Some n -> 0 < n.
Proof.
  destruct v; try discriminate. unfold positive_integer.
  destruct (_ =? _); [|discriminate]. cbn [andb].
  destruct (Z.ltb_spec 0 (trunc q)); [|discriminate].
  intros H'; inversion H'; subst; assumption.
Qed.

(** [positive_integer] accepts exactly the Numbers that are positive whole
    numbers. *)
Lemma positive_integer_char (v : jsvalue) (n : Z) :
  positive_integer v = Some n <->
  exists q, v = Num q /\ Qeq q (inject_Z n) /\ 0 < n.
Proof.
  split.
  - intros H. pose proof (positive_integer_spec _ _ H) as Hn.
    destruct v as [|q| | |]; try discriminate. unfold positive_integer in H.
    destruct (Z.eqb_spec (Z.pos (Qden q) * trunc q) (Qnum q)) as [E|];
      [|discriminate].
    destruct (0 <? trunc q); [|discriminate]. cbn [andb] in H.
    inversion H; subst n. exists q. split; [reflexivity|]. split; [|assumption].
    unfold Qeq. simpl. lia.
  - intros (q & -> & Hq & Hn). unfold positive_integer.
    unfold Qeq in Hq. simpl in Hq.
    assert (Ht : trunc q = n).
    { unfold trunc. rewrite Z.mul_1_r in Hq. rewrite Hq.
      apply Z.quot_mul. lia. }
    rewrite Ht.
    replace (Z.pos (Qden q) * n =? Qnum q) with true
      by (symmetry; apply Z.eqb_eq; lia).
    replace (0 <? n) with true by (symmetry; apply Z.ltb_lt; lia).
    reflexivity.
Qed.

Lemma ts_array_ok (d : Ts.Descriptor) (n : Z) :
  0 < n ->
  Ts.array (Ts.VDesc d) (Num (inject_Z n)) = Ok (Ts.VDesc (Ts.DArray d n))
  /\ Ts.desc_size (Ts.DArray d n) = nmul (Ts.desc_size d) (Int n).
Proof.
  intros Hn. unfold Ts.array. rewrite positive_integer_inject by assumption.
  split; reflexivity.
Qed.

Lemma js_array_ok (d : Js.StructDescriptor) (n : Z) :
  0 < n ->
  Js.array (Js.VStruct d) (Num (inject_Z n))
  = Ok (Js.VArray (Js.mkArray d n (Js.struct_size d * n))).
Proof.
  intros Hn. unfold Js.array. rewrite positive_integer_inject by assumption.
  reflexivity.
Qed.

(** C3 (index.ts): with Item = c.struct({color: c.float3()}), the descriptor
    c.array(Item, 2) has size 24 and its own create() yields two element
    instances, but as a field of another schema it is recorded with the
    array descriptor itself as element descriptor and an undefined length:
    the resolved size is NaN and create() of the enclosing struct throws
    the length error of c.array.  In index.js the descriptor of c.array has
    no create, so c.array refuses it as a struct descriptor. *)
Theorem C3_ts_array_field :
  Ts.struct [("color", Ts.float3)] Ts.empty_store = Ok (ts_Item, Ts.empty_store)
  /\ Ts.array (Ts.VDesc ts_Item) (Num 2) = Ok (Ts.VDesc (Ts.DArray ts_Item 2))
  /\ Ts.desc_size (Ts.DArray ts_Item 2) = Int 24
  /\ (exists s, Ts.create (Ts.DArray ts_Item 2) Ts.empty_store
                = Ok (Ts.OArray [Ts.OInstance 0; Ts.OInstance 1] 0, s))
  /\ (exists s,
        Ts.struct [("items", Ts.VDesc (Ts.DArray ts_Item 2))] Ts.empty_store
        = Ok (Ts.DStruct NaN
                [Ts.array_ "items" (Ts.DArray ts_Item 2) None (Int 0)], s))
  /\ Ts.create (Ts.DStruct NaN
                  [Ts.array_ "items" (Ts.DArray ts_Item 2) None (Int 0)])
               Ts.empty_store
     = Throw ArrayLength
  /\ Js.array (Js.VArray (Js.mkArray js_Item 2 24)) (Num 3) = Throw ArrayFirstArg.
Proof.
  repeat split; try reflexivity; eexists; vm_compute; reflexivity.
Qed.

(** C1 (index.ts): for the schema { items: c.array(Item, 2), id: c.uint() }
    the array field advances the running offset by size * undefined: the
    field after it gets offset NaN and the total size is NaN, where the
    stated rule gives offset 24 and total size 28.  index.js follows the
    rule (see [js_resolve_layout]). *)
Theorem C1_ts_array_field_offsets :
  exists s,
    Ts.struct [("items", Ts.VDesc (Ts.DArray ts_Item 2)); ("id", Ts.uint)]
      Ts.empty_store
    = Ok (Ts.DStruct NaN
            [Ts.array_ "items" (Ts.DArray ts_Item 2) None (Int 0);
             Ts.scalar "id" (Ts.p uint32) NaN], s).
Proof. eexists; vm_compute; reflexivity. Qed.

Lemma js_array_from_array (v : Js.value) (len : jsvalue) (r : Js.value) :
  Js.array v len = Ok r -> LayoutRule.js_from_array r.
Proof.
  unfold Js.array. destruct v; try discriminate.
  destruct (positive_integer len); [|discriminate].
  intros H; inversion H; subst. reflexivity.
Qed.

Lemma js_classify_layout (name : string) (type : Js.value) (offset : Z)
    (f : Js.FieldDescriptor) (offset' : Z) :
  LayoutRule.js_from_array type ->
  Js.classify name type offset = Ok (f, offset') ->
  Js.field_name f = name /\ Js.field_offset f = offset
  /\ offset' = offset + LayoutRule.js_field_size f.
Proof.
  intros Hwf H. destruct type as [d | l | d | a | ]; simpl in H.
  - inversion H; subst; auto.
  - destruct l as [|e l']; [discriminate|]. inversion H; subst; auto.
  - destruct (Js.struct_size d =? 0); [discriminate|].
    inversion H; subst; auto.
  - inversion H; subst. simpl in *. rewrite Hwf. auto.
  - discriminate.
Qed.

(** index.js follows the layout rule on every schema that it accepts:
    fields keep the declaration order and names, offsets are the running
    sums of the sizes of the rule, and the total is their sum. *)
Lemma js_resolve_layout (schema : list (string * Js.value)) :
  forall (offset : Z) (fields : list Js.FieldDescriptor) (total : Z),
  Forall (fun e => LayoutRule.js_from_array (snd e)) schema ->
  Js.resolve schema offset = Ok (fields, total) ->
  map Js.field_name fields = map fst schema
  /\ LayoutRule.js_packed offset fields
  /\ total = offset + LayoutRule.js_total fields.
Proof.
  induction schema as [|[name type] rest IH]; intros offset fields total Hwf H.
  - simpl in H. inversion H; subst. simpl. repeat split; lia.
  - simpl in H. inversion Hwf as [|? ? Hhd Htl]; subst.
    destruct (Js.classify name type offset) as [[f o']|e] eqn:Hc;
      [|discriminate].
    simpl in H.
    destruct (Js.resolve rest o') as [[fs t]|e] eqn:Hr; [|discriminate].
    simpl in H. inversion H; subst.
    destruct (js_classify_layout _ _ _ _ _ Hhd Hc) as (Hn & Ho & Hs).
    destruct (IH _ _ _ Htl Hr) as (Hnames & Hp & Ht).
    subst o'. simpl. repeat split.
    + congruence.
    + assumption.
    + assumption.
    + unfold LayoutRule.js_total in *. simpl. lia.
Qed.

Lemma js_struct_layout (schema : list (string * Js.value))
    (d : Js.StructDescriptor) :
  Forall (fun e => LayoutRule.js_from_array (snd e)) schema ->
  Js.struct schema = Ok d ->
  map Js.field_name (Js.struct_fields d) = map fst schema
  /\ LayoutRule.js_packed 0 (Js.struct_fields d)
  /\ Js.struct_size d = LayoutRule.js_total (Js.struct_fields d).
Proof.
  intros Hwf H. unfold Js.struct in H.
  destruct (Js.resolve schema 0) as [[fs t]|e] eqn:Hr; [|discriminate].
  simpl in H. inversion H; subst. simpl.
  destruct (js_resolve_layout _ _ _ _ Hwf Hr) as (A & B & C).
  repeat split; auto.
Qed.

Lemma nadd_assoc (a b c : number) : nadd (nadd a b) c = nadd a (nadd b c).
Proof. destruct a, b, c; simpl; try reflexivity. f_equal. lia. Qed.

Lemma ts_classify_layout (name : string) (type : Ts.value) (offset : number)
    (s s' : Ts.Store) (f : Ts.FieldDescriptor) (offset' : number) :
  Ts.classify name type offset s = Ok (f, offset', s') ->
  Ts.field_name f = name /\ Ts.field_offset f = offset
  /\ offset' = nadd offset (LayoutRule.ts_field_size f).
Proof.
  intros H. destruct type as [d | l | d | ]; simpl in H.
  - inversion H; subst; auto.
  - destruct l as [|e l']; [discriminate|]. inversion H; subst; auto.
  - destruct (truthy (Ts.desc_size d)); [|discriminate].
    destruct (Ts.create d s) as [[probe s1]|]; simpl in H; [|discriminate].
    destruct (Ts.is_array probe); inversion H; subst; auto.
  - discriminate.
Qed.

(** index.ts records each field at the running offset and advances it by
    the size of the rule; with an array field that size is NaN, and so is
    every later offset and the total. *)
Lemma ts_resolve_layout (schema : list (string * Ts.value)) :
  forall offset s fields total s',
  Ts.resolve schema offset s = Ok (fields, total, s') ->
  map Ts.field_name fields = map fst schema
  /\ LayoutRule.ts_packed offset fields
  /\ total = nadd offset (LayoutRule.ts_total fields).
Proof.
  induction schema as [|[name type] rest IH]; intros offset s fields total s' H.
  - simpl in H. inversion H; subst. simpl. repeat split.
    destruct total; simpl; [f_equal; lia|reflexivity].
  - simpl in H.
    destruct (Ts.classify name type offset s) as [[[f o'] s1]|] eqn:Hc;
      simpl in H; [|discriminate].
    destruct (Ts.resolve rest o' s1) as [[[fs t] s2]|] eqn:Hr; simpl in H;
      [|discriminate].
    inversion H; subst.
    destruct (ts_classify_layout _ _ _ _ _ _ _ Hc) as (Hn & Ho & Hs).
    destruct (IH _ _ _ _ _ Hr) as (Hnames & Hp & Ht).
    subst o'. simpl. repeat split.
    + congruence.
    + assumption.
    + assumption.
    + unfold LayoutRule.ts_total in *. simpl. rewrite Ht. apply nadd_assoc.
Qed.

(** * Configuration errors *)

Lemma js_classify_shape (name : string) (type : Js.value) (offset : Z) :
  match Shapes.js_shape type with
  | Shapes.Recognized => exists f o, Js.classify name type offset = Ok (f, o)
  | Shapes.Unknown => Js.classify name type offset = Throw (UnknownFieldType name)
  | Shapes.EmptyList => Js.classify name type offset = Throw TypeError
  end.
Proof.
  destruct type as [d | [|e l] | d | a | ]; simpl; eauto.
  destruct (Js.struct_size d =? 0); eauto.
Qed.

Lemma js_resolve_recognized (schema : list (string * Js.value)) :
  forall offset,
  forallb Shapes.js_recognized schema = true ->
  exists fields total, Js.resolve schema offset = Ok (fields, total).
Proof.
  induction schema as [|[name type] rest IH]; intros offset H; simpl.
  - eauto.
  - simpl in H. apply andb_true_iff in H as [H1 H2].
    unfold Shapes.js_recognized in H1. simpl in H1.
    pose proof (js_classify_shape name type offset) as Hc.
    destruct (Shapes.js_shape type); try discriminate.
    destruct Hc as (f & o & Hc). rewrite Hc. simpl.
    destruct (IH o H2) as (fs & t & Hr). rewrite Hr. simpl. eauto.
Qed.

Lemma js_resolve_unknown (pre : list (string * Js.value)) :
  forall offset name type post,
  forallb Shapes.js_recognized pre = true ->
  Shapes.js_shape type = Shapes.Unknown ->
  Js.resolve (pre ++ (name, type) :: post) offset
  = Throw (UnknownFieldType name).
Proof.
  induction pre as [|[n t] rest IH]; intros offset name type post Hpre Hty; simpl.
  - pose proof (js_classify_shape name type offset) as Hc.
    rewrite Hty in Hc. rewrite Hc. reflexivity.
  - simpl in Hpre. apply andb_true_iff in Hpre as [H1 H2].
    unfold Shapes.js_recognized in H1. simpl in H1.
    pose proof (js_classify_shape n t offset) as Hc.
    destruct (Shapes.js_shape t); try discriminate.
    destruct Hc as (f & o & Hc). rewrite Hc. simpl.
    rewrite (IH o name type post H2 Hty). reflexivity.
Qed.

(** C5, counterexample to the property as worded: c.struct({}) is a struct descriptor
    (size 0, with create), and a schema that nests it is refused with the
    unknown-field error, in index.js and in index.ts alike. *)
Lemma C5_empty_struct_refused :
  Js.struct [] = Ok (Js.mkStruct 0 [])
  /\ Js.struct [("inner", Js.VStruct (Js.mkStruct 0 []))]
     = Throw (UnknownFieldType "inner")
  /\ Ts.struct [] Ts.empty_store = Ok (Ts.DStruct (Int 0) [], Ts.empty_store)
  /\ Ts.struct [("inner", Ts.VDesc (Ts.DStruct (Int 0) []))] Ts.empty_store
     = Throw (UnknownFieldType "inner").
Proof. repeat split; reflexivity. Qed.

(** C5, amended: in index.js, c.struct returns a descriptor when every
    field type is a primitive descriptor, a non-empty list, an array
    descriptor or a struct descriptor of non-zero size, and throws the
    error naming the first field whose type is any other object, a struct
    descriptor of size 0 included; c.array (index.js and index.ts) returns
    a descriptor for a struct descriptor and a positive whole length, throws
    the length error for any other length, and the first-argument error for
    anything that is not a descriptor with size and create. *)
Theorem C5_configuration_errors :
  (forall schema,
     forallb Shapes.js_recognized schema = true ->
     exists d, Js.struct schema = Ok d)
  /\ (forall pre name type post,
        forallb Shapes.js_recognized pre = true ->
        Shapes.js_shape type = Shapes.Unknown ->
        Js.struct (pre ++ (name, type) :: post) = Throw (UnknownFieldType name))
  /\ (forall d len,
        match positive_integer len with
        | Some n => Js.array (Js.VStruct d) len
                    = Ok (Js.VArray (Js.mkArray d n (Js.struct_size d * n)))
        | None => Js.array (Js.VStruct d) len = Throw ArrayLength
        end)
  /\ (forall d len,
        match positive_integer len with
        | Some n => Ts.array (Ts.VDesc d) len = Ok (Ts.VDesc (Ts.DArray d n))
        | None => Ts.array (Ts.VDesc d) len = Throw ArrayLength
        end)
  /\ (forall v len, Shapes.js_is_struct v = false ->
        Js.array v len = Throw ArrayFirstArg)
  /\ (forall v len, Shapes.ts_is_descriptor v = false ->
        Ts.array v len = Throw ArrayFirstArg)
  /\ (forall v n,
        positive_integer v = Some n <->
        exists q, v = Num q /\ Qeq q (inject_Z n) /\ 0 < n).
Proof.
  split; [|split; [|split; [|split; [|split; [|split]]]]];
    [| | | | | |apply positive_integer_char].
  - intros schema H. unfold Js.struct.
    destruct (js_resolve_recognized schema 0 H) as (fs & t & Hr).
    rewrite Hr. simpl. eauto.
  - intros pre name type post Hpre Hty. unfold Js.struct.
    rewrite (js_resolve_unknown pre 0 name type post Hpre Hty). reflexivity.
  - intros d len. unfold Js.array, Ts.array.
    destruct (positive_integer len); auto.
  - intros d len. unfold Ts.array. destruct (positive_integer len); auto.
  - intros v len H. destruct v; try discriminate; reflexivity.
  - intros v len H. destruct v; try discriminate; reflexivity.
Qed.

Lemma C5_configuration_errors_witness :
  (exists d, Js.struct [("a", Js.float_); ("b", Js.float3)] = Ok d)
  /\ Js.struct [("a", Js.float_); ("b", Js.VObject); ("c", Js.VObject)]
     = Throw (UnknownFieldType "b")
  /\ Js.array Js.float_ (Num 3) = Throw ArrayFirstArg
  /\ Ts.array (Ts.VList []) (Num 3) = Throw ArrayFirstArg.
Proof.
  destruct C5_configuration_errors as (A & B & _ & _ & E & F & _).
  split; [|split; [|split]].
  - apply A. reflexivity.
  - apply (B [("a", Js.float_)] "b" Js.VObject [("c", Js.VObject)]); reflexivity.
  - apply E. reflexivity.
  - apply F. reflexivity.
Defined.

(** * Vectors take their kind from the first list element *)

(** C10: a non-empty list is classified as a vector whose element
    descriptor is the list's first element and whose length is the length
    of the list; the other elements are not looked at, so any two lists of
    the same length with the same first element resolve alike, and a
    heterogeneous list is laid out as copies of its first kind.  The window
    that the getter builds (index.ts) or that create builds (index.js) has
    the array type of that first element. *)
Theorem C10_vector_from_first_element :
  (forall name e rest offset s,
     Ts.classify name (Ts.VList (e :: rest)) offset s
     = Ok (Ts.vector name e (Z.of_nat (S (List.length rest))) offset,
           nadd offset (Int (size e * Z.of_nat (S (List.length rest)))), s))
  /\ (forall name e rest offset,
        Js.classify name (Js.VList (e :: rest)) offset
        = Ok (Js.vector name e (Z.of_nat (S (List.length rest))) offset,
              offset + size e * Z.of_nat (S (List.length rest))))
  /\ (forall name e rest offset s,
        Ts.classify name (Ts.VList (e :: rest)) offset s
        = Ts.classify name (Ts.VList (repeat e (S (List.length rest)))) offset s)
  /\ (forall id x name e len abs s ta s',
        lookup (Ts.cache_name name) (Ts.own x) = None ->
        Ts.vector_getter id x name e len abs s
        = Some (Ok (Ts.Own (Ts.OTypedArray ta), s')) ->
        ta_type ta = arrayType e /\ ta_length ta = len)
  /\ (forall name e len fo buffer baseOffset h pr h',
        Js.bind_field (Js.vector name e len fo) buffer baseOffset h = Ok (pr, h') ->
        exists ta, pr = Js.PVector ta len
                   /\ ta_type ta = arrayType e /\ ta_length ta = len).
Proof.
  split; [|split; [|split; [|split]]].
  - reflexivity.
  - reflexivity.
  - intros. simpl. rewrite repeat_length. reflexivity.
  - intros id x name e len abs s ta s' Hc H. unfold Ts.vector_getter in H.
    destruct (Ts.hasOwnProperty x s) as [[[]|?]|]; try discriminate.
    rewrite Hc in H.
    destruct (lookup "buffer" (Ts.own x)) as [[b| | | | |]|]; try discriminate.
    destruct (lookup "baseOffset" (Ts.own x)) as [[|base| | | |]|]; try discriminate.
    unfold new_TypedArray in H.
    destruct (to_index (nadd base abs)) as [off|]; simpl in H; [|discriminate].
    destruct (negb _); [discriminate|].
    destruct (_ <? _); [discriminate|].
    simpl in H. inversion H; subst. split; reflexivity.
  - intros name e len fo buffer baseOffset h pr h' H. simpl in H.
    unfold new_TypedArray in H.
    destruct (to_index (Int (baseOffset + fo))) as [off|]; simpl in H; [|discriminate].
    destruct (negb _); [discriminate|].
    destruct (_ <? _); [discriminate|].
    simpl in H. inversion H; subst. eexists; repeat split.
Qed.

(** * Bytes: little-endian codec and splicing *)

Lemma le_bytes_length (n : nat) (v : Z) : List.length (le_bytes n v) = n.
Proof. revert v; induction n; intros v; simpl; auto. Qed.

Lemma le_value_le_bytes (n : nat) (v : Z) :
  le_value (le_bytes n v) = v mod 2 ^ (8 * Z.of_nat n).
Proof.
  revert v; induction n as [|n IH]; intros v.
  - simpl. rewrite Z.mod_1_r. reflexivity.
  - cbn [le_bytes le_value]. rewrite IH.
    replace (8 * Z.of_nat (S n)) with (8 + 8 * Z.of_nat n) by lia.
    rewrite Z.pow_add_r by lia. change (2 ^ 8) with 256.
    rewrite (Z.rem_mul_r v 256 (2 ^ (8 * Z.of_nat n))) by lia.
    reflexivity.
Qed.

Lemma le_roundtrip (n : nat) (v : Z) :
  0 <= v < 2 ^ (8 * Z.of_nat n) -> le_value (le_bytes n v) = v.
Proof. intros H. rewrite le_value_le_bytes. apply Z.mod_small; assumption. Qed.

Lemma splice_length (buf : ArrayBuffer) (off : nat) (bs : list Z) :
  (off + List.length bs <= List.length buf)%nat ->
  List.length (splice buf off bs) = List.length buf.
Proof.
  intros H. unfold splice.
  rewrite !length_app, length_firstn, length_skipn. lia.
Qed.

Lemma slice_splice_same (buf : ArrayBuffer) (off : nat) (bs : list Z) :
  (off + List.length bs <= List.length buf)%nat ->
  slice (splice buf off bs) off (List.length bs) = bs.
Proof.
  intros H. unfold slice, splice.
  rewrite skipn_app, length_firstn.
  replace (Nat.min off (List.length buf)) with off by lia.
  rewrite Nat.sub_diag. simpl.
  rewrite skipn_all2 by (rewrite length_firstn; lia). simpl.
  rewrite firstn_app, Nat.sub_diag. simpl.
  rewrite firstn_all. apply app_nil_r.
Qed.

(** Bytes outside the spliced range keep their value. *)
Lemma splice_nth_outside (buf : ArrayBuffer) (off : nat) (bs : list Z) (k : nat) :
  (off + List.length bs <= List.length buf)%nat ->
  (k < off \/ off + List.length bs <= k)%nat ->
  nth k (splice buf off bs) 0 = nth k buf 0.
Proof.
  intros Hfit Hk. unfold splice.
  destruct Hk as [Hk|Hk].
  - rewrite app_nth1 by (rewrite length_firstn; lia).
    rewrite nth_firstn. destruct (Nat.ltb_spec k off); [reflexivity|lia].
  - rewrite app_nth2 by (rewrite length_firstn; lia).
    rewrite length_firstn.
    replace (Nat.min off (List.length buf)) with off by lia.
    rewrite app_nth2 by lia.
    rewrite nth_skipn. f_equal. lia.
Qed.

(** * The conversions produce patterns of the element width *)

Lemma round_half_even_nonneg (n d : Z) :
  0 <= n -> 0 < d -> 0 <= round_half_even n d.
Proof.
  intros Hn Hd. unfold round_half_even.
  assert (0 <= n / d) by (apply Z.div_pos; lia).
  destruct (_ <? _); [lia|].
  destruct (_ <? _); [lia|].
  destruct (Z.even _); lia.
Qed.

Lemma ieee_bits_pos_range (ebits mbits n d : Z) :
  0 < ebits -> 0 <= mbits -> 0 < n -> 0 < d ->
  0 <= ieee_bits_pos ebits mbits n d <= (2 ^ ebits - 1) * 2 ^ mbits.
Proof.
  intros He Hm Hn Hd. unfold ieee_bits_pos.
  set (bias := 2 ^ (ebits - 1) - 1).
  set (e0 := Z.log2 n - Z.log2 d).
  set (e := if _ <? _ then e0 - 1 else e0).
  set (e' := Z.max e (1 - bias)).
  set (sh := mbits - e').
  set (m := round_half_even _ _).
  assert (Hp : 0 < 2 ^ mbits) by (apply Z.pow_pos_nonneg; lia).
  assert (Hq : 1 <= 2 ^ ebits)
    by (assert (0 < 2 ^ ebits) by (apply Z.pow_pos_nonneg; lia); lia).
  assert (0 <= m).
  { apply round_half_even_nonneg.
    - apply Z.mul_nonneg_nonneg; [lia|]. apply Z.pow_nonneg; lia.
    - apply Z.mul_pos_pos; [lia|]. apply Z.pow_pos_nonneg; lia. }
  assert (0 <= e' + bias - 1) by (unfold e'; lia).
  assert (0 <= (e' + bias - 1) * 2 ^ mbits) by (apply Z.mul_nonneg_nonneg; lia).
  assert (0 <= (2 ^ ebits - 1) * 2 ^ mbits) by (apply Z.mul_nonneg_nonneg; lia).
  split; [apply Z.min_glb; lia | apply Z.le_min_r].
Qed.

Lemma ieee_bits_range (ebits mbits : Z) (v : jsvalue) (b : Z) :
  0 < ebits -> 0 < mbits ->
  ieee_bits ebits mbits v = Ok b -> 0 <= b < 2 ^ (1 + ebits + mbits).
Proof.
  intros He Hm H.
  assert (Hp : 0 < 2 ^ mbits) by (apply Z.pow_pos_nonneg; lia).
  assert (Hq : 1 <= 2 ^ ebits)
    by (assert (0 < 2 ^ ebits) by (apply Z.pow_pos_nonneg; lia); lia).
  assert (Hh : 0 < 2 ^ (mbits - 1)) by (apply Z.pow_pos_nonneg; lia).
  assert (Hhalf : 2 ^ mbits = 2 * 2 ^ (mbits - 1)).
  { replace mbits with (1 + (mbits - 1)) at 1 by lia.
    rewrite Z.pow_add_r by lia. reflexivity. }
  assert (Hem : 2 ^ (ebits + mbits) = 2 ^ ebits * 2 ^ mbits)
    by (apply Z.pow_add_r; lia).
  assert (Htop : 2 ^ (1 + ebits + mbits) = 2 * 2 ^ (ebits + mbits)).
  { replace (1 + ebits + mbits) with (1 + (ebits + mbits)) by lia.
    rewrite Z.pow_add_r by lia. reflexivity. }
  assert (Hinf : 0 <= (2 ^ ebits - 1) * 2 ^ mbits < 2 ^ (ebits + mbits)) by nia.
  unfold ieee_bits in H.
  destruct v as [ | q | | s | z ]; try discriminate.
  - inversion H; subst. nia.
  - destruct (Qnum q) as [|n|n].
    + inversion H; subst. rewrite Htop. lia.
    + inversion H; subst.
      pose proof (ieee_bits_pos_range ebits mbits (Zpos n) (Zpos (Qden q))
                    He (Z.lt_le_incl _ _ Hm) eq_refl eq_refl).
      lia.
    + inversion H; subst.
      pose proof (ieee_bits_pos_range ebits mbits (Zpos n) (Zpos (Qden q))
                    He (Z.lt_le_incl _ _ Hm) eq_refl eq_refl).
      lia.
  - inversion H; subst. nia.
  - inversion H; subst. destruct s; lia.
Qed.

Lemma encode_range (t : ElemType) (v : jsvalue) (b : Z) :
  encode t v = Ok b -> 0 <= b < 2 ^ (8 * Z.of_nat (elem_bytes t)).
Proof.
  assert (Hu : forall bits, 0 < bits -> to_uint bits v = Ok b -> 0 <= b < 2 ^ bits).
  { intros bits Hb H. unfold to_uint in H.
    assert (0 < 2 ^ bits) by (apply Z.pow_pos_nonneg; lia).
    destruct v; inversion H; subst; try lia.
    apply Z.mod_pos_bound; assumption. }
  assert (Hg : to_biguint64 v = Ok b -> 0 <= b < 2 ^ 64).
  { unfold to_biguint64. destruct v; try discriminate.
    intros H; inversion H; subst. apply Z.mod_pos_bound. reflexivity. }
  destruct t; simpl; intros H.
  - apply (ieee_bits_range 8 23) in H; [exact H | lia | lia].
  - apply (ieee_bits_range 11 52) in H; [exact H | lia | lia].
  - apply (Hu 16); [lia | exact H].
  - apply (Hu 32); [lia | exact H].
  - exact (Hg H).
  - apply (Hu 16); [lia | exact H].
  - apply (Hu 32); [lia | exact H].
  - exact (Hg H).
Qed.

(** * DataView: a write followed by a read at the same place *)

Lemma to_index_ok (n : number) (i : Z) : to_index n = Ok i -> 0 <= i.
Proof.
  destruct n as [z|]; simpl.
  - destruct (Z.ltb_spec z 0); [discriminate|]. intros E; inversion E; lia.
  - intros E; inversion E; lia.
Qed.

Lemma elem_bytes_Z (t : ElemType) : Z.of_nat (elem_bytes t) = BYTES_PER_ELEMENT t.
Proof. destruct t; reflexivity. Qed.

Lemma DataView_set_get (t : ElemType) (buf buf' : ArrayBuffer)
    (off : number) (v : jsvalue) :
  DataView_set t buf off v = Ok buf' ->
  exists b, encode t v = Ok b
            /\ DataView_get t buf' off = Ok (decode t b)
            /\ List.length buf' = List.length buf
            /\ (0 < List.length buf)%nat.
Proof.
  unfold DataView_set, DataView_get. intros H.
  destruct (to_index off) as [i|] eqn:Hi; simpl in *; [|discriminate].
  apply to_index_ok in Hi.
  destruct (encode t v) as [b|] eqn:Hb; simpl in *; [|discriminate].
  destruct (Z.ltb_spec (Z.of_nat (List.length buf)) (i + BYTES_PER_ELEMENT t))
    as [Hlt|Hge]; [discriminate|].
  inversion H; subst buf'. clear H.
  pose proof (elem_bytes_Z t) as Hz.
  assert (Hfit : (Z.to_nat i + List.length (le_bytes (elem_bytes t) b)
                  <= List.length buf)%nat)
    by (rewrite le_bytes_length; lia).
  exists b. rewrite splice_length by assumption.
  destruct (Z.ltb_spec (Z.of_nat (List.length buf)) (i + BYTES_PER_ELEMENT t))
    as [Hlt|_]; [lia|].
  repeat split.
  - rewrite <- (le_bytes_length (elem_bytes t) b) at 2.
    rewrite slice_splice_same by assumption.
    rewrite le_roundtrip by (apply encode_range with (v := v); assumption).
    reflexivity.
  - destruct t; simpl in *; lia.
Qed.

(** When it does not throw, the write is the splice of the converted
    bytes. *)
Lemma DataView_set_ok (t : ElemType) (buf : ArrayBuffer) (i : Z) (v : jsvalue)
    (b : Z) :
  0 <= i -> i + BYTES_PER_ELEMENT t <= Z.of_nat (List.length buf) ->
  encode t v = Ok b ->
  DataView_set t buf (Int i) v
  = Ok (splice buf (Z.to_nat i) (le_bytes (elem_bytes t) b)).
Proof.
  intros H0 H1 Hb. unfold DataView_set, to_index.
  destruct (Z.ltb_spec i 0); [lia|]. simpl. rewrite Hb. simpl.
  destruct (Z.ltb_spec (Z.of_nat (List.length buf)) (i + BYTES_PER_ELEMENT t));
    [lia | reflexivity].
Qed.

Lemma nth_set_buffer_same (h : Heap) (b : nat) (buf : ArrayBuffer) :
  (b < List.length (buffers h))%nat ->
  nth b (buffers (set_buffer h b buf)) [] = buf.
Proof.
  intros H. unfold set_buffer. cbn [buffers].
  rewrite app_nth2 by (rewrite length_firstn; lia).
  rewrite length_firstn.
  replace (b - Nat.min b (List.length (buffers h)))%nat with 0%nat by lia.
  reflexivity.
Qed.

Lemma nth_set_buffer_other (h : Heap) (b b' : nat) (buf : ArrayBuffer) :
  (b < List.length (buffers h))%nat -> b' <> b ->
  nth b' (buffers (set_buffer h b buf)) [] = nth b' (buffers h) [].
Proof.
  intros H Hne. unfold set_buffer. cbn [buffers].
  destruct (Nat.ltb_spec b' b).
  - rewrite app_nth1 by (rewrite length_firstn; lia).
    rewrite nth_firstn. destruct (Nat.ltb_spec b' b); [reflexivity|lia].
  - rewrite app_nth2 by (rewrite length_firstn; lia).
    rewrite length_firstn.
    replace (Nat.min b (List.length (buffers h))) with b by lia.
    destruct (b' - b)%nat as [|k] eqn:Hk; [lia|]. cbn [nth].
    rewrite nth_skipn. f_equal. lia.
Qed.

Lemma nth_nonempty_in_range {A} (l : list (list A)) (b : nat) :
  (0 < List.length (nth b l []))%nat -> (b < List.length l)%nat.
Proof.
  intros H. destruct (Nat.ltb_spec b (List.length l)); [assumption|].
  rewrite nth_overflow in H by assumption. simpl in H. lia.
Qed.

(** * Scalar fields: write then read *)



Lemma ts_uint_store_created :
  Ts.struct [("u", Ts.uint)] Ts.empty_store
  = Ok (Ts.DStruct (Int 4) [Ts.scalar "u" (Ts.p uint32) (Int 0)], Ts.empty_store)
  /\ Ts.create (Ts.DStruct (Int 4) [Ts.scalar "u" (Ts.p uint32) (Int 0)])
       Ts.empty_store
     = Ok (Ts.OInstance 0, ts_uint_store).
Proof. split; reflexivity. Qed.




(** * Typed arrays: element stores and their frame *)

Lemma BYTES_PER_ELEMENT_pos (t : ElemType) : 0 < BYTES_PER_ELEMENT t.
Proof. destruct t; reflexivity. Qed.

Lemma set_buffer_length (h : Heap) (b : nat) (buf : ArrayBuffer) :
  (b < List.length (buffers h))%nat ->
  List.length (buffers (set_buffer h b buf)) = List.length (buffers h).
Proof.
  intros H. unfold set_buffer. cbn [buffers].
  rewrite length_app, length_firstn. cbn [List.length].
  rewrite length_skipn. lia.
Qed.

Lemma new_TypedArray_valid (t : ElemType) (b : nat) (off : number) (len : Z)
    (h h' : Heap) (ta : TypedArray) :
  0 <= len -> (b < List.length (buffers h))%nat ->
  new_TypedArray t b off len h = Ok (ta, h') ->
  valid_window h' ta /\ buffers h' = buffers h /\ fresh h' = S (fresh h)
  /\ ta_id ta = fresh h /\ ta_type ta = t /\ ta_buffer ta = b /\ ta_length ta = len.
Proof.
  intros Hlen Hb H. unfold new_TypedArray in H.
  destruct (to_index off) as [o|] eqn:Ho; simpl in H; [|discriminate].
  apply to_index_ok in Ho.
  destruct (negb _); [discriminate|].
  destruct (Z.ltb_spec (byteLength h b) (o + len * BYTES_PER_ELEMENT t));
    [discriminate|].
  inversion H; subst. unfold valid_window, byteLength in *. simpl.
  repeat split; auto.
Qed.

Lemma TypedArray_set_frame (ta : TypedArray) (i : Z) (v : jsvalue) (h h' : Heap) :
  valid_window h ta ->
  TypedArray_set ta i v h = Ok h' ->
  valid_window h' ta
  /\ fresh h' = fresh h
  /\ List.length (buffers h') = List.length (buffers h)
  /\ (forall b, byteLength h' b = byteLength h b)
  /\ (forall b k, b <> ta_buffer ta -> byte_at h' b k = byte_at h b k)
  /\ (forall k, 0 <= k -> k < elem_start ta i \/ elem_start ta (i + 1) <= k ->
        byte_at h' (ta_buffer ta) k = byte_at h (ta_buffer ta) k).
Proof.
  intros (Hoff & Hlen & Hfit & Hb) H. unfold TypedArray_set in H.
  destruct (encode (ta_type ta) v) as [bits|]; simpl in H; [|discriminate].
  destruct (Z.leb_spec 0 i); cbn [andb] in H;
    [destruct (Z.ltb_spec i (ta_length ta))|];
    try (inversion H; subst; unfold valid_window; repeat split; auto; fail).
  inversion H; subst h'. clear H.
  pose proof (BYTES_PER_ELEMENT_pos (ta_type ta)) as Hsz.
  pose proof (elem_bytes_Z (ta_type ta)) as Hz.
  unfold byteLength in Hfit.
  set (buf := nth (ta_buffer ta) (buffers h) []) in *.
  set (start := ta_byteOffset ta + i * BYTES_PER_ELEMENT (ta_type ta)).
  assert (Hs0 : 0 <= start) by (unfold start; nia).
  assert (Hin : (Z.to_nat start + List.length (le_bytes (elem_bytes (ta_type ta)) bits)
                 <= List.length buf)%nat).
  { rewrite le_bytes_length. unfold start. nia. }
  assert (Hbl : forall b,
            byteLength (set_buffer h (ta_buffer ta)
                          (splice buf (Z.to_nat start)
                             (le_bytes (elem_bytes (ta_type ta)) bits))) b
            = byteLength h b).
  { intros b. unfold byteLength.
    destruct (Nat.eq_dec b (ta_buffer ta)) as [->|Hne].
    - rewrite nth_set_buffer_same by assumption.
      rewrite splice_length by assumption. reflexivity.
    - rewrite nth_set_buffer_other by assumption. reflexivity. }
  split; [|split; [|split; [|split; [|split]]]].
  - unfold valid_window. rewrite Hbl, set_buffer_length by assumption.
    unfold byteLength. fold buf. auto.
  - reflexivity.
  - apply set_buffer_length; assumption.
  - exact Hbl.
  - intros b k Hne. unfold byte_at.
    rewrite nth_set_buffer_other by assumption. reflexivity.
  - intros k Hk Hout. unfold byte_at.
    rewrite nth_set_buffer_same by assumption. fold buf.
    apply splice_nth_outside; [assumption|].
    rewrite le_bytes_length. unfold elem_start in Hout. fold start in Hout.
    destruct Hout as [Hlt|Hge]; [left; lia|right].
    replace (ta_byteOffset ta + (i + 1) * BYTES_PER_ELEMENT (ta_type ta))
      with (start + BYTES_PER_ELEMENT (ta_type ta)) in Hge by (unfold start; lia).
    lia.
Qed.

Lemma slice_ext (buf buf' : ArrayBuffer) (off len : nat) :
  List.length buf = List.length buf' ->
  (forall k, (off <= k < off + len)%nat -> nth k buf 0 = nth k buf' 0) ->
  slice buf off len = slice buf' off len.
Proof.
  intros Hl Hk. unfold slice.
  apply nth_ext with (d := 0) (d' := 0).
  - rewrite !length_firstn, !length_skipn, Hl. reflexivity.
  - intros n Hn. rewrite length_firstn in Hn.
    rewrite !nth_firstn.
    destruct (Nat.ltb_spec n len); [|reflexivity].
    rewrite !nth_skipn. apply Hk. lia.
Qed.

Lemma TypedArray_get_ext (h h' : Heap) (ta : TypedArray) (j : Z) :
  0 <= ta_byteOffset ta -> 0 <= j ->
  byteLength h' (ta_buffer ta) = byteLength h (ta_buffer ta) ->
  (forall k, elem_start ta j <= k < elem_start ta (j + 1) ->
     byte_at h' (ta_buffer ta) k = byte_at h (ta_buffer ta) k) ->
  TypedArray_get ta j h' = TypedArray_get ta j h.
Proof.
  intros Hoff Hj Hl Hk. unfold TypedArray_get.
  destruct ((0 <=? j) && (j <? ta_length ta)); [|reflexivity].
  f_equal. f_equal.
  pose proof (BYTES_PER_ELEMENT_pos (ta_type ta)) as Hsz.
  pose proof (elem_bytes_Z (ta_type ta)) as Hz.
  apply slice_ext.
  - unfold byteLength in Hl. lia.
  - intros k Hr. specialize (Hk (Z.of_nat k)). unfold byte_at in Hk.
    rewrite Nat2Z.id in Hk. apply Hk. unfold elem_start. nia.
Qed.

Lemma TypedArray_set_elem (ta : TypedArray) (i : Z) (v : jsvalue) (h h' : Heap) :
  valid_window h ta -> 0 <= i < ta_length ta ->
  TypedArray_set ta i v h = Ok h' ->
  exists bits, encode (ta_type ta) v = Ok bits
               /\ TypedArray_get ta i h' = decode (ta_type ta) bits.
Proof.
  intros (Hoff & Hlen & Hfit & Hb) Hi H.
  unfold TypedArray_set in H. unfold TypedArray_get.
  destruct (encode (ta_type ta) v) as [bits|] eqn:He; simpl in H; [|discriminate].
  destruct (Z.leb_spec 0 i); [|lia]. destruct (Z.ltb_spec i (ta_length ta)); [|lia].
  cbn [andb] in *. inversion H; subst h'. clear H.
  exists bits. split; [reflexivity|].
  pose proof (BYTES_PER_ELEMENT_pos (ta_type ta)) as Hsz.
  pose proof (elem_bytes_Z (ta_type ta)) as Hz.
  unfold byteLength in Hfit.
  rewrite nth_set_buffer_same by assumption.
  rewrite <- (le_bytes_length (elem_bytes (ta_type ta)) bits) at 2.
  rewrite slice_splice_same by (rewrite le_bytes_length; nia).
  rewrite le_roundtrip by (apply encode_range with (v := v); assumption).
  reflexivity.
Qed.

(** The copy loop of a vector setter touches only the elements it
    assigns, and leaves in each the conversion of the source element. *)
Lemma copy_into_frame (ta : TypedArray) (arr : list jsvalue) (n : nat) :
  forall (i : nat) (h h' : Heap),
  valid_window h ta ->
  copy_into ta arr n i h = Ok h' ->
  valid_window h' ta
  /\ fresh h' = fresh h
  /\ List.length (buffers h') = List.length (buffers h)
  /\ (forall b, byteLength h' b = byteLength h b)
  /\ (forall b k, b <> ta_buffer ta -> byte_at h' b k = byte_at h b k)
  /\ (forall k, 0 <= k ->
        k < elem_start ta (Z.of_nat i) \/ elem_start ta (Z.of_nat (i + n)) <= k ->
        byte_at h' (ta_buffer ta) k = byte_at h (ta_buffer ta) k)
  /\ (forall j, (i <= j < i + n)%nat -> Z.of_nat j < ta_length ta ->
        exists bits, encode (ta_type ta) (index arr j) = Ok bits
                     /\ TypedArray_get ta (Z.of_nat j) h' = decode (ta_type ta) bits).
Proof.
  induction n as [|n IH]; intros i h h' Hv H.
  - simpl in H. inversion H; subst.
    do 6 (split; [auto|]). intros j Hj. lia.
  - simpl in H.
    destruct (TypedArray_set ta (Z.of_nat i) (index arr i) h) as [h1|] eqn:Hs;
      simpl in H; [|discriminate].
    destruct (TypedArray_set_frame _ _ _ _ _ Hv Hs) as (Hv1 & Hf1 & Hl1 & Hb1 & Ho1 & Hk1).
    destruct (IH _ _ _ Hv1 H) as (Hv2 & Hf2 & Hl2 & Hb2 & Ho2 & Hk2 & He2).
    pose proof (BYTES_PER_ELEMENT_pos (ta_type ta)) as Hsz.
    split; [assumption|]. split; [congruence|]. split; [congruence|].
    split; [intros b; rewrite Hb2; apply Hb1|].
    split; [intros b k Hne; rewrite Ho2 by assumption; apply Ho1; assumption|].
    split.
    + intros k Hk Hout. unfold elem_start in *.
      rewrite Hk2; [apply Hk1; [assumption|]|assumption|]; nia.
    + intros j Hj Hlt.
      destruct (Nat.eq_dec j i) as [->|Hne].
      * assert (Hi : 0 <= Z.of_nat i < ta_length ta) by lia.
        destruct (TypedArray_set_elem _ _ _ _ _ Hv Hi Hs) as (bits & He & Hg).
        exists bits. split; [assumption|]. rewrite <- Hg.
        destruct Hv as (Hoff & _).
        apply TypedArray_get_ext; [assumption|lia|apply Hb2|].
        intros k Hr. apply Hk2; unfold elem_start in *; nia.
      * apply He2; [lia|assumption].
Qed.


(** * The array of three items of the test file *)

Lemma ts_items_created :
  Ts.create (Ts.DArray ts_Item 3) Ts.empty_store
  = Ok (Ts.OArray [Ts.OInstance 0; Ts.OInstance 1; Ts.OInstance 2] 0,
        ts_items_store).
Proof. reflexivity. Qed.


Lemma ts_items_window1_valid :
  valid_window (mkHeap (buffers (Ts.heap ts_items_store)) 4) ts_items_window1.
Proof.
  unfold valid_window, byteLength. simpl. repeat split; lia.
Qed.




(** * Own properties and the instance table *)


Lemma lookup_put_other {A} (k k' : string) (a : A) (l : list (string * A)) :
  k' <> k -> lookup k' (Ts.put k a l) = lookup k' l.
Proof.
  intros Hne. induction l as [|[n x] l IH]; simpl.
  - destruct (String.eqb k k') eqn:E; [apply String.eqb_eq in E; congruence|].
    reflexivity.
  - destruct (String.eqb n k) eqn:E; simpl.
    + apply String.eqb_eq in E. subst n.
      destruct (String.eqb k k') eqn:E'; [apply String.eqb_eq in E'; congruence|].
      reflexivity.
    + destruct (String.eqb n k'); auto.
Qed.

Lemma find_update_same (id : nat) (f : Ts.Instance -> Ts.Instance)
    (l : list (nat * Ts.Instance)) (x : Ts.Instance) :
  Ts.find_instance id l = Some x ->
  Ts.find_instance id (Ts.update_instance id f l) = Some (f x).
Proof.
  induction l as [|[i y] l IH]; simpl; [discriminate|].
  destruct (Nat.eqb i id) eqn:E; simpl; rewrite E.
  - intros H; inversion H; reflexivity.
  - exact IH.
Qed.

Lemma find_update_other (id id' : nat) (f : Ts.Instance -> Ts.Instance)
    (l : list (nat * Ts.Instance)) :
  id' <> id ->
  Ts.find_instance id' (Ts.update_instance id f l) = Ts.find_instance id' l.
Proof.
  intros Hne. induction l as [|[i y] l IH]; simpl; [reflexivity|].
  destruct (Nat.eqb i id) eqn:E; simpl.
  - apply Nat.eqb_eq in E. subst i.
    destruct (Nat.eqb id id') eqn:E'; [apply Nat.eqb_eq in E'; congruence|].
    reflexivity.
  - destruct (Nat.eqb i id'); auto.
Qed.


(** * Vector fields: the cached window *)











(** A read of a vector field never returns when a field of the schema is
    named hasOwnProperty: the getter calls what it finds under that name. *)
Lemma ts_field_named_hasOwnProperty :
  exists d s s1,
    Ts.struct [("hasOwnProperty", Ts.uint); ("v", Ts.float3)] Ts.empty_store
    = Ok (d, s)
    /\ Ts.create d s = Ok (Ts.OInstance 0, s1)
    /\ Ts.get s1 0%nat "v" = Some (Throw TypeError)
    /\ Ts.set_vector s1 0%nat "v" [Num 1; Num 2; Num 3] = Some (Throw TypeError).
Proof. do 3 eexists. repeat split; vm_compute; reflexivity. Qed.



(** * Induction over descriptors *)

Section TsDescriptorInduction.
Variable P : Ts.Descriptor -> Prop.
Variable Q : Ts.FieldDescriptor -> Prop.
Hypothesis HStruct : forall size fields, Forall Q fields -> P (Ts.DStruct size fields).
Hypothesis HArray : forall d len, P d -> P (Ts.DArray d len).
Hypothesis Hscalar : forall name desc offset, Q (Ts.scalar name desc offset).
Hypothesis Hvector : forall name elem len offset, Q (Ts.vector name elem len offset).
Hypothesis Hstruct : forall name d offset, P d -> Q (Ts.struct_ name d offset).
Hypothesis Harray : forall name d len offset, P d -> Q (Ts.array_ name d len offset).

Fixpoint ts_descriptor_ind (d : Ts.Descriptor) : P d :=
  match d with
  | Ts.DStruct size fields =>
      HStruct size fields
        ((fix all (fs : list Ts.FieldDescriptor) : Forall Q fs :=
            match fs with
            | [] => Forall_nil Q
            | f :: fs' => Forall_cons f (ts_field_ind f) (all fs')
            end) fields)
  | Ts.DArray d' len => HArray d' len (ts_descriptor_ind d')
  end
with ts_field_ind (f : Ts.FieldDescriptor) : Q f :=
  match f with
  | Ts.scalar name desc offset => Hscalar name desc offset
  | Ts.vector name elem len offset => Hvector name elem len offset
  | Ts.struct_ name d offset => Hstruct name d offset (ts_descriptor_ind d)
  | Ts.array_ name d len offset => Harray name d len offset (ts_descriptor_ind d)
  end.
End TsDescriptorInduction.

Section JsDescriptorInduction.
Variable P : Js.StructDescriptor -> Prop.
Variable Q : Js.FieldDescriptor -> Prop.
Hypothesis HStruct : forall size fields, Forall Q fields -> P (Js.mkStruct size fields).
Hypothesis Hscalar : forall name desc offset, Q (Js.scalar name desc offset).
Hypothesis Hvector : forall name elem len offset, Q (Js.vector name elem len offset).
Hypothesis Hstruct : forall name d offset, P d -> Q (Js.struct_ name d offset).
Hypothesis Harray : forall name d len offset, P d -> Q (Js.array_ name d len offset).

Fixpoint js_descriptor_ind (d : Js.StructDescriptor) : P d :=
  match d with
  | Js.mkStruct size fields =>
      HStruct size fields
        ((fix all (fs : list Js.FieldDescriptor) : Forall Q fs :=
            match fs with
            | [] => Forall_nil Q
            | f :: fs' => Forall_cons f (js_field_ind f) (all fs')
            end) fields)
  end
with js_field_ind (f : Js.FieldDescriptor) : Q f :=
  match f with
  | Js.scalar name desc offset => Hscalar name desc offset
  | Js.vector name elem len offset => Hvector name elem len offset
  | Js.struct_ name d offset => Hstruct name d offset (js_descriptor_ind d)
  | Js.array_ name d len offset => Harray name d len offset (js_descriptor_ind d)
  end.
End JsDescriptorInduction.

(** * Loops preserve what each step preserves *)


Lemma for_each_invariant {F S} (step : F -> S -> result S)
    (R : S -> S -> Prop) (fs : list F) :
  (forall s, R s s) ->
  (forall s1 s2 s3, R s1 s2 -> R s2 s3 -> R s1 s3) ->
  Forall (fun f => forall s s', step f s = Ok s' -> R s s') fs ->
  forall s s', for_each step fs s = Ok s' -> R s s'.
Proof.
  intros Hrefl Htrans Hall. induction Hall as [|f fs Hf Hfs IH]; intros s s' H.
  - simpl in H. inversion H; subst. auto.
  - simpl in H.
    destruct (step f s) as [s1|] eqn:Hs; simpl in H; [|discriminate].
    eapply Htrans; [eapply Hf; eassumption|eapply IH; eassumption].
Qed.

Lemma for_index_invariant {V S} (make : Z -> S -> result (V * S))
    (R : S -> S -> Prop) (G : V -> Prop) :
  (forall s, R s s) ->
  (forall s1 s2 s3, R s1 s2 -> R s2 s3 -> R s1 s3) ->
  (forall i s x s', make i s = Ok (x, s') -> R s s' /\ G x) ->
  forall n i s xs s',
  for_index make n i s = Ok (xs, s') ->
  R s s' /\ Forall G xs /\ List.length xs = n.
Proof.
  intros Hrefl Htrans Hmk. induction n as [|n IH]; intros i s xs s' H.
  - simpl in H. inversion H; subst. auto.
  - simpl in H.
    destruct (make i s) as [[x s1]|] eqn:Hs; simpl in H; [|discriminate].
    destruct (for_index make n (i + 1) s1) as [[xs' s2]|] eqn:Hr; simpl in H;
      [|discriminate].
    inversion H; subst.
    destruct (Hmk _ _ _ _ Hs) as (R1 & G1). destruct (IH _ _ _ _ Hr) as (R2 & G2 & L).
    split; [eapply Htrans; eassumption|].
    split; [constructor; assumption|simpl; congruence].
Qed.

Lemma for_each_collect_state {F P S} (step : F -> S -> result (P * S))
    (I : S -> Prop) (G : P -> Prop) (fs : list F) :
  Forall (fun f => forall s p s', I s -> step f s = Ok (p, s') -> I s' /\ G p) fs ->
  forall s ps s',
  I s -> for_each_collect step fs s = Ok (ps, s') -> I s' /\ Forall G ps.
Proof.
  induction 1 as [|f fs Hf _ IH]; intros s ps s' Hi H.
  - simpl in H. inversion H; subst. auto.
  - simpl in H.
    destruct (step f s) as [[p s1]|] eqn:Hs; simpl in H; [|discriminate].
    destruct (for_each_collect step fs s1) as [[ps' s2]|] eqn:Hr; simpl in H;
      [|discriminate].
    inversion H; subst.
    destruct (Hf _ _ _ Hi Hs) as (I1 & G1). destruct (IH _ _ _ I1 Hr) as (I2 & G2).
    auto.
Qed.

Lemma for_index_state {V S} (make : Z -> S -> result (V * S))
    (I : S -> Prop) (G : V -> Prop) :
  (forall i s x s', I s -> make i s = Ok (x, s') -> I s' /\ G x) ->
  forall n i s xs s',
  I s -> for_index make n i s = Ok (xs, s') -> I s' /\ Forall G xs.
Proof.
  intros Hm. induction n as [|n IH]; intros i s xs s' Hi H.
  - simpl in H. inversion H; subst. auto.
  - simpl in H.
    destruct (make i s) as [[x s1]|] eqn:Hs; simpl in H; [|discriminate].
    destruct (for_index make n (i + 1) s1) as [[xs' s2]|] eqn:Hr; simpl in H;
      [|discriminate].
    inversion H; subst.
    destruct (Hm _ _ _ _ Hi Hs) as (I1 & G1). destruct (IH _ _ _ _ I1 Hr) as (I2 & G2).
    auto.
Qed.

Lemma for_each_state {F St} (step : F -> St -> result St) (I : St -> Prop)
    (fs : list F) :
  Forall (fun f => forall s s', I s -> step f s = Ok s' -> I s') fs ->
  forall s s', I s -> for_each step fs s = Ok s' -> I s'.
Proof.
  induction 1 as [|f fs Hf _ IH]; intros s s' Hi H.
  - simpl in H. inversion H; subst. assumption.
  - simpl in H. destruct (step f s) as [s1|] eqn:Hs; simpl in H; [|discriminate].
    eapply IH; [eapply Hf; eassumption|eassumption].
Qed.

(** * index.js: one buffer for the whole tree of views *)


Lemma remove_prop_In {A} (name : string) (props : list (string * A)) (p : string * A) :
  In p (Js.remove_prop name props) -> In p props.
Proof.
  induction props as [|[n a] rest IH]; simpl; [auto|].
  destruct (String.eqb n name); simpl; intuition.
Qed.

Lemma define_buffer_In (props props' : list (string * Js.Property)) p :
  Js.define_buffer props = Ok props' -> In p props' -> In p props.
Proof.
  unfold Js.define_buffer.
  destruct (lookup "buffer" props) as [[| | |]|]; intros H; inversion H; subst;
    auto; apply remove_prop_In.
Qed.



(** * index.ts: one buffer for all instances of a root create *)

Lemma ts_refs_array (b b' : nat) (items : list Ts.OwnValue) :
  ts_refs b (Ts.OArray items b') <-> b' = b /\ Forall (ts_refs b) items.
Proof.
  simpl. split; intros [H1 H2]; split; auto.
  - induction items as [|x r IH]; constructor; destruct H2; auto.
  - induction H2; simpl; auto.
Qed.

Lemma ts_step_refl (k b : nat) (s : Ts.Store) : ts_step k b s s.
Proof. intros Hk Hi. auto. Qed.

Lemma ts_step_trans (k b : nat) (s1 s2 s3 : Ts.Store) :
  ts_step k b s1 s2 -> ts_step k b s2 s3 -> ts_step k b s1 s3.
Proof.
  intros H12 H23 Hk Hi.
  destruct (H12 Hk Hi) as (I2 & B2 & F2 & O2).
  destruct (H23 ltac:(lia) I2) as (I3 & B3 & F3 & O3).
  split; [assumption|]. split; [congruence|]. split; [lia|].
  intros id Hid. rewrite O3, O2 by assumption. reflexivity.
Qed.

Lemma find_instance_app (id : nat) (l : list (nat * Ts.Instance)) (x : Ts.Instance) :
  Ts.find_instance id (l ++ [(id, x)])
  = match Ts.find_instance id l with Some y => Some y | None => Some x end.
Proof.
  induction l as [|[i y] l IH]; simpl.
  - rewrite Nat.eqb_refl. reflexivity.
  - destruct (Nat.eqb i id); auto.
Qed.

Lemma find_instance_app_other (id id' : nat) (l : list (nat * Ts.Instance))
    (x : Ts.Instance) :
  id' <> id ->
  Ts.find_instance id' (l ++ [(id, x)]) = Ts.find_instance id' l.
Proof.
  intros Hne. induction l as [|[i y] l IH]; simpl.
  - destruct (Nat.eqb id id') eqn:E; [apply Nat.eqb_eq in E; congruence|reflexivity].
  - destruct (Nat.eqb i id'); auto.
Qed.

Lemma put_Forall {A} (P : string * A -> Prop) (name : string) (a : A)
    (l : list (string * A)) :
  (forall n, P (n, a)) -> Forall P l -> Forall P (Ts.put name a l).
Proof.
  intros Ha Hl. induction Hl as [|[n x] l Hx Hl IH]; simpl.
  - constructor; auto.
  - destruct (String.eqb n name); constructor; auto.
Qed.

Lemma find_update_instance (id id' : nat) (f : Ts.Instance -> Ts.Instance)
    (l : list (nat * Ts.Instance)) :
  Ts.find_instance id' (Ts.update_instance id f l)
  = if Nat.eqb id id' then option_map f (Ts.find_instance id' l)
    else Ts.find_instance id' l.
Proof.
  destruct (Nat.eqb id id') eqn:E.
  - apply Nat.eqb_eq in E. subst id'.
    induction l as [|[i y] l IH]; simpl; [reflexivity|].
    destruct (Nat.eqb i id) eqn:E'; simpl; rewrite E'; auto.
  - apply find_update_other. intros ->. rewrite Nat.eqb_refl in E. discriminate.
Qed.

Lemma ts_new_instance_step (k b : nat) (fields : list Ts.FieldDescriptor)
    (off : number) (s s0 : Ts.Store) (id : nat) :
  Ts.new_instance fields b off s = (id, s0) ->
  ts_step k b s s0 /\ id = fresh (Ts.heap s).
Proof.
  unfold Ts.new_instance. intros H. inversion H; subst. clear H.
  split; [|reflexivity]. intros Hk Hi. cbn [Ts.heap Ts.instances buffers fresh].
  split; [|split; [reflexivity|split; [lia|]]].
  - intros id x Hf. cbn [Ts.heap Ts.instances fresh] in *.
    destruct (Nat.eq_dec id (fresh (Ts.heap s))) as [->|Hne].
    + rewrite find_instance_app in Hf.
      destruct (Ts.find_instance (fresh (Ts.heap s)) (Ts.instances s)) as [y|] eqn:Hy.
      * destruct (Hi _ _ Hy). lia.
      * inversion Hf; subst. split; [lia|]. intros _. simpl.
        repeat constructor.
    + rewrite find_instance_app_other in Hf by assumption.
      destruct (Hi _ _ Hf). split; [lia|assumption].
  - intros id Hid. apply find_instance_app_other. lia.
Qed.

Lemma ts_set_own_step (k b id : nat) (name : string) (v : Ts.OwnValue)
    (s : Ts.Store) :
  (k <= id)%nat -> ts_refs b v -> ts_step k b s (Ts.set_own id name v s).
Proof.
  intros Hid Hv Hk Hi. unfold Ts.set_own. cbn [Ts.heap Ts.instances].
  split; [|split; [reflexivity|split; [lia|]]].
  - intros id' x Hf. cbn [Ts.heap Ts.instances] in *.
    rewrite find_update_instance in Hf.
    destruct (Nat.eqb id id') eqn:E.
    + apply Nat.eqb_eq in E. subst id'.
      destruct (Ts.find_instance id (Ts.instances s)) as [y|] eqn:Hy; [|discriminate].
      simpl in Hf. inversion Hf; subst. destruct (Hi _ _ Hy) as (Hlt & Hr).
      split; [assumption|]. intros _. simpl.
      apply put_Forall; [intros n; exact Hv|auto].
    + apply Hi. assumption.
  - intros id' Hlt. rewrite find_update_instance.
    destruct (Nat.eqb id id') eqn:E; [apply Nat.eqb_eq in E; lia|reflexivity].
Qed.

Lemma ts_create_at_step (d : Ts.Descriptor) :
  forall b off s v s',
  Ts.create_at d b off s = Ok (v, s') ->
  ts_refs b v /\ forall k, ts_step k b s s'.
Proof.
  induction d using ts_descriptor_ind with
    (Q := fun f => forall id b off s s',
            Ts.init_field f id b off s = Ok s' ->
            forall k, (k <= id)%nat -> ts_step k b s s').
  - intros b off s v s' Hc. cbn [Ts.create_at] in Hc.
    destruct (Ts.new_instance fields b off s) as [id s0] eqn:Hn.
    match type of Hc with
    | bind (for_each ?step _ _) _ = _ => set (stp := step) in *
    end.
    destruct (for_each stp fields s0) as [s1|] eqn:Hl; simpl in Hc; [|discriminate].
    inversion Hc; subst v s'. clear Hc. split; [exact I|].
    intros k Hk Hi.
    destruct (ts_new_instance_step k b _ _ _ _ _ Hn) as (Hs0 & Hid).
    assert (Hs1 : ts_step k b s0 s1).
    { apply (for_each_invariant stp (ts_step k b) fields);
        [apply ts_step_refl|apply ts_step_trans| |assumption].
      eapply Forall_impl; [|exact H]. intros f Hf x x' Hx. unfold stp in Hx.
      eapply Hf; [eassumption|lia]. }
    exact (ts_step_trans _ _ _ _ _ Hs0 Hs1 Hk Hi).
  - intros b off s v s' Hc. cbn [Ts.create_at] in Hc.
    destruct (new_Array _) as [[]|]; cbn [bind] in Hc; [|discriminate].
    match type of Hc with
    | bind (for_index ?mk _ _ _) _ = _ => set (make := mk) in *
    end.
    destruct (for_index make (Z.to_nat len) 0 s) as [[arr s1]|] eqn:Hl;
      simpl in Hc; [|discriminate].
    inversion Hc; subst v s'. clear Hc.
    assert (Hall : forall k, ts_step k b s s1 /\ Forall (ts_refs b) arr).
    { intros k.
      destruct (for_index_invariant make (ts_step k b) (ts_refs b)) with
        (n := Z.to_nat len) (i := 0) (s := s) (xs := arr) (s' := s1)
        as (A & B & _); auto using ts_step_refl.
      - apply ts_step_trans.
      - intros i x y x' Hm. unfold make in Hm.
        destruct (IHd _ _ _ _ _ Hm) as (R1 & R2). auto. }
    split; [apply ts_refs_array; split; [reflexivity|apply (Hall 0%nat)]|].
    intros k. apply Hall.
  - intros id b off s s' Hc k Hk. simpl in Hc. inversion Hc; subst. apply ts_step_refl.
  - intros id b off s s' Hc k Hk. simpl in Hc. inversion Hc; subst. apply ts_step_refl.
  - intros id b off s s' Hc k Hk. cbn [Ts.init_field] in Hc.
    destruct (Ts.create_at d b (nadd off offset) s) as [[x s1]|] eqn:Hs;
      simpl in Hc; [|discriminate].
    inversion Hc; subst s'. clear Hc.
    destruct (IHd _ _ _ _ _ Hs) as (Hx & Hstep).
    eapply ts_step_trans; [apply Hstep|apply ts_set_own_step; assumption].
  - intros id b off s s' Hc k Hk. cbn [Ts.init_field] in Hc.
    destruct (positive_integer (Ts.length_value len)) as [n|]; [|discriminate].
    destruct (new_Array _) as [[]|]; cbn [bind] in Hc; [|discriminate].
    match type of Hc with
    | bind (for_index ?mk _ _ _) _ = _ => set (make := mk) in *
    end.
    destruct (for_index make (Z.to_nat n) 0 s) as [[arr s1]|] eqn:Hl;
      simpl in Hc; [|discriminate].
    inversion Hc; subst s'. clear Hc.
    destruct (for_index_invariant make (ts_step k b) (ts_refs b)) with
      (n := Z.to_nat n) (i := 0) (s := s) (xs := arr) (s' := s1)
      as (A & B & _); auto using ts_step_refl.
    + apply ts_step_trans.
    + intros i x y x' Hm. unfold make in Hm.
      destruct (IHd _ _ _ _ _ Hm) as (R1 & R2). auto.
    + eapply ts_step_trans; [exact A|].
      apply ts_set_own_step; [assumption|].
      apply ts_refs_array. auto.
Qed.

Lemma ts_create_root (d : Ts.Descriptor) (s s' : Ts.Store) (v : Ts.OwnValue) :
  ts_wf s ->
  Ts.create d s = Ok (v, s') ->
  exists len,
    to_index (Ts.desc_size d) = Ok len
    /\ buffers (Ts.heap s') = buffers (Ts.heap s) ++ [repeat 0 (Z.to_nat len)]
    /\ Ts.create_at d (List.length (buffers (Ts.heap s))) (Int 0)
         (Ts.mkStore (mkHeap (buffers (Ts.heap s) ++ [repeat 0 (Z.to_nat len)])
                        (fresh (Ts.heap s)))
            (Ts.instances s))
       = Ok (v, s')
    /\ ts_refs (List.length (buffers (Ts.heap s))) v
    /\ ts_wf s'
    /\ (forall id x, Ts.find_instance id (Ts.instances s') = Some x ->
          (fresh (Ts.heap s) <= id)%nat ->
          Forall (fun p => ts_refs (List.length (buffers (Ts.heap s))) (snd p))
            (Ts.own x))
    /\ (forall id, (id < fresh (Ts.heap s))%nat ->
          Ts.find_instance id (Ts.instances s') = Ts.find_instance id (Ts.instances s)).
Proof.
  intros Hwf H. unfold Ts.create, new_ArrayBuffer in H.
  destruct (to_index (Ts.desc_size d)) as [len|] eqn:Hlen; simpl in H; [|discriminate].
  exists len. split; [reflexivity|].
  destruct (ts_create_at_step _ _ _ _ _ _ H) as (Hv & Hstep).
  destruct (Hstep (fresh (Ts.heap s))) as (Hi & Hb & Hf & Ho).
  { simpl. lia. }
  { intros id x Hx. simpl in *. split; [eapply Hwf; eassumption|].
    intros Hge. apply Hwf in Hx. lia. }
  cbn [Ts.heap Ts.instances buffers fresh] in *.
  split; [assumption|]. split; [assumption|]. split; [assumption|].
  split; [intros id x Hx; apply (Hi _ _ Hx)|].
  split; [intros id x Hx; apply (Hi _ _ Hx)|assumption].
Qed.




(** * The size of the default buffer *)





Lemma ts_create_at_buffers (d : Ts.Descriptor) :
  forall b off s v s',
  Ts.create_at d b off s = Ok (v, s') ->
  buffers (Ts.heap s') = buffers (Ts.heap s).
Proof.
  induction d using ts_descriptor_ind with
    (Q := fun f => forall id b off s s',
            Ts.init_field f id b off s = Ok s' ->
            buffers (Ts.heap s') = buffers (Ts.heap s)).
  - intros b off s v s' Hc. cbn [Ts.create_at] in Hc.
    destruct (Ts.new_instance fields b off s) as [id s0] eqn:Hn.
    match type of Hc with
    | bind (for_each ?step _ _) _ = _ => set (stp := step) in *
    end.
    destruct (for_each stp fields s0) as [s1|] eqn:Hl; simpl in Hc; [|discriminate].
    inversion Hc; subst v s'. clear Hc.
    transitivity (buffers (Ts.heap s0)).
    + apply (for_each_invariant stp
               (fun a a' => buffers (Ts.heap a') = buffers (Ts.heap a)) fields)
        with (s := s0); auto.
      * intros; congruence.
      * eapply Forall_impl; [|exact H]. intros f Hf a a' Ha. unfold stp in Ha.
        eapply Hf; eassumption.
    + unfold Ts.new_instance in Hn. inversion Hn; subst. reflexivity.
  - intros b off s v s' Hc. cbn [Ts.create_at] in Hc.
    destruct (new_Array _) as [[]|]; cbn [bind] in Hc; [|discriminate].
    match type of Hc with
    | bind (for_index ?mk _ _ _) _ = _ => set (make := mk) in *
    end.
    destruct (for_index make (Z.to_nat len) 0 s) as [[arr s1]|] eqn:Hl;
      simpl in Hc; [|discriminate].
    inversion Hc; subst v s'. clear Hc.
    destruct (for_index_invariant make
                (fun a a' => buffers (Ts.heap a') = buffers (Ts.heap a))
                (fun _ => True)) with
      (n := Z.to_nat len) (i := 0) (s := s) (xs := arr) (s' := s1)
      as (A & _); auto.
    + intros; congruence.
    + intros i a x a' Hm. unfold make in Hm. split; [|exact I].
      eapply IHd; eassumption.
  - intros id b off s s' Hc. simpl in Hc. inversion Hc; reflexivity.
  - intros id b off s s' Hc. simpl in Hc. inversion Hc; reflexivity.
  - intros id b off s s' Hc. cbn [Ts.init_field] in Hc.
    destruct (Ts.create_at d b (nadd off offset) s) as [[x s1]|] eqn:Hs;
      simpl in Hc; [|discriminate].
    inversion Hc; subst s'. simpl. eapply IHd; eassumption.
  - intros id b off s s' Hc. cbn [Ts.init_field] in Hc.
    destruct (positive_integer (Ts.length_value len)) as [n|]; [|discriminate].
    destruct (new_Array _) as [[]|]; cbn [bind] in Hc; [|discriminate].
    match type of Hc with
    | bind (for_index ?mk _ _ _) _ = _ => set (make := mk) in *
    end.
    destruct (for_index make (Z.to_nat n) 0 s) as [[arr s1]|] eqn:Hl;
      simpl in Hc; [|discriminate].
    inversion Hc; subst s'. simpl.
    destruct (for_index_invariant make
                (fun a a' => buffers (Ts.heap a') = buffers (Ts.heap a))
                (fun _ => True)) with
      (n := Z.to_nat n) (i := 0) (s := s) (xs := arr) (s' := s1)
      as (A & _); auto.
    + intros; congruence.
    + intros i a x a' Hm. unfold make in Hm. split; [|exact I].
      eapply IHd; eassumption.
Qed.








(** * The theorems at the schemas of the test file *)




Lemma C10_vector_from_first_element_witness :
  Ts.classify "v" (Ts.VList [Ts.p float32; Ts.p uint16; Ts.p int64]) (Int 0)
    Ts.empty_store
  = Ok (Ts.vector "v" (Ts.p float32) 3 (Int 0), Int 12, Ts.empty_store)
  /\ exists ta s',
       Ts.vector_getter 0
         (Ts.mkInstance [Ts.vector "v" (Ts.p float32) 3 (Int 0)]
            [("buffer", Ts.OBuffer 0); ("baseOffset", Ts.ONumber (Int 0));
             ("__view", Ts.ODataView 0)])
         "v" (Ts.p float32) 3 (Int 0) ts_item_store
       = Some (Ok (Ts.Own (Ts.OTypedArray ta), s'))
       /\ ta_type ta = Float32 /\ ta_length ta = 3.
Proof.
  split.
  - apply (proj1 C10_vector_from_first_element "v" (Ts.p float32)
             [Ts.p uint16; Ts.p int64] (Int 0) Ts.empty_store).
  - do 2 eexists. split; [reflexivity|].
    apply (proj1 (proj2 (proj2 (proj2 C10_vector_from_first_element)))
             0%nat
             (Ts.mkInstance [Ts.vector "v" (Ts.p float32) 3 (Int 0)]
                [("buffer", Ts.OBuffer 0); ("baseOffset", Ts.ONumber (Int 0));
                 ("__view", Ts.ODataView 0)])
             "v" (Ts.p float32) 3 (Int 0) ts_item_store _ _ eq_refl eq_refl).
Defined.

(** * Well-formed stores and the scenarios of the test file *)

Lemma ts_wf_empty : ts_wf Ts.empty_store.
Proof. intros id x H. discriminate H. Qed.

Lemma ts_classify_wf (name : string) (type : Ts.value) (offset : number)
    (s s' : Ts.Store) (f : Ts.FieldDescriptor) (offset' : number) :
  ts_wf s -> Ts.classify name type offset s = Ok (f, offset', s') -> ts_wf s'.
Proof.
  intros Hwf H. destruct type as [d | l | d | ]; simpl in H.
  - inversion H; subst; assumption.
  - destruct l as [|e l']; [discriminate|]. inversion H; subst; assumption.
  - destruct (truthy (Ts.desc_size d)); [|discriminate].
    destruct (Ts.create d s) as [[probe s1]|] eqn:Hc; simpl in H; [|discriminate].
    destruct (ts_create_root _ _ _ _ Hwf Hc) as (len & _ & _ & _ & _ & W & _).
    destruct (Ts.is_array probe); inversion H; subst; assumption.
  - discriminate.
Qed.

(** The probing calls of c.struct leave the store well formed. *)
Lemma ts_struct_wf (schema : list (string * Ts.value)) (s s' : Ts.Store)
    (d : Ts.Descriptor) :
  ts_wf s -> Ts.struct schema s = Ok (d, s') -> ts_wf s'.
Proof.
  unfold Ts.struct. generalize (Int 0).
  intros offset Hwf H.
  destruct (Ts.resolve schema offset s) as [[[fields total] s1]|] eqn:Hr;
    simpl in H; [|discriminate].
  inversion H; subst. clear H.
  revert offset s fields total s' Hwf Hr.
  induction schema as [|[name type] rest IH]; intros offset s fields total s' Hwf Hr.
  - simpl in Hr. inversion Hr; subst; assumption.
  - simpl in Hr.
    destruct (Ts.classify name type offset s) as [[[f o'] s1]|] eqn:Hc;
      simpl in Hr; [|discriminate].
    destruct (Ts.resolve rest o' s1) as [[[fs t] s2]|] eqn:Hr'; simpl in Hr;
      [|discriminate].
    inversion Hr; subst.
    eapply IH; [|eassumption]. eapply ts_classify_wf; eassumption.
Qed.

(** Scenario 1 of the test file: after color = [1, 0, 0] the 12-byte
    buffer holds the float 1.0 (3F800000, little-endian) then zeros. *)
Lemma scenario_simple :
  exists s1 s2,
    Ts.create ts_Item Ts.empty_store = Ok (Ts.OInstance 0, s1)
    /\ Ts.set_vector s1 0%nat "color" [Num 1; Num 0; Num 0] = Some (Ok s2)
    /\ buffers (Ts.heap s2) = [[0; 0; 128; 63; 0; 0; 0; 0; 0; 0; 0; 0]]
    /\ ieee_value 8 23 (le_value [0; 0; 128; 63]) = Num 1.
Proof. do 2 eexists. repeat split; vm_compute; reflexivity. Qed.

(** Scenario 3: with Item = c.struct({ color: Color }), color.r = 1 writes
    the float 1.0 at bytes 0..3 of the 12-byte buffer of the root. *)
Lemma scenario_nested :
  exists s1 s2,
    Ts.create ts_Nested Ts.empty_store = Ok (Ts.OInstance 0, s1)
    /\ Ts.get s1 0%nat "color" = Some (Ok (Ts.Own (Ts.OInstance 1), s1))
    /\ Ts.set_scalar s1 1%nat "r" (Num 1) = Some (Ok s2)
    /\ buffers (Ts.heap s2) = [[0; 0; 128; 63; 0; 0; 0; 0; 0; 0; 0; 0]]
    /\ Ts.get s2 1%nat "r" = Some (Ok (Ts.Value (Num 1), s2)).
Proof. do 2 eexists. repeat split; vm_compute; reflexivity. Qed.

(** * Further properties of index.js: the layout of every schema *)

(** X1 (index.js, c.struct): for every schema whose array descriptors come
    from c.array and that c.struct accepts, the descriptor keeps the fields
    in declaration order under their names, gives the first field offset
    0 and each next one the previous offset plus the previous size (the
    primitive's size, size times list length, the nested descriptor's
    size, the element descriptor's size times the array length), and has
    the sum of these sizes as its size. *)
Theorem X1_js_layout (schema : list (string * Js.value)) (d : Js.StructDescriptor) :
  Forall (fun e => js_api_value (snd e)) schema ->
  Js.struct schema = Ok d ->
  map Js.field_name (Js.struct_fields d) = map fst schema
  /\ LayoutRule.js_packed 0 (Js.struct_fields d)
  /\ Js.struct_size d = LayoutRule.js_total (Js.struct_fields d).
Proof.
  intros Hapi H. apply js_struct_layout; [|assumption].
  eapply Forall_impl; [|exact Hapi].
  intros [n type] Ht. simpl in *. destruct type; try exact I.
  destruct Ht as (v & len & Ha). exact (js_array_from_array _ _ _ Ha).
Qed.

Lemma X1_js_layout_witness :
  Js.struct js_example_Item_schema = Ok js_example_Item
  /\ Js.struct [("items", Js.VArray (Js.mkArray js_example_Item 2 72))]
     = Ok js_example_Material
  /\ LayoutRule.js_packed 0 (Js.struct_fields js_example_Material)
  /\ Js.struct_size js_example_Material
     = LayoutRule.js_total (Js.struct_fields js_example_Material).
Proof.
  split; [reflexivity|]. split; [reflexivity|].
  apply (X1_js_layout [("items", Js.VArray (Js.mkArray js_example_Item 2 72))]
           js_example_Material).
  - constructor; [|constructor]. simpl.
    exists (Js.VStruct js_example_Item), (Num 2). reflexivity.
  - reflexivity.
Defined.

(** * Further properties of index.ts: when create throws *)

Lemma ts_create_outcome_struct (size : number) (fields : list Ts.FieldDescriptor) :
  ts_create_outcome (Ts.DStruct size fields) = first_error ts_init_outcome fields.
Proof. simpl. induction fields as [|f r IH]; simpl; [reflexivity|]. rewrite IH. reflexivity. Qed.

Lemma new_Array_outcome (n : Z) :
  new_Array n = if valid_array_length n then Ok tt else Throw RangeError.
Proof. reflexivity. Qed.

(** A loop whose steps end as [out] tells ends with the first error. *)
Lemma for_each_outcome {F St} (step : F -> St -> result St)
    (out : F -> option error) (fs : list F) :
  Forall (fun f => forall s,
            match out f with
            | None => exists s', step f s = Ok s'
            | Some e => step f s = Throw e
            end) fs ->
  forall s,
  match first_error out fs with
  | None => exists s', for_each step fs s = Ok s'
  | Some e => for_each step fs s = Throw e
  end.
Proof.
  induction 1 as [|f fs Hf _ IH]; intros s; simpl; [eauto|].
  specialize (Hf s). destruct (out f) as [e|]; simpl.
  - rewrite Hf. reflexivity.
  - destruct Hf as (s1 & ->). simpl. apply IH.
Qed.

Lemma for_index_outcome {V St} (make : Z -> St -> result (V * St))
    (o : option error) :
  (forall i s,
     match o with
     | None => exists x s', make i s = Ok (x, s')
     | Some e => make i s = Throw e
     end) ->
  forall n i s,
  match loop_error n o with
  | None => exists xs s', for_index make n i s = Ok (xs, s')
  | Some e => for_index make n i s = Throw e
  end.
Proof.
  intros Hm n. destruct o as [e|].
  - destruct n as [|n]; intros i s; simpl; [eauto|].
    rewrite (Hm i s). reflexivity.
  - assert (forall n i s, exists xs s', for_index make n i s = Ok (xs, s')) as Hall.
    { clear n. induction n as [|n IH]; intros i s; simpl; [eauto|].
      destruct (Hm i s) as (x & s1 & ->). simpl.
      destruct (IH (i + 1) s1) as (xs & s2 & ->). simpl. eauto. }
    intros i s. replace (loop_error n None) with (@None error)
      by (destruct n; reflexivity). apply Hall.
Qed.

Lemma positive_integer_length_value (n : Z) :
  positive_integer (Ts.length_value (Some n)) = if 0 <? n then Some n else None.
Proof.
  cbn [Ts.length_value]. destruct (Z.ltb_spec 0 n) as [Hn|Hn].
  - apply positive_integer_inject. assumption.
  - destruct (positive_integer (Num (inject_Z n))) as [m|] eqn:Hp; [|reflexivity].
    apply positive_integer_char in Hp. destruct Hp as (q & Hq & He & Hm).
    inversion Hq; subst q. unfold Qeq in He. simpl in He. lia.
Qed.

Lemma ts_create_at_outcome (d : Ts.Descriptor) :
  forall b off s,
  match ts_create_outcome d with
  | None => exists v s', Ts.create_at d b off s = Ok (v, s')
  | Some e => Ts.create_at d b off s = Throw e
  end.
Proof.
  induction d using ts_descriptor_ind with
    (Q := fun f => forall id b off s,
            match ts_init_outcome f with
            | None => exists s', Ts.init_field f id b off s = Ok s'
            | Some e => Ts.init_field f id b off s = Throw e
            end).
  - intros b off s. rewrite ts_create_outcome_struct. cbn [Ts.create_at].
    destruct (Ts.new_instance fields b off s) as [id s0].
    match goal with
    | |- context [for_each ?step _ _] => set (stp := step)
    end.
    pose proof (for_each_outcome stp ts_init_outcome fields) as Hd.
    specialize (Hd ltac:(eapply Forall_impl; [|exact H]; intros f Hf a; apply Hf) s0).
    destruct (first_error ts_init_outcome fields) as [e|].
    + rewrite Hd. reflexivity.
    + destruct Hd as (s1 & ->). simpl. eauto.
  - intros b off s. cbn [Ts.create_at ts_create_outcome].
    rewrite new_Array_outcome. destruct (valid_array_length len); [|reflexivity].
    cbn [bind].
    match goal with
    | |- context [for_index ?mk _ _ _] => set (make := mk)
    end.
    pose proof (for_index_outcome make (ts_create_outcome d)) as Hd.
    specialize (Hd ltac:(intros i a; unfold make; apply IHd) (Z.to_nat len) 0 s).
    destruct (loop_error (Z.to_nat len) (ts_create_outcome d)) as [e|].
    + rewrite Hd. reflexivity.
    + destruct Hd as (xs & s1 & ->). simpl. eauto.
  - intros id b off s. simpl. eauto.
  - intros id b off s. simpl. eauto.
  - intros id b off s. cbn [Ts.init_field ts_init_outcome].
    specialize (IHd b (nadd off offset) s). destruct (ts_create_outcome d) as [e|].
    + rewrite IHd. reflexivity.
    + destruct IHd as (x & s1 & ->). simpl. eauto.
  - intros id b off s. cbn [Ts.init_field ts_init_outcome].
    destruct len as [n|]; [|reflexivity].
    rewrite positive_integer_length_value.
    destruct (0 <? n); [|reflexivity].
    rewrite new_Array_outcome. destruct (valid_array_length n); [|reflexivity].
    cbn [bind].
    match goal with
    | |- context [for_index ?mk _ _ _] => set (make := mk)
    end.
    pose proof (for_index_outcome make (ts_create_outcome d)) as Hd.
    specialize (Hd ltac:(intros i a; unfold make; apply IHd) (Z.to_nat n) 0 s).
    destruct (loop_error (Z.to_nat n) (ts_create_outcome d)) as [e|].
    + rewrite Hd. reflexivity.
    + destruct Hd as (xs & s1 & ->). simpl. eauto.
Qed.

Lemma first_error_In {F} (out : F -> option error) (fs : list F) (e : error) :
  first_error out fs = Some e -> exists f, In f fs /\ out f = Some e.
Proof.
  induction fs as [|f r IH]; simpl; [discriminate|].
  destruct (out f) as [e'|] eqn:Hf.
  - intros H. inversion H; subst. eauto.
  - intros H. destruct (IH H) as (g & Hg & Ho). eauto.
Qed.

Lemma loop_error_Some (n : nat) (o : option error) (e : error) :
  loop_error n o = Some e -> o = Some e.
Proof. destruct n; simpl; [discriminate|auto]. Qed.

Lemma ts_array_lengths_valid_struct (size : number)
    (fields : list Ts.FieldDescriptor) :
  ts_array_lengths_valid (Ts.DStruct size fields)
  = forallb ts_field_lengths_valid fields.
Proof. simpl. induction fields as [|f r IH]; simpl; congruence. Qed.

(** The constructor knows two errors, and the second one comes from an
    array length only. *)
Lemma ts_create_outcome_errors (d : Ts.Descriptor) :
  forall e, ts_create_outcome d = Some e ->
  (e = ArrayLength \/ e = RangeError)
  /\ (ts_array_lengths_valid d = true -> e = ArrayLength).
Proof.
  induction d using ts_descriptor_ind with
    (Q := fun f => forall e, ts_init_outcome f = Some e ->
            (e = ArrayLength \/ e = RangeError)
            /\ (ts_field_lengths_valid f = true -> e = ArrayLength)).
  - intros e He. rewrite ts_create_outcome_struct in He.
    destruct (first_error_In _ _ _ He) as (f & Hin & Hf).
    rewrite Forall_forall in H. destruct (H f Hin e Hf) as (A & B).
    split; [assumption|]. rewrite ts_array_lengths_valid_struct.
    intros Hall. rewrite forallb_forall in Hall. auto.
  - intros e He. cbn [ts_create_outcome ts_array_lengths_valid] in *.
    destruct (valid_array_length len).
    + apply loop_error_Some in He. destruct (IHd e He) as (A & B). auto.
    + inversion He; subst. split; [auto|discriminate].
  - discriminate.
  - discriminate.
  - intros e He. cbn [ts_init_outcome ts_field_lengths_valid] in *. auto.
  - intros e He. cbn [ts_init_outcome ts_field_lengths_valid] in *.
    destruct len as [n|]; [|inversion He; auto].
    destruct (0 <? n); [|inversion He; auto].
    destruct (valid_array_length n).
    + apply loop_error_Some in He. destruct (IHd e He) as (A & B). auto.
    + inversion He; subst. split; [auto|discriminate].
Qed.

(** X2 (index.ts, Ctor and the create of c.array): create(buffer,
    baseOffset), with both arguments given, checks neither the length of
    the buffer nor the alignment of any field, and what it does is decided
    by the descriptor alone: with every buffer, base offset and state it
    returns, or throws the same error.  That error is the length error of
    c.array, for the first array field without a positive length, or the
    RangeError of [new Array], for the first array of 2^32 or more
    elements, whichever is met first; it throws nothing else. *)
Theorem X2_ts_create_at_outcome (d : Ts.Descriptor) (b : nat) (off : number)
    (s : Ts.Store) :
  match ts_create_outcome d with
  | None => exists v s', Ts.create_at d b off s = Ok (v, s')
  | Some e => Ts.create_at d b off s = Throw e
  end
  /\ (forall e, Ts.create_at d b off s = Throw e ->
        (e = ArrayLength \/ e = RangeError)
        /\ (ts_array_lengths_valid d = true -> e = ArrayLength)
        /\ forall b' off' s', Ts.create_at d b' off' s' = Throw e)
  /\ (forall v s1, Ts.create_at d b off s = Ok (v, s1) ->
        forall b' off' s', exists v' s1', Ts.create_at d b' off' s' = Ok (v', s1')).
Proof.
  pose proof (ts_create_at_outcome d) as H.
  split; [apply H|]. split.
  - intros e He. pose proof (H b off s) as Hb.
    destruct (ts_create_outcome d) as [e'|] eqn:Ho.
    + rewrite Hb in He. inversion He; subst e'.
      destruct (ts_create_outcome_errors d e Ho) as (A & B).
      split; [assumption|]. split; [assumption|].
      intros b' off' s'. exact (H b' off' s').
    + destruct Hb as (v & s1 & Hb). rewrite Hb in He. discriminate.
  - intros v s1 Hc b' off' s'. pose proof (H b off s) as Hb.
    specialize (H b' off' s'). destruct (ts_create_outcome d) as [e|].
    + rewrite Hb in Hc. discriminate.
    + exact H.
Qed.

Lemma X2_ts_create_at_outcome_witness :
  (exists v s', Ts.create_at ts_Nested 0 (Int 1000) ts_item_store = Ok (v, s'))
  /\ Ts.create_at (Ts.DStruct NaN
                     [Ts.array_ "items" (Ts.DArray ts_Item 2) None (Int 0)])
       0 (Int 0) Ts.empty_store
     = Throw ArrayLength
  /\ Ts.create_at (Ts.DArray ts_Item 4294967296) 0 (Int 0) Ts.empty_store
     = Throw RangeError.
Proof.
  split; [|split].
  - exact (proj1 (X2_ts_create_at_outcome ts_Nested 0 (Int 1000) ts_item_store)).
  - exact (proj1 (X2_ts_create_at_outcome
                    (Ts.DStruct NaN
                       [Ts.array_ "items" (Ts.DArray ts_Item 2) None (Int 0)])
                    0%nat (Int 0) Ts.empty_store)).
  - exact (proj1 (X2_ts_create_at_outcome (Ts.DArray ts_Item 4294967296)
                    0%nat (Int 0) Ts.empty_store)).
Defined.

(** * Further properties of index.ts: a schema with an array field *)

Lemma ts_create_array_probe (e : Ts.Descriptor) (n : Z) (s s1 : Ts.Store)
    (probe : Ts.OwnValue) :
  Ts.create (Ts.DArray e n) s = Ok (probe, s1) -> Ts.is_array probe = true.
Proof.
  unfold Ts.create. intros H.
  destruct (new_ArrayBuffer _ _) as [[b h1]|]; simpl in H; [|discriminate].
  cbn [Ts.create_at] in H.
  destruct (new_Array _) as [[]|]; cbn [bind] in H; [|discriminate].
  destruct (for_index _ _ _ _) as [[arr s2]|]; simpl in H; [|discriminate].
  inversion H; subst. reflexivity.
Qed.

Lemma ts_classify_array_descriptor (name : string) (e : Ts.Descriptor) (n : Z)
    (offset offset' : number) (s s1 : Ts.Store) (f : Ts.FieldDescriptor) :
  Ts.classify name (Ts.VDesc (Ts.DArray e n)) offset s = Ok (f, offset', s1) ->
  f = Ts.array_ name (Ts.DArray e n) None offset.
Proof.
  intros H. cbn [Ts.classify] in H.
  destruct (truthy _); [|discriminate].
  destruct (Ts.create (Ts.DArray e n) s) as [[probe s2]|] eqn:Hc; simpl in H;
    [|discriminate].
  rewrite (ts_create_array_probe _ _ _ _ _ Hc) in H.
  inversion H; subst. reflexivity.
Qed.

Lemma ts_resolve_In (schema : list (string * Ts.value)) :
  forall offset s fields total s' name type,
  Ts.resolve schema offset s = Ok (fields, total, s') ->
  In (name, type) schema ->
  exists f o0 s0 o1 s1,
    In f fields /\ Ts.classify name type o0 s0 = Ok (f, o1, s1).
Proof.
  induction schema as [|[n t] rest IH];
    intros offset s fields total s' name type H Hin; [contradiction|].
  simpl in H.
  destruct (Ts.classify n t offset s) as [[[f o'] s1]|] eqn:Hc; simpl in H;
    [|discriminate].
  destruct (Ts.resolve rest o' s1) as [[[fs tt] s2]|] eqn:Hr; simpl in H;
    [|discriminate].
  inversion H; subst. destruct Hin as [Heq|Hin].
  - inversion Heq; subst. exists f, offset, s, o', s1. split; [left; reflexivity|assumption].
  - destruct (IH _ _ _ _ _ _ _ Hr Hin) as (g & o0 & s0 & o1 & s3 & Hg & Hcg).
    exists g, o0, s0, o1, s3. split; [right; assumption|assumption].
Qed.

Lemma first_error_all {F} (out : F -> option error) (e : error) (fs : list F)
    (f : F) :
  Forall (fun g => out g = None \/ out g = Some e) fs ->
  In f fs -> out f = Some e -> first_error out fs = Some e.
Proof.
  induction 1 as [|g r Hg _ IH]; intros Hin Hf; [contradiction|]. simpl.
  destruct Hg as [Hg|Hg]; rewrite Hg; [|reflexivity].
  destruct Hin as [->|Hin]; [congruence|auto].
Qed.

(** A descriptor that c.struct has probed can be created. *)
Lemma ts_classify_outcome (name : string) (type : Ts.value) (offset offset' : number)
    (s s1 : Ts.Store) (f : Ts.FieldDescriptor) :
  Ts.classify name type offset s = Ok (f, offset', s1) ->
  ts_init_outcome f = None \/ ts_init_outcome f = Some ArrayLength.
Proof.
  intros H. destruct type as [d | l | d | ]; simpl in H.
  - inversion H; subst. left. reflexivity.
  - destruct l as [|e l']; [discriminate|]. inversion H; subst. left. reflexivity.
  - destruct (truthy (Ts.desc_size d)); [|discriminate].
    destruct (Ts.create d s) as [[probe s2]|] eqn:Hc; simpl in H; [|discriminate].
    destruct (Ts.is_array probe); inversion H; subst.
    + right. reflexivity.
    + left. cbn [ts_init_outcome]. unfold Ts.create in Hc.
      destruct (new_ArrayBuffer _ _) as [[b h1]|]; simpl in Hc; [|discriminate].
      pose proof (ts_create_at_outcome d b (Int 0) (Ts.mkStore h1 (Ts.instances s)))
        as Ho.
      destruct (ts_create_outcome d); [|reflexivity].
      rewrite Ho in Hc. discriminate.
  - discriminate.
Qed.

Lemma ts_resolve_outcome (schema : list (string * Ts.value)) :
  forall offset s fields total s',
  Ts.resolve schema offset s = Ok (fields, total, s') ->
  Forall (fun f => ts_init_outcome f = None
                   \/ ts_init_outcome f = Some ArrayLength) fields.
Proof.
  induction schema as [|[n t] rest IH]; intros offset s fields total s' H.
  - simpl in H. inversion H; subst. constructor.
  - simpl in H.
    destruct (Ts.classify n t offset s) as [[[f o'] s1]|] eqn:Hc; simpl in H;
      [|discriminate].
    destruct (Ts.resolve rest o' s1) as [[[fs tt] s2]|] eqn:Hr; simpl in H;
      [|discriminate].
    inversion H; subst. constructor.
    + eapply ts_classify_outcome; eassumption.
    + eapply IH; eassumption.
Qed.

Lemma nadd_NaN_r (a : number) : nadd a NaN = NaN.
Proof. destruct a; reflexivity. Qed.

Lemma ts_total_NaN (fields : list Ts.FieldDescriptor) (f : Ts.FieldDescriptor) :
  In f fields -> LayoutRule.ts_field_size f = NaN ->
  LayoutRule.ts_total fields = NaN.
Proof.
  unfold LayoutRule.ts_total.
  induction fields as [|g r IH]; intros Hin Hf; [contradiction|].
  simpl. destruct Hin as [->|Hin].
  - rewrite Hf. reflexivity.
  - rewrite IH by assumption. apply nadd_NaN_r.
Qed.

(** X3 (index.ts, c.struct and Ctor): whenever c.struct accepts a schema
    in which some field is a descriptor made by c.array, the struct
    descriptor that it returns has size NaN and its create() throws the
    length error of c.array, from whatever state it is called. *)
Theorem X3_ts_array_field_breaks_struct (schema : list (string * Ts.value))
    (s s' : Ts.Store) (d : Ts.Descriptor) (name : string) (e : Ts.Descriptor)
    (n : Z) :
  Ts.struct schema s = Ok (d, s') ->
  In (name, Ts.VDesc (Ts.DArray e n)) schema ->
  Ts.desc_size d = NaN
  /\ forall s1, Ts.create d s1 = Throw ArrayLength.
Proof.
  intros H Hin. unfold Ts.struct in H.
  destruct (Ts.resolve schema (Int 0) s) as [[[fields total] s1]|] eqn:Hr;
    simpl in H; [|discriminate].
  inversion H; subst d s'. clear H.
  destruct (ts_resolve_In _ _ _ _ _ _ _ _ Hr Hin) as (f & o0 & s0 & o1 & s2 & Hf & Hc).
  apply ts_classify_array_descriptor in Hc. subst f.
  destruct (ts_resolve_layout _ _ _ _ _ _ Hr) as (_ & _ & Ht).
  rewrite (ts_total_NaN fields _ Hf eq_refl), nadd_NaN_r in Ht. subst total.
  split; [reflexivity|].
  intros s3. unfold Ts.create. cbn [Ts.desc_size new_ArrayBuffer to_index bind].
  match goal with
  | |- Ts.create_at ?d ?b ?off ?st = _ =>
      pose proof (ts_create_at_outcome d b off st) as Hd
  end.
  rewrite ts_create_outcome_struct in Hd.
  rewrite (first_error_all ts_init_outcome ArrayLength fields _
             (ts_resolve_outcome _ _ _ _ _ _ Hr) Hf eq_refl) in Hd.
  exact Hd.
Qed.

Lemma X3_ts_array_field_breaks_struct_witness :
  exists d s',
    Ts.struct [("id", Ts.uint); ("items", Ts.VDesc (Ts.DArray ts_Item 2))]
      Ts.empty_store = Ok (d, s')
    /\ Ts.desc_size d = NaN
    /\ Ts.create d s' = Throw ArrayLength.
Proof.
  do 2 eexists. split; [vm_compute; reflexivity|].
  match goal with
  | |- Ts.desc_size ?d = _ /\ Ts.create ?d ?s1 = _ =>
      destruct (X3_ts_array_field_breaks_struct
                  [("id", Ts.uint); ("items", Ts.VDesc (Ts.DArray ts_Item 2))]
                  Ts.empty_store s1 d "items" ts_Item 2) as (A & B)
  end.
  - vm_compute; reflexivity.
  - right; left; reflexivity.
  - split; [exact A|apply B].
Defined.

(** * Further properties of index.ts: what declaring a schema allocates *)

Lemma ts_create_buffers (d : Ts.Descriptor) (s s' : Ts.Store) (v : Ts.OwnValue) :
  Ts.create d s = Ok (v, s') ->
  exists len,
    to_index (Ts.desc_size d) = Ok len
    /\ buffers (Ts.heap s') = buffers (Ts.heap s) ++ [repeat 0 (Z.to_nat len)].
Proof.
  unfold Ts.create, new_ArrayBuffer. intros H.
  destruct (to_index (Ts.desc_size d)) as [len|]; cbn [bind] in H; [|discriminate].
  exists len. split; [reflexivity|].
  apply ts_create_at_buffers in H. exact H.
Qed.

Lemma ts_classify_buffers (name : string) (type : Ts.value) (offset offset' : number)
    (s s' : Ts.Store) (f : Ts.FieldDescriptor) :
  Ts.classify name type offset s = Ok (f, offset', s') ->
  buffers (Ts.heap s') = buffers (Ts.heap s) ++ ts_probe_buffers [(name, type)].
Proof.
  intros H. unfold ts_probe_buffers. simpl. rewrite app_nil_r.
  destruct type as [d | l | d | ]; simpl in H.
  - inversion H; subst. rewrite app_nil_r. reflexivity.
  - destruct l as [|e l']; [discriminate|]. inversion H; subst.
    rewrite app_nil_r. reflexivity.
  - destruct (Ts.desc_size d) as [z|] eqn:Hz; simpl in H; [|discriminate].
    destruct (negb (z =? 0)); [|discriminate].
    destruct (Ts.create d s) as [[probe s1]|] eqn:Hc; simpl in H; [|discriminate].
    destruct (ts_create_buffers _ _ _ _ Hc) as (len & Hlen & Hb).
    rewrite Hz in Hlen. simpl in Hlen.
    destruct (z <? 0); [discriminate|]. inversion Hlen; subst len.
    destruct (Ts.is_array probe); inversion H; subst; exact Hb.
  - discriminate.
Qed.

(** X4 (index.ts, c.struct): declaring a schema is not free of effects.
    For every field whose type is a descriptor, c.struct calls that
    descriptor's create() once to look at the result, which allocates a
    zero-filled buffer of the descriptor's size; these buffers, in field
    order, are all that c.struct adds to the heap, and the buffers that
    existed keep their content. *)
Theorem X4_ts_struct_allocates (schema : list (string * Ts.value))
    (s s' : Ts.Store) (d : Ts.Descriptor) :
  Ts.struct schema s = Ok (d, s') ->
  buffers (Ts.heap s') = buffers (Ts.heap s) ++ ts_probe_buffers schema.
Proof.
  unfold Ts.struct. generalize (Int 0). intros offset H.
  destruct (Ts.resolve schema offset s) as [[[fields total] s1]|] eqn:Hr;
    simpl in H; [|discriminate].
  inversion H; subst. clear H.
  revert offset s fields total s' Hr.
  induction schema as [|[name type] rest IH]; intros offset s fields total s' Hr.
  - simpl in Hr. inversion Hr; subst. simpl. rewrite app_nil_r. reflexivity.
  - simpl in Hr.
    destruct (Ts.classify name type offset s) as [[[f o'] s1]|] eqn:Hc;
      simpl in Hr; [|discriminate].
    destruct (Ts.resolve rest o' s1) as [[[fs t] s2]|] eqn:Hr'; simpl in Hr;
      [|discriminate].
    inversion Hr; subst.
    rewrite (IH _ _ _ _ _ Hr'), (ts_classify_buffers _ _ _ _ _ _ _ Hc).
    rewrite <- app_assoc. unfold ts_probe_buffers. simpl flat_map.
    rewrite app_nil_r. reflexivity.
Qed.

Lemma X4_ts_struct_allocates_witness :
  exists d s',
    Ts.struct [("a", Ts.VDesc ts_Color); ("n", Ts.uint); ("b", Ts.VDesc ts_Item)]
      ts_item_store = Ok (d, s')
    /\ buffers (Ts.heap s')
       = buffers (Ts.heap ts_item_store) ++ [repeat 0 12; repeat 0 12].
Proof.
  do 2 eexists. split; [vm_compute; reflexivity|].
  match goal with
  | |- buffers (Ts.heap ?s1) = _ =>
      exact (X4_ts_struct_allocates
               [("a", Ts.VDesc ts_Color); ("n", Ts.uint); ("b", Ts.VDesc ts_Item)]
               ts_item_store s1 _ eq_refl)
  end.
Defined.

(** * Further properties: what a scalar assignment touches *)

Lemma DataView_set_inv (t : ElemType) (buf buf' : ArrayBuffer) (off : number)
    (v : jsvalue) :
  DataView_set t buf off v = Ok buf' ->
  exists i bits,
    to_index off = Ok i /\ 0 <= i /\ encode t v = Ok bits
    /\ i + BYTES_PER_ELEMENT t <= Z.of_nat (List.length buf)
    /\ buf' = splice buf (Z.to_nat i) (le_bytes (elem_bytes t) bits)
    /\ List.length buf' = List.length buf.
Proof.
  unfold DataView_set. intros H.
  destruct (to_index off) as [i|] eqn:Hi; simpl in H; [|discriminate].
  destruct (encode t v) as [bits|] eqn:Hb; simpl in H; [|discriminate].
  destruct (Z.ltb_spec (Z.of_nat (List.length buf)) (i + BYTES_PER_ELEMENT t));
    [discriminate|].
  inversion H; subst buf'. pose proof (to_index_ok _ _ Hi).
  pose proof (elem_bytes_Z t).
  exists i, bits. repeat split; auto.
  apply splice_length. rewrite le_bytes_length. lia.
Qed.

Lemma set_buffer_frame (h : Heap) (b : nat) (buf : ArrayBuffer) (i n : Z)
    (bs : list Z) :
  (b < List.length (buffers h))%nat ->
  0 <= i -> Z.of_nat (List.length bs) = n ->
  i + n <= Z.of_nat (List.length (nth b (buffers h) [])) ->
  buf = splice (nth b (buffers h) []) (Z.to_nat i) bs ->
  (forall b', byteLength (set_buffer h b buf) b' = byteLength h b')
  /\ (forall b' k, 0 <= k -> b' <> b \/ k < i \/ i + n <= k ->
        byte_at (set_buffer h b buf) b' k = byte_at h b' k).
Proof.
  intros Hb Hi Hn Hfit ->. split.
  - intros b'. unfold byteLength.
    destruct (Nat.eq_dec b' b) as [->|Hne].
    + rewrite nth_set_buffer_same by assumption.
      rewrite splice_length by lia. reflexivity.
    + rewrite nth_set_buffer_other by assumption. reflexivity.
  - intros b' k Hk Hout. unfold byte_at.
    destruct (Nat.eq_dec b' b) as [->|Hne].
    + rewrite nth_set_buffer_same by assumption.
      apply splice_nth_outside; [lia|].
      destruct Hout as [Hc|[Hc|Hc]]; [congruence|left; lia|right; lia].
    + rewrite nth_set_buffer_other by assumption. reflexivity.
Qed.

(** X5 (index.ts, the scalar setter): an assignment to a scalar field that
    returns leaves the instances and every buffer length as they are and
    changes no byte outside the bytes of the written element, which lie
    inside the view's buffer from ToIndex(baseOffset + offset) on; for a
    descriptor of the registry these are exactly the [size] bytes of the
    field.  Nothing is ever written past the end of a buffer. *)
Theorem X5_ts_scalar_write_frame (s s2 : Ts.Store) (id : nat) (name : string)
    (v : jsvalue) :
  Ts.set_scalar s id name v = Some (Ok s2) ->
  exists x m desc abs b base i,
    Ts.find_instance id (Ts.instances s) = Some x
    /\ Ts.accessor name (Ts.proto x) = Some (Ts.scalar m desc abs)
    /\ lookup "__view" (Ts.own x) = Some (Ts.ODataView b)
    /\ lookup "baseOffset" (Ts.own x) = Some (Ts.ONumber base)
    /\ to_index (nadd base abs) = Ok i
    /\ Ts.instances s2 = Ts.instances s
    /\ fresh (Ts.heap s2) = fresh (Ts.heap s)
    /\ (forall b', byteLength (Ts.heap s2) b' = byteLength (Ts.heap s) b')
    /\ i + BYTES_PER_ELEMENT (setter desc) <= byteLength (Ts.heap s) b
    /\ (forall b' k, 0 <= k ->
          b' <> b \/ k < i \/ i + BYTES_PER_ELEMENT (setter desc) <= k ->
          byte_at (Ts.heap s2) b' k = byte_at (Ts.heap s) b' k)
    /\ (forall n, desc = Ts.p n -> BYTES_PER_ELEMENT (setter desc) = size desc).
Proof.
  unfold Ts.set_scalar. intros H.
  destruct (Ts.find_instance id (Ts.instances s)) as [x|] eqn:Hx; [|discriminate].
  destruct (lookup name (Ts.own x)) eqn:Hown; [discriminate|].
  destruct (Ts.accessor name (Ts.proto x)) as [[m desc abs| | |]|] eqn:Hacc;
    try discriminate.
  destruct (lookup "__view" (Ts.own x)) as [[|?|b| | |]|] eqn:Hv; try discriminate.
  destruct (lookup "baseOffset" (Ts.own x)) as [[|base| | | |]|] eqn:Hb;
    try discriminate.
  destruct (DataView_set (setter desc) (nth b (buffers (Ts.heap s)) [])
              (nadd base abs) v) as [buf|] eqn:Hset; simpl in H; [|discriminate].
  inversion H; subst s2. clear H.
  destruct (DataView_set_inv _ _ _ _ _ Hset) as (i & bits & Hi & Hi0 & He & Hfit & Hbuf & Hl).
  pose proof (BYTES_PER_ELEMENT_pos (setter desc)) as Hpos.
  assert (Hin : (b < List.length (buffers (Ts.heap s)))%nat)
    by (apply nth_nonempty_in_range; unfold ArrayBuffer in *; lia).
  destruct (set_buffer_frame (Ts.heap s) b buf i (BYTES_PER_ELEMENT (setter desc))
              (le_bytes (elem_bytes (setter desc)) bits)) as (A & B); auto.
  { rewrite le_bytes_length. apply elem_bytes_Z. }
  exists x, m, desc, abs, b, base, i. cbn [Ts.instances Ts.heap].
  do 7 (split; [auto|]). split; [exact A|]. split; [exact Hfit|].
  split; [exact B|].
  intros n ->. destruct n; reflexivity.
Qed.

Lemma X5_ts_scalar_write_frame_witness :
  exists s2,
    Ts.set_scalar ts_uint_store 0%nat "u" (Num 7) = Some (Ok s2)
    /\ Ts.instances s2 = Ts.instances ts_uint_store
    /\ byteLength (Ts.heap s2) 0 = 4.
Proof.
  eexists. split; [reflexivity|].
  destruct (X5_ts_scalar_write_frame ts_uint_store _ 0%nat "u" (Num 7) eq_refl)
    as (x & m & desc & abs & b & base & i & _ & _ & _ & _ & _ & A & _ & B & _).
  split; [exact A|]. rewrite B. reflexivity.
Defined.

(** X6 (index.js, the scalar setter): an assignment to a scalar field that
    returns changes no buffer length and no byte outside the
    BYTES_PER_ELEMENT bytes that the descriptor's setter moves, starting at
    the field's absolute offset in the view's buffer.  For float64, which
    index.js declares with size 4, these are 8 bytes: the write runs 4
    bytes past the field. *)
Theorem X6_js_scalar_write_frame (h h2 : Heap) (inst : Js.View) (name : string)
    (v : jsvalue) :
  Js.set_scalar h inst name v = Some (Ok h2) ->
  exists desc abs,
    lookup name (Js.view_props inst) = Some (Js.PScalar desc abs)
    /\ 0 <= abs
    /\ fresh h2 = fresh h
    /\ (forall b', byteLength h2 b' = byteLength h b')
    /\ abs + BYTES_PER_ELEMENT (setter desc) <= byteLength h (Js.view_buffer inst)
    /\ (forall b' k, 0 <= k ->
          b' <> Js.view_buffer inst \/ k < abs
          \/ abs + BYTES_PER_ELEMENT (setter desc) <= k ->
          byte_at h2 b' k = byte_at h b' k)
    /\ (forall n, desc = Js.p n -> n <> float64 ->
          BYTES_PER_ELEMENT (setter desc) = size desc)
    /\ (desc = Js.p float64 ->
          BYTES_PER_ELEMENT (setter desc) = 8 /\ size desc = 4).
Proof.
  unfold Js.set_scalar. intros H.
  destruct (String.eqb name "buffer"); [discriminate|].
  destruct (lookup name (Js.view_props inst)) as [[desc abs| | |]|] eqn:Hp;
    try discriminate.
  destruct (DataView_set (setter desc) (nth (Js.view_buffer inst) (buffers h) [])
              (Int abs) v) as [buf|] eqn:Hset; simpl in H; [|discriminate].
  inversion H; subst h2. clear H.
  destruct (DataView_set_inv _ _ _ _ _ Hset) as (i & bits & Hi & Hi0 & He & Hfit & Hbuf & Hl).
  simpl in Hi. destruct (abs <? 0); [discriminate|]. inversion Hi; subst i.
  pose proof (BYTES_PER_ELEMENT_pos (setter desc)) as Hpos.
  assert (Hin : (Js.view_buffer inst < List.length (buffers h))%nat)
    by (apply nth_nonempty_in_range; unfold ArrayBuffer in *; lia).
  destruct (set_buffer_frame h (Js.view_buffer inst) buf abs
              (BYTES_PER_ELEMENT (setter desc))
              (le_bytes (elem_bytes (setter desc)) bits)) as (A & B); auto.
  { rewrite le_bytes_length. apply elem_bytes_Z. }
  exists desc, abs. do 3 (split; [auto|]). split; [exact A|].
  split; [exact Hfit|]. split; [exact B|]. split.
  - intros n -> Hn. destruct n; try reflexivity. contradiction.
  - intros ->. split; reflexivity.
Qed.

Lemma X6_js_scalar_write_frame_witness :
  exists v h1 h2,
    Js.create (Js.mkStruct 8 [Js.scalar "x" (Js.p float64) 0;
                              Js.scalar "y" (Js.p float32) 4]) empty_heap
    = Ok (v, h1)
    /\ Js.set_scalar h1 v "x" (Num 1) = Some (Ok h2)
    /\ byteLength h2 0 = 8
    /\ byte_at h2 0 7 = 63.
Proof.
  do 3 eexists. split; [vm_compute; reflexivity|].
  split; [vm_compute; reflexivity|].
  match goal with
  | |- byteLength ?h2 _ = _ /\ _ =>
      destruct (X6_js_scalar_write_frame
                  (mkHeap [repeat 0 8] 0) h2
                  (Js.mkView 0 [("x", Js.PScalar (Js.p float64) 0);
                                ("y", Js.PScalar (Js.p float32) 4)])
                  "x" (Num 1) eq_refl)
        as (desc & abs & _ & _ & _ & A & _)
  end.
  split; [rewrite A; reflexivity|reflexivity].
Defined.

(** * Further properties of index.ts: assigning to a vector field *)

Lemma encode_accepts (t : ElemType) (v : jsvalue) :
  if accepts t v then exists bits, encode t v = Ok bits
  else encode t v = Throw TypeError.
Proof.
  destruct t, v as [|q| | |z];
    cbn [accepts encode]; unfold ieee_bits, to_uint, to_biguint64;
    try reflexivity; try (eexists; reflexivity);
    destruct (Qnum q); eexists; reflexivity.
Qed.

Lemma TypedArray_set_decided (ta : TypedArray) (i : Z) (v : jsvalue) (h : Heap) :
  if accepts (ta_type ta) v then exists h', TypedArray_set ta i v h = Ok h'
  else TypedArray_set ta i v h = Throw TypeError.
Proof.
  unfold TypedArray_set. pose proof (encode_accepts (ta_type ta) v) as He.
  destruct (accepts (ta_type ta) v).
  - destruct He as (bits & ->). simpl. destruct (_ && _); eauto.
  - rewrite He. reflexivity.
Qed.

Lemma copy_into_decided (ta : TypedArray) (arr : list jsvalue) (n : nat) :
  forall i h,
  if forallb (fun j => accepts (ta_type ta) (index arr j)) (seq i n)
  then exists h', copy_into ta arr n i h = Ok h'
  else copy_into ta arr n i h = Throw TypeError.
Proof.
  induction n as [|n IH]; intros i h; simpl; [eauto|].
  pose proof (TypedArray_set_decided ta (Z.of_nat i) (index arr i) h) as Hs.
  destruct (accepts (ta_type ta) (index arr i)); simpl.
  - destruct Hs as (h1 & ->). simpl. apply IH.
  - rewrite Hs. reflexivity.
Qed.

Lemma TypedArray_set_window (ta : TypedArray) (i : Z) (v : jsvalue) (h h' : Heap) :
  valid_window h ta ->
  TypedArray_set ta i v h = Ok h' ->
  forall k, 0 <= k -> ~ in_window ta k ->
    byte_at h' (ta_buffer ta) k = byte_at h (ta_buffer ta) k.
Proof.
  intros Hv H k Hk Hout.
  destruct (TypedArray_set_frame _ _ _ _ _ Hv H) as (_ & _ & _ & _ & _ & Hf).
  unfold TypedArray_set in H.
  destruct (encode (ta_type ta) v); simpl in H; [|discriminate].
  destruct (Z.leb_spec 0 i); cbn [andb] in H;
    [destruct (Z.ltb_spec i (ta_length ta))|]; try (inversion H; reflexivity).
  apply Hf; [assumption|]. unfold in_window, elem_start in *.
  pose proof (BYTES_PER_ELEMENT_pos (ta_type ta)). nia.
Qed.

Lemma copy_into_window (ta : TypedArray) (arr : list jsvalue) (n : nat) :
  forall i h h',
  valid_window h ta ->
  copy_into ta arr n i h = Ok h' ->
  forall k, 0 <= k -> ~ in_window ta k ->
    byte_at h' (ta_buffer ta) k = byte_at h (ta_buffer ta) k.
Proof.
  induction n as [|n IH]; intros i h h' Hv H k Hk Hout.
  - simpl in H. inversion H; reflexivity.
  - simpl in H.
    destruct (TypedArray_set ta (Z.of_nat i) (index arr i) h) as [h1|] eqn:Hs;
      simpl in H; [|discriminate].
    destruct (TypedArray_set_frame _ _ _ _ _ Hv Hs) as (Hv1 & _).
    rewrite (IH _ _ _ Hv1 H k Hk Hout).
    eapply TypedArray_set_window; eassumption.
Qed.

Lemma ts_vector_getter_buffers (id : nat) (x : Ts.Instance) (name : string)
    (elem : PrimitiveDescriptor) (len : Z) (abs : number) (s s1 : Ts.Store)
    (pv : Ts.propvalue) :
  Ts.vector_getter id x name elem len abs s = Some (Ok (pv, s1)) ->
  buffers (Ts.heap s1) = buffers (Ts.heap s).
Proof.
  unfold Ts.vector_getter. intros H.
  destruct (Ts.hasOwnProperty x s) as [[[]|?]|]; try discriminate.
  destruct (lookup (Ts.cache_name name) (Ts.own x)).
  - inversion H; reflexivity.
  - destruct (lookup "buffer" (Ts.own x)) as [[b| | | | |]|]; try discriminate.
    destruct (lookup "baseOffset" (Ts.own x)) as [[|base| | | |]|]; try discriminate.
    unfold new_TypedArray in H.
    destruct (to_index _); simpl in H; [|discriminate].
    destruct (negb _); [discriminate|]. destruct (_ <? _); [discriminate|].
    simpl in H. inversion H; reflexivity.
Qed.

(** What [set_vector] does, in terms of the getter that it calls. *)
Lemma ts_set_vector_inv (s : Ts.Store) (id : nat) (name : string)
    (arr : list jsvalue) (r : result Ts.Store) :
  Ts.set_vector s id name arr = Some r ->
  exists x m elem len abs,
    Ts.find_instance id (Ts.instances s) = Some x
    /\ lookup name (Ts.own x) = None
    /\ Ts.accessor name (Ts.proto x) = Some (Ts.vector m elem len abs)
    /\ ((exists ta s1,
           Ts.vector_getter id x name elem len abs s
           = Some (Ok (Ts.Own (Ts.OTypedArray ta), s1))
           /\ r = (let* h' := copy_into ta arr (Z.to_nat len) 0 (Ts.heap s1) in
                   Ok (Ts.mkStore h' (Ts.instances s1))))
        \/ (exists b s1,
              Ts.vector_getter id x name elem len abs s
              = Some (Ok (Ts.Own (Ts.ODataView b), s1)) /\ r = Ok s1)
        \/ (exists e,
              Ts.vector_getter id x name elem len abs s = Some (Throw e)
              /\ r = Throw e)).
Proof.
  unfold Ts.set_vector. intros H.
  destruct (Ts.find_instance id (Ts.instances s)) as [x|]; [|discriminate].
  destruct (lookup name (Ts.own x)) eqn:Hown; [discriminate|].
  destruct (Ts.accessor name (Ts.proto x)) as [[| m elem len abs| |]|] eqn:Hacc;
    try discriminate.
  exists x, m, elem, len, abs.
  do 3 (split; [first [reflexivity | assumption]|]).
  destruct (Ts.vector_getter id x name elem len abs s) as [[[pv s1]|e]|];
    try discriminate.
  - destruct pv as [v|[b| |b| | |ta]]; try discriminate.
    + right; left. inversion H; subst. eauto.
    + left. inversion H; subst. eauto.
  - right; right. inversion H; subst. eauto.
Qed.

Lemma ts_get_vector_inv (s : Ts.Store) (id : nat) (name : string)
    (x : Ts.Instance) (m : string) (elem : PrimitiveDescriptor) (len : Z)
    (abs : number) :
  Ts.find_instance id (Ts.instances s) = Some x ->
  lookup name (Ts.own x) = None ->
  Ts.accessor name (Ts.proto x) = Some (Ts.vector m elem len abs) ->
  Ts.get s id name = Ts.vector_getter id x name elem len abs s.
Proof. intros Hx Ho Ha. unfold Ts.get. rewrite Hx, Ho, Ha. reflexivity. Qed.

Lemma ts_set_vector_window (s s1 : Ts.Store) (id : nat) (name : string)
    (ta : TypedArray) (arr : list jsvalue) (r : result Ts.Store) :
  Ts.get s id name = Some (Ok (Ts.Own (Ts.OTypedArray ta), s1)) ->
  Ts.set_vector s id name arr = Some r ->
  exists x m elem len abs,
    Ts.find_instance id (Ts.instances s) = Some x
    /\ Ts.accessor name (Ts.proto x) = Some (Ts.vector m elem len abs)
    /\ buffers (Ts.heap s1) = buffers (Ts.heap s)
    /\ r = (let* h' := copy_into ta arr (Z.to_nat len) 0 (Ts.heap s1) in
            Ok (Ts.mkStore h' (Ts.instances s1))).
Proof.
  intros Hg Hs.
  destruct (ts_set_vector_inv _ _ _ _ _ Hs) as (x & m & elem & len & abs & Hx & Ho & Ha & Hc).
  rewrite (ts_get_vector_inv s id name x m elem len abs Hx Ho Ha) in Hg.
  exists x, m, elem, len, abs. split; [assumption|]. split; [assumption|].
  split; [eapply ts_vector_getter_buffers; eassumption|].
  destruct Hc as [(ta' & s1' & Hv & Hr)|[(b & s1' & Hv & Hr)|(e & Hv & Hr)]];
    rewrite Hv in Hg; inversion Hg; subst; reflexivity.
Qed.

(** X7 (index.ts, the vector setter): when reading the field gives a
    window inside its buffer, an assignment to the field that returns
    leaves the instances as the read left them, keeps every buffer length
    and changes no byte outside that window, however long the source array
    is: source elements beyond the field's length are ignored. *)
Theorem X7_ts_vector_write_frame (s s1 s2 : Ts.Store) (id : nat) (name : string)
    (ta : TypedArray) (arr : list jsvalue) :
  Ts.get s id name = Some (Ok (Ts.Own (Ts.OTypedArray ta), s1)) ->
  valid_window (Ts.heap s1) ta ->
  Ts.set_vector s id name arr = Some (Ok s2) ->
  Ts.instances s2 = Ts.instances s1
  /\ (forall b', byteLength (Ts.heap s2) b' = byteLength (Ts.heap s) b')
  /\ (forall b' k, 0 <= k -> b' <> ta_buffer ta \/ ~ in_window ta k ->
        byte_at (Ts.heap s2) b' k = byte_at (Ts.heap s) b' k).
Proof.
  intros Hg Hv Hs.
  destruct (ts_set_vector_window _ _ _ _ _ _ _ Hg Hs)
    as (x & m & elem & len & abs & _ & _ & Hb & Hr).
  destruct (copy_into ta arr (Z.to_nat len) 0 (Ts.heap s1)) as [h'|] eqn:Hc;
    simpl in Hr; [|discriminate].
  inversion Hr; subst s2. clear Hr. cbn [Ts.instances Ts.heap].
  destruct (copy_into_frame _ _ _ _ _ _ Hv Hc) as (_ & _ & _ & Hl & Ho & _ & _).
  split; [reflexivity|]. split.
  - intros b'. rewrite Hl. unfold byteLength. rewrite Hb. reflexivity.
  - intros b' k Hk Hout.
    assert (Hs1 : byte_at (Ts.heap s1) b' k = byte_at (Ts.heap s) b' k)
      by (unfold byte_at; rewrite Hb; reflexivity).
    rewrite <- Hs1.
    destruct (Nat.eq_dec b' (ta_buffer ta)) as [->|Hne]; [|apply Ho; assumption].
    destruct Hout as [Hc'|Hout]; [congruence|].
    eapply copy_into_window; eassumption.
Qed.

Lemma X7_ts_vector_write_frame_witness :
  exists s1 s2,
    Ts.get ts_items_store 1%nat "color"
    = Some (Ok (Ts.Own (Ts.OTypedArray ts_items_window1), s1))
    /\ Ts.set_vector ts_items_store 1%nat "color"
         [Num 1; Num 2; Num 3; Num 4; Num 5] = Some (Ok s2)
    /\ byteLength (Ts.heap s2) 0 = 36
    /\ byte_at (Ts.heap s2) 0 24 = 0.
Proof.
  do 2 eexists. split; [reflexivity|]. split; [reflexivity|].
  match goal with
  | |- byteLength (Ts.heap ?s2) _ = _ /\ _ =>
      destruct (X7_ts_vector_write_frame ts_items_store _ s2 1%nat "color"
                  ts_items_window1 [Num 1; Num 2; Num 3; Num 4; Num 5]
                  eq_refl ts_items_window1_valid eq_refl) as (_ & A & B)
  end.
  split; [rewrite A; reflexivity|].
  rewrite B; [reflexivity|lia|].
  right. unfold in_window. simpl. lia.
Defined.

(** X8 (index.ts, the vector setter): the assignment stores position by
    position; where the source array is shorter than the field, the
    remaining elements are not kept but receive the conversion of
    undefined: NaN in a float vector, 0 in a 16- or 32-bit integer
    vector. *)
Theorem X8_ts_vector_short_source (s s1 s2 : Ts.Store) (id : nat) (name : string)
    (ta : TypedArray) (arr : list jsvalue) :
  Ts.get s id name = Some (Ok (Ts.Own (Ts.OTypedArray ta), s1)) ->
  valid_window (Ts.heap s1) ta ->
  Ts.set_vector s id name arr = Some (Ok s2) ->
  exists x m elem len abs,
    Ts.find_instance id (Ts.instances s) = Some x
    /\ Ts.accessor name (Ts.proto x) = Some (Ts.vector m elem len abs)
    /\ forall j, (List.length arr <= j < Z.to_nat len)%nat ->
         Z.of_nat j < ta_length ta ->
         TypedArray_get ta (Z.of_nat j) (Ts.heap s2)
         = match ta_type ta with
           | Float32 | Float64 => NumNaN
           | _ => Num 0
           end.
Proof.
  intros Hg Hv Hs.
  destruct (ts_set_vector_window _ _ _ _ _ _ _ Hg Hs)
    as (x & m & elem & len & abs & Hx & Ha & Hb & Hr).
  exists x, m, elem, len, abs. split; [assumption|]. split; [assumption|].
  destruct (copy_into ta arr (Z.to_nat len) 0 (Ts.heap s1)) as [h'|] eqn:Hc;
    simpl in Hr; [|discriminate].
  inversion Hr; subst s2. clear Hr. cbn [Ts.heap].
  destruct (copy_into_frame _ _ _ _ _ _ Hv Hc) as (_ & _ & _ & _ & _ & _ & He).
  intros j Hj Hlt. destruct (He j) as (bits & Hbits & Hget); [lia|assumption|].
  rewrite Hget. unfold index in Hbits. rewrite nth_overflow in Hbits by lia.
  destruct (ta_type ta); simpl in Hbits; inversion Hbits; subst; reflexivity.
Qed.

Lemma X8_ts_vector_short_source_witness :
  exists s1 s2,
    Ts.get ts_items_store 1%nat "color"
    = Some (Ok (Ts.Own (Ts.OTypedArray ts_items_window1), s1))
    /\ Ts.set_vector ts_items_store 1%nat "color" [Num 1] = Some (Ok s2)
    /\ TypedArray_get ts_items_window1 2 (Ts.heap s2) = NumNaN.
Proof.
  do 2 eexists. split; [reflexivity|]. split; [reflexivity|].
  match goal with
  | |- TypedArray_get _ _ (Ts.heap ?s2) = _ =>
      destruct (X8_ts_vector_short_source ts_items_store _ s2 1%nat "color"
                  ts_items_window1 [Num 1]
                  eq_refl ts_items_window1_valid eq_refl)
        as (x & m & elem & len & abs & Hx & Ha & H)
  end.
  inversion Hx; subst x. inversion Ha; subst m elem len abs.
  apply (H 2%nat); simpl; lia.
Defined.

(** X9 (index.ts, the vector setter): once reading the field gives a
    window, an assignment to the field returns exactly when each of the
    first [length] source elements (undefined where the source is shorter)
    is accepted by the elements' kind, and otherwise throws a TypeError: a
    BigInt is refused by the float and 16/32-bit kinds, and everything but
    a BigInt by the 64-bit kinds. *)
Theorem X9_ts_vector_assignment_outcome (s s1 : Ts.Store) (id : nat)
    (name : string) (ta : TypedArray) (arr : list jsvalue) (r : result Ts.Store) :
  Ts.get s id name = Some (Ok (Ts.Own (Ts.OTypedArray ta), s1)) ->
  Ts.set_vector s id name arr = Some r ->
  exists x m elem len abs,
    Ts.find_instance id (Ts.instances s) = Some x
    /\ Ts.accessor name (Ts.proto x) = Some (Ts.vector m elem len abs)
    /\ if forallb (fun j => accepts (ta_type ta) (index arr j))
            (seq 0 (Z.to_nat len))
       then exists s2, r = Ok s2
       else r = Throw TypeError.
Proof.
  intros Hg Hs.
  destruct (ts_set_vector_window _ _ _ _ _ _ _ Hg Hs)
    as (x & m & elem & len & abs & Hx & Ha & Hb & Hr).
  exists x, m, elem, len, abs. split; [assumption|]. split; [assumption|].
  pose proof (copy_into_decided ta arr (Z.to_nat len) 0 (Ts.heap s1)) as Hd.
  destruct (forallb _ _).
  - destruct Hd as (h' & Hc). rewrite Hc in Hr. simpl in Hr. eauto.
  - rewrite Hd in Hr. exact Hr.
Qed.

Lemma X9_ts_vector_assignment_outcome_witness :
  exists s1,
    Ts.get ts_items_store 1%nat "color"
    = Some (Ok (Ts.Own (Ts.OTypedArray ts_items_window1), s1))
    /\ Ts.set_vector ts_items_store 1%nat "color" [Num 1; BigInt 2; Num 3]
       = Some (Throw TypeError).
Proof.
  eexists. split; [reflexivity|].
  destruct (Ts.set_vector ts_items_store 1%nat "color" [Num 1; BigInt 2; Num 3])
    as [r|] eqn:Hs; [|discriminate Hs].
  destruct (X9_ts_vector_assignment_outcome ts_items_store _ 1%nat "color"
              ts_items_window1 [Num 1; BigInt 2; Num 3] r eq_refl Hs)
    as (x & m & elem & len & abs & Hx & Ha & H).
  inversion Hx; subst x. inversion Ha; subst m elem len abs.
  simpl in H. rewrite H. reflexivity.
Defined.

(** * Further properties of index.ts: the create of c.array *)

Lemma for_index_elements {V St} (make : Z -> St -> result (V * St)) (d : V) :
  forall n i s xs s',
  for_index make n i s = Ok (xs, s') ->
  List.length xs = n
  /\ forall j, (j < n)%nat ->
       exists sj sj', make (i + Z.of_nat j) sj = Ok (nth j xs d, sj').
Proof.
  induction n as [|n IH]; intros i s xs s' H.
  - simpl in H. inversion H; subst. split; [reflexivity|]. intros j Hj. lia.
  - simpl in H.
    destruct (make i s) as [[x s1]|] eqn:Hm; simpl in H; [|discriminate].
    destruct (for_index make n (i + 1) s1) as [[r s2]|] eqn:Hr; simpl in H;
      [|discriminate].
    inversion H; subst. destruct (IH _ _ _ _ Hr) as (Hl & Hn).
    split; [simpl; congruence|].
    intros [|j] Hj.
    + exists s, s1. rewrite Z.add_0_r. exact Hm.
    + destruct (Hn j) as (sj & sj' & Hj'); [lia|].
      exists sj, sj'. simpl nth.
      replace (i + Z.of_nat (S j)) with (i + 1 + Z.of_nat j) by lia. exact Hj'.
Qed.

Lemma for_index_made_in_turn {V St} (make : Z -> St -> result (V * St)) :
  forall n i s xs s',
  for_index make n i s = Ok (xs, s') ->
  List.length xs = n /\ made_in_turn make i s xs s'.
Proof.
  induction n as [|n IH]; intros i s xs s' H.
  - simpl in H. inversion H; subst. split; reflexivity.
  - simpl in H.
    destruct (make i s) as [[x s1]|] eqn:Hm; simpl in H; [|discriminate].
    destruct (for_index make n (i + 1) s1) as [[r s2]|] eqn:Hr; simpl in H;
      [|discriminate].
    inversion H; subst. destruct (IH _ _ _ _ Hr) as (Hl & Ht).
    split; [simpl; congruence|]. simpl. eauto.
Qed.

(** A create leaves the instances that existed as they were. *)
Lemma ts_create_at_frame (d : Ts.Descriptor) (b : nat) (off : number)
    (s s1 : Ts.Store) (v : Ts.OwnValue) :
  ts_wf s ->
  Ts.create_at d b off s = Ok (v, s1) ->
  ts_wf s1
  /\ (fresh (Ts.heap s) <= fresh (Ts.heap s1))%nat
  /\ (forall id, (id < fresh (Ts.heap s))%nat ->
        Ts.find_instance id (Ts.instances s1) = Ts.find_instance id (Ts.instances s)).
Proof.
  intros Hwf Hc. destruct (ts_create_at_step _ _ _ _ _ _ Hc) as (_ & Hstep).
  destruct (Hstep (fresh (Ts.heap s))) as (Hi & _ & Hf & Ho); [lia| |].
  - intros id x Hx. split; [eapply Hwf; eassumption|].
    intros Hk. pose proof (Hwf _ _ Hx). lia.
  - split; [|split; assumption].
    intros id x Hx. exact (proj1 (Hi id x Hx)).
Qed.

Lemma ts_wf_set_own (id : nat) (name : string) (v : Ts.OwnValue) (s : Ts.Store) :
  ts_wf s -> ts_wf (Ts.set_own id name v s).
Proof.
  intros Hwf id' x H. cbn [Ts.set_own Ts.instances Ts.heap] in *.
  rewrite find_update_instance in H.
  destruct (Nat.eqb id id').
  - destruct (Ts.find_instance id' (Ts.instances s)) as [y|] eqn:Hy; [|discriminate].
    eapply Hwf; eassumption.
  - eapply Hwf; eassumption.
Qed.

(** The own properties buffer and baseOffset of instance [id] through the
    field loop of its constructor. *)
Lemma ts_init_field_keeps (f : Ts.FieldDescriptor) (id b b0 : nat)
    (off base : number) (fields : list Ts.FieldDescriptor) (s s' : Ts.Store) :
  match f with
  | Ts.struct_ n _ _ | Ts.array_ n _ _ _ =>
      negb (String.eqb n "buffer") && negb (String.eqb n "baseOffset")
  | _ => true
  end = true ->
  Ts.init_field f id b off s = Ok s' ->
  ts_wf s /\ ts_instance_at s (Ts.OInstance id) fields b0 base ->
  ts_wf s' /\ ts_instance_at s' (Ts.OInstance id) fields b0 base.
Proof.
  intros Hname Hc (Hwf & id' & x & Hv & Hx & Hp & Hb & Ho).
  inversion Hv; subst id'. clear Hv.
  assert (Hput : forall name v s1,
            negb (String.eqb name "buffer") && negb (String.eqb name "baseOffset")
            = true ->
            ts_wf s1 ->
            Ts.find_instance id (Ts.instances s1) = Some x ->
            ts_wf (Ts.set_own id name v s1)
            /\ ts_instance_at (Ts.set_own id name v s1) (Ts.OInstance id)
                 fields b0 base).
  { intros name v s1 Hn Hwf1 Hx1.
    apply andb_true_iff in Hn as [Hn1 Hn2].
    apply negb_true_iff in Hn1, Hn2. apply String.eqb_neq in Hn1, Hn2.
    split; [apply ts_wf_set_own; assumption|].
    exists id, (Ts.mkInstance (Ts.proto x) (Ts.put name v (Ts.own x))).
    split; [reflexivity|]. split.
    { cbn [Ts.set_own Ts.instances]. rewrite (find_update_same _ _ _ _ Hx1).
      reflexivity. }
    cbn [Ts.proto Ts.own]. split; [assumption|].
    rewrite !lookup_put_other by congruence. auto. }
  destruct f as [n desc fo|n elem len fo|n desc fo|n elemDesc len fo];
    cbn [Ts.init_field] in Hc.
  - inversion Hc; subst. split; [assumption|]. exists id, x. auto.
  - inversion Hc; subst. split; [assumption|]. exists id, x. auto.
  - destruct (Ts.create_at desc b (nadd off fo) s) as [[v s1]|] eqn:Hcr;
      simpl in Hc; [|discriminate].
    inversion Hc; subst s'. clear Hc.
    destruct (ts_create_at_frame _ _ _ _ _ _ Hwf Hcr) as (Hwf1 & _ & Hfr).
    apply Hput; [assumption|assumption|].
    rewrite Hfr by (eapply Hwf; eassumption). assumption.
  - destruct (positive_integer (Ts.length_value len)) as [m|]; [|discriminate].
    destruct (new_Array m) as [[]|]; cbn [bind] in Hc; [|discriminate].
    match type of Hc with
    | bind (for_index ?mk _ _ _) _ = _ => set (make := mk) in *
    end.
    destruct (for_index make (Z.to_nat m) 0 s) as [[arr s1]|] eqn:Hl;
      simpl in Hc; [|discriminate].
    inversion Hc; subst s'. clear Hc.
    destruct (for_index_state make
                (fun a => ts_wf a
                          /\ Ts.find_instance id (Ts.instances a) = Some x)
                (fun _ => True)) with
      (n := Z.to_nat m) (i := 0) (s := s) (xs := arr) (s' := s1)
      as ((Hwf1 & Hx1) & _); auto.
    intros i a v a' (Hwa & Hxa) Hm. unfold make in Hm.
    destruct (ts_create_at_frame _ _ _ _ _ _ Hwa Hm) as (Hwa' & _ & Hfr).
    split; [|exact I]. split; [assumption|].
    rewrite Hfr by (eapply Hwa; eassumption). assumption.
Qed.

(** What the constructor of a struct leaves in the store. *)
Lemma ts_create_struct_instance (size : number) (fields : list Ts.FieldDescriptor)
    (b : nat) (off : number) (s s1 : Ts.Store) (v : Ts.OwnValue) :
  ts_wf s ->
  ts_keeps_own fields = true ->
  Ts.create_at (Ts.DStruct size fields) b off s = Ok (v, s1) ->
  ts_wf s1 /\ ts_instance_at s1 v fields b off.
Proof.
  intros Hwf Hk Hc. cbn [Ts.create_at] in Hc.
  unfold Ts.new_instance in Hc.
  match type of Hc with
  | bind (for_each ?step _ ?st) _ = _ => set (stp := step) in *; set (s0 := st) in *
  end.
  destruct (for_each stp fields s0) as [s2|] eqn:Hl; simpl in Hc; [|discriminate].
  inversion Hc; subst v s1. clear Hc.
  apply (for_each_state stp
           (fun a => ts_wf a
                     /\ ts_instance_at a (Ts.OInstance (fresh (Ts.heap s))) fields b off)
           fields) with (s := s0); [| |exact Hl].
  - unfold ts_keeps_own in Hk. rewrite forallb_forall in Hk.
    apply Forall_forall. intros f Hin a a' Ha Hs. unfold stp in Hs.
    eapply (ts_init_field_keeps f); [apply Hk; exact Hin|exact Hs|exact Ha].
  - assert (Hnone : Ts.find_instance (fresh (Ts.heap s)) (Ts.instances s) = None).
    { destruct (Ts.find_instance (fresh (Ts.heap s)) (Ts.instances s)) as [y|] eqn:Hy;
        [|reflexivity].
      pose proof (Hwf _ _ Hy). lia. }
    split.
    + intros id x Hx. unfold s0 in *. cbn [Ts.instances Ts.heap fresh] in *.
      destruct (Nat.eq_dec id (fresh (Ts.heap s))) as [->|Hne]; [lia|].
      rewrite find_instance_app_other in Hx by assumption.
      pose proof (Hwf _ _ Hx). lia.
    + eexists _, _. split; [reflexivity|]. split.
      { unfold s0. cbn [Ts.instances]. rewrite find_instance_app, Hnone.
        reflexivity. }
      cbn [Ts.proto Ts.own]. auto.
Qed.

(** Elements made in turn stay in the store as they were made. *)
Lemma ts_made_in_turn_instances (size : number) (fields : list Ts.FieldDescriptor)
    (b : nat) (base : number) (items : list Ts.OwnValue) :
  ts_keeps_own fields = true ->
  forall i s s',
  ts_wf s ->
  made_in_turn
    (fun j st =>
       Ts.create_at (Ts.DStruct size fields) b (nadd base (nmul (Int j) size)) st)
    i s items s' ->
  ts_wf s'
  /\ (forall id, (id < fresh (Ts.heap s))%nat ->
        Ts.find_instance id (Ts.instances s') = Ts.find_instance id (Ts.instances s))
  /\ forall j, (j < List.length items)%nat ->
       ts_instance_at s' (nth j items (Ts.ONumber NaN)) fields b
         (nadd base (nmul (Int (i + Z.of_nat j)) size)).
Proof.
  intros Hk. induction items as [|x r IH]; intros i s s' Hwf Ht.
  - cbn [made_in_turn] in Ht. subst s'. split; [assumption|]. split; [auto|].
    intros j Hj. simpl in Hj. lia.
  - cbn [made_in_turn] in Ht. destruct Ht as (s1 & Hm & Hr).
    destruct (ts_create_struct_instance _ _ _ _ _ _ _ Hwf Hk Hm) as (Hwf1 & Hx).
    destruct (ts_create_at_frame _ _ _ _ _ _ Hwf Hm) as (_ & Hf1 & Hfr1).
    destruct (IH _ _ _ Hwf1 Hr) as (Hwf' & Hfr & Hrest).
    split; [assumption|]. split.
    + intros id Hid. rewrite Hfr by lia. apply Hfr1. assumption.
    + intros [|j] Hj.
      * simpl nth. rewrite Z.add_0_r.
        destruct Hx as (id & y & Hv & Hy & Hp & Hb & Ho).
        exists id, y. split; [assumption|]. split; [|auto].
        rewrite Hfr by (eapply Hwf1; eassumption). assumption.
      * simpl nth. simpl in Hj.
        replace (i + Z.of_nat (S j)) with (i + 1 + Z.of_nat j) by lia.
        apply Hrest. lia.
Qed.

(** X10 (index.ts, the create of c.array): when it is called without
    arguments and returns, the create of c.array(D, n) has allocated one
    zero-filled buffer of ToIndex(D.size * n) bytes and returns an Array
    with that buffer as its buffer property and exactly n elements, n
    being less than 2^32.  The elements are made in turn by D.create on
    that buffer, the j-th at base offset j * D.size in the state that the
    one before left, and the last one leaves the final state.  When D is
    a struct descriptor that stores no nested value under the names
    buffer and baseOffset, the j-th element is, in the final state, an
    instance of D whose buffer is the new buffer and whose baseOffset is
    j * D.size. *)
Theorem X10_ts_array_create (d : Ts.Descriptor) (n : Z) (s s' : Ts.Store)
    (v : Ts.OwnValue) :
  Ts.create (Ts.DArray d n) s = Ok (v, s') ->
  exists len items,
    to_index (nmul (Ts.desc_size d) (Int n)) = Ok len
    /\ buffers (Ts.heap s') = buffers (Ts.heap s) ++ [repeat 0 (Z.to_nat len)]
    /\ v = Ts.OArray items (List.length (buffers (Ts.heap s)))
    /\ List.length items = Z.to_nat n
    /\ 0 <= n < 4294967296
    /\ made_in_turn
         (fun j st =>
            Ts.create_at d (List.length (buffers (Ts.heap s)))
              (nadd (Int 0) (nmul (Int j) (Ts.desc_size d))) st)
         0
         (Ts.mkStore (mkHeap (buffers (Ts.heap s) ++ [repeat 0 (Z.to_nat len)])
                        (fresh (Ts.heap s)))
            (Ts.instances s))
         items s'
    /\ (forall size fields,
          d = Ts.DStruct size fields -> ts_keeps_own fields = true -> ts_wf s ->
          forall j, (j < Z.to_nat n)%nat ->
            ts_instance_at s' (nth j items (Ts.ONumber NaN)) fields
              (List.length (buffers (Ts.heap s)))
              (nadd (Int 0) (nmul (Int (Z.of_nat j)) size))).
Proof.
  intros H. destruct (ts_create_buffers _ _ _ _ H) as (len & Hlen & Hb).
  cbn [Ts.desc_size] in Hlen. exists len.
  unfold Ts.create, new_ArrayBuffer in H. cbn [Ts.desc_size] in H.
  rewrite Hlen in H. cbn [bind] in H. cbn [Ts.create_at] in H.
  unfold new_Array in H.
  destruct (valid_array_length n) eqn:Hv; cbn [bind] in H; [|discriminate].
  match type of H with
  | bind (for_index ?mk _ _ _) _ = _ => set (make := mk) in *
  end.
  destruct (for_index make (Z.to_nat n) 0 _) as [[items s1]|] eqn:Hl;
    simpl in H; [|discriminate].
  inversion H; subst v s'. clear H.
  destruct (for_index_made_in_turn make _ _ _ _ _ Hl) as (Hn & Ht).
  exists items. do 4 (split; [auto|]). split.
  { unfold valid_array_length in Hv. apply andb_true_iff in Hv as [A B].
    apply Z.leb_le in A, B. lia. }
  split; [exact Ht|].
  intros size fields -> Hk Hwf j Hj.
  assert (Hwf0 : ts_wf (Ts.mkStore
                          (mkHeap (buffers (Ts.heap s) ++ [repeat 0 (Z.to_nat len)])
                             (fresh (Ts.heap s)))
                          (Ts.instances s))).
  { intros id x Hx. exact (Hwf id x Hx). }
  destruct (ts_made_in_turn_instances size fields _ (Int 0) items Hk 0 _ _ Hwf0 Ht)
    as (_ & _ & Hall).
  apply Hall. lia.
Qed.

Lemma X10_ts_array_create_witness :
  exists items s',
    Ts.create (Ts.DArray ts_Item 3) Ts.empty_store = Ok (Ts.OArray items 0, s')
    /\ List.length items = 3%nat
    /\ buffers (Ts.heap s') = [repeat 0 36]
    /\ ts_instance_at s' (nth 1 items (Ts.ONumber NaN))
         [Ts.vector "color" (Ts.p float32) 3 (Int 0)] 0 (Int 12).
Proof.
  do 2 eexists. split; [reflexivity|].
  destruct (X10_ts_array_create ts_Item 3 Ts.empty_store _ _ eq_refl)
    as (len & items & Hlen & Hb & Hv & Hn & _ & _ & Hi).
  inversion Hv; subst items. inversion Hlen; subst len.
  split; [exact Hn|]. split; [exact Hb|].
  exact (Hi (Int 12) [Ts.vector "color" (Ts.p float32) 3 (Int 0)] eq_refl eq_refl
            ts_wf_empty 1%nat ltac:(simpl; lia)).
Defined.

(** * Further properties of index.js: a field named buffer *)

Lemma lookup_remove_prop {A} (name : string) (props : list (string * A)) :
  lookup name (Js.remove_prop name props) = None.
Proof.
  induction props as [|[n a] rest IH]; simpl; [reflexivity|].
  destruct (String.eqb n name) eqn:E; [assumption|]. simpl. rewrite E. assumption.
Qed.

Lemma js_bind_field_kind (f : Js.FieldDescriptor) (b : nat) (base : Z)
    (h h' : Heap) (pr : Js.Property) :
  Js.bind_field f b base h = Ok (pr, h') ->
  js_is_accessor pr = js_is_accessor_field f.
Proof.
  destruct f; cbn [Js.bind_field]; intros H.
  - inversion H; reflexivity.
  - destruct (new_TypedArray _ _ _ _ _) as [[ta h1]|]; simpl in H; [|discriminate].
    inversion H; reflexivity.
  - destruct (Js.create_at _ _ _ _) as [[inst h1]|]; simpl in H; [|discriminate].
    inversion H; reflexivity.
  - destruct (new_Array _) as [[]|]; cbn [bind] in H; [|discriminate].
    destruct (for_index _ _ _ _) as [[arr h1]|]; simpl in H; [|discriminate].
    inversion H; reflexivity.
Qed.

Lemma js_collect_lookup (b : nat) (base : Z) (name : string)
    (fields : list Js.FieldDescriptor) :
  forall h props h',
  for_each_collect
    (fun f h => let* '(pr, h1) := Js.bind_field f b base h in
                Ok ((Js.field_name f, pr), h1)) fields h = Ok (props, h') ->
  match find (fun f => String.eqb (Js.field_name f) name) fields with
  | Some f => exists pr, lookup name props = Some pr
                         /\ js_is_accessor pr = js_is_accessor_field f
  | None => lookup name props = None
  end.
Proof.
  induction fields as [|f fs IH]; intros h props h' H.
  - simpl in H. inversion H; subst. reflexivity.
  - simpl in H.
    destruct (Js.bind_field f b base h) as [[pr h1]|] eqn:Hb; simpl in H;
      [|discriminate].
    destruct (for_each_collect _ fs h1) as [[ps h2]|] eqn:Hr; simpl in H;
      [|discriminate].
    inversion H; subst. simpl.
    destruct (String.eqb (Js.field_name f) name).
    + exists pr. split; [reflexivity|]. eapply js_bind_field_kind; eassumption.
    + eapply IH; eassumption.
Qed.

(** X11 (index.js, create): create ends by defining the buffer getter
    on the instance.  Whenever it returns, the instance has no field
    property named buffer, reading buffer gives the ArrayBuffer, and the
    schema's field named buffer, if there is one, was a nested struct or an
    array, which is thereby lost; with a scalar or vector field named
    buffer create never returns. *)
Theorem X11_js_buffer_property (size : Z) (fields : list Js.FieldDescriptor)
    (b : nat) (base : Z) (h h' : Heap) (v : Js.View) :
  Js.create_at (Js.mkStruct size fields) b base h = Ok (v, h') ->
  lookup "buffer" (Js.view_props v) = None
  /\ (forall h2, Js.get h2 v "buffer" = Ok (Js.Buffer b))
  /\ (forall f, find (fun f => String.eqb (Js.field_name f) "buffer") fields = Some f ->
        js_is_accessor_field f = false).
Proof.
  intros H. cbn [Js.create_at] in H.
  match type of H with
  | bind (for_each_collect ?step _ _) _ = _ => set (stp := step) in *
  end.
  destruct (for_each_collect stp fields h) as [[props h1]|] eqn:Hl; simpl in H;
    [|discriminate].
  destruct (Js.define_buffer props) as [props'|] eqn:Hd; simpl in H; [|discriminate].
  inversion H; subst v h'. clear H. cbn [Js.view_props].
  pose proof (js_collect_lookup b base "buffer" fields h props h1 Hl) as Hf.
  unfold Js.define_buffer in Hd.
  split; [|split].
  - destruct (lookup "buffer" props) as [[| | |]|] eqn:Hp; inversion Hd; subst;
      auto using lookup_remove_prop.
  - intros h2. reflexivity.
  - intros f Hfind. rewrite Hfind in Hf. destruct Hf as (pr & Hp & Hk).
    rewrite Hp in Hd. rewrite <- Hk.
    destruct pr; try discriminate; reflexivity.
Qed.

Lemma X11_js_buffer_property_witness :
  exists v h',
    Js.create_at (Js.mkStruct 12 [Js.struct_ "buffer" js_Item 0]) 0 0
      (mkHeap [repeat 0 12] 0) = Ok (v, h')
    /\ lookup "buffer" (Js.view_props v) = None
    /\ Js.create_at (Js.mkStruct 4 [Js.scalar "buffer" (Js.p uint32) 0]) 0 0
         (mkHeap [repeat 0 12] 0) = Throw TypeError.
Proof.
  do 2 eexists. split; [vm_compute; reflexivity|].
  split; [|reflexivity].
  match goal with
  | |- lookup _ (Js.view_props ?v) = _ =>
      apply (proj1 (X11_js_buffer_property 12 [Js.struct_ "buffer" js_Item 0]
                      0%nat 0 (mkHeap [repeat 0 12] 0)
                      (mkHeap [repeat 0 12] 1) v eq_refl))
  end.
Defined.

(** * Further properties of index.js: create checks every window *)

Lemma js_windows_checked_view (size : Z) (b : nat)
    (props : list (string * Js.Property)) :
  Forall (fun p => js_prop_windows_checked size (snd p)) props ->
  js_windows_checked size (Js.mkView b props).
Proof.
  intros Hall w Hsub. rewrite Forall_forall in Hall.
  inversion Hsub as [Heq | v sub n Hin Hw Heq | v x n arr Hin Hx Hw Heq]; subst.
  - intros n ta len Hin. exact (Hall _ Hin).
  - pose proof (Hall _ Hin) as Hs. simpl in Hs. exact (Hs w Hw).
  - pose proof (Hall _ Hin) as Hs. simpl in Hs. rewrite Forall_forall in Hs.
    exact (Hs x Hx w Hw).
Qed.

Lemma js_create_at_windows (d : Js.StructDescriptor) :
  forall size b off h v h',
  byteLength h b = size ->
  Js.create_at d b off h = Ok (v, h') ->
  byteLength h' b = size /\ js_windows_checked size v.
Proof.
  induction d using js_descriptor_ind with
    (Q := fun f => forall size b off h pr h',
            byteLength h b = size ->
            Js.bind_field f b off h = Ok (pr, h') ->
            byteLength h' b = size /\ js_prop_windows_checked size pr).
  - intros sz b off h v h' Hsz Hc. cbn [Js.create_at] in Hc.
    match type of Hc with
    | bind (for_each_collect ?step _ _) _ = _ => set (stp := step) in *
    end.
    destruct (for_each_collect stp fields h) as [[props h1]|] eqn:Hl;
      simpl in Hc; [|discriminate].
    destruct (Js.define_buffer props) as [props'|] eqn:Hd; simpl in Hc;
      [|discriminate].
    inversion Hc; subst v h'. clear Hc.
    destruct (for_each_collect_state stp (fun h => byteLength h b = sz)
                (fun p => js_prop_windows_checked sz (snd p)) fields) with
      (s := h) (ps := props) (s' := h1) as (Hb & Hg); auto.
    + eapply Forall_impl; [|exact H]. intros f Hf s p s' Hi Hs. unfold stp in Hs.
      destruct (Js.bind_field f b off s) as [[pr h2]|] eqn:Hbf; simpl in Hs;
        [|discriminate].
      inversion Hs; subst. simpl. eapply Hf; eassumption.
    + split; [assumption|]. apply js_windows_checked_view.
      rewrite Forall_forall in *. intros p Hp. apply Hg.
      eapply define_buffer_In; eassumption.
  - intros sz b off h pr h' Hsz Hc. simpl in Hc. inversion Hc; subst. simpl. auto.
  - intros sz b off h pr h' Hsz Hc. cbn [Js.bind_field] in Hc.
    unfold new_TypedArray in Hc.
    destruct (to_index (Int (off + offset))) as [o|] eqn:Ho; simpl in Hc;
      [|discriminate].
    apply to_index_ok in Ho as Ho'.
    destruct (Z.eqb_spec (o mod BYTES_PER_ELEMENT (arrayType elem)) 0) as [Hal|];
      simpl in Hc; [|discriminate].
    destruct (Z.ltb_spec (byteLength h b) (o + len * BYTES_PER_ELEMENT (arrayType elem)));
      [discriminate|].
    inversion Hc; subst. unfold byteLength in *. simpl.
    split; [reflexivity|]. unfold js_window_checked. simpl. auto.
  - intros sz b off h pr h' Hsz Hc. cbn [Js.bind_field] in Hc.
    destruct (Js.create_at d b (off + offset) h) as [[inst h1]|] eqn:Hs;
      simpl in Hc; [|discriminate].
    inversion Hc; subst. simpl. eapply IHd; eauto.
  - intros sz b off h pr h' Hsz Hc. cbn [Js.bind_field] in Hc.
    destruct (new_Array _) as [[]|]; cbn [bind] in Hc; [|discriminate].
    match type of Hc with
    | bind (for_index ?mk _ _ _) _ = _ => set (make := mk) in *
    end.
    destruct (for_index make (Z.to_nat len) 0 h) as [[arr h1]|] eqn:Hl;
      simpl in Hc; [|discriminate].
    inversion Hc; subst pr h'. simpl.
    eapply (for_index_state make (fun h => byteLength h b = sz)
              (js_windows_checked sz)); [|exact Hsz|exact Hl].
    intros i s x s' Hi Hm. unfold make in Hm. eapply IHd; eauto.
Qed.

(** X12 (index.js, create): the windows of vector fields are built
    inside create, so a view is returned only if every vector field under
    it, at any depth, starts at a multiple of its element size and ends
    within the buffer: each window of the returned tree has the field's
    length, an aligned non-negative byte offset and lies inside the
    buffer.  When one of them does not, create throws. *)
Theorem X12_js_create_checks_windows (d : Js.StructDescriptor) (b : nat)
    (base : Z) (h h' : Heap) (v : Js.View) :
  Js.create_at d b base h = Ok (v, h') ->
  js_windows_checked (byteLength h b) v
  /\ byteLength h' b = byteLength h b.
Proof.
  intros H.
  destruct (js_create_at_windows d (byteLength h b) b base h v h' eq_refl H).
  auto.
Qed.

Lemma X12_js_create_checks_windows_witness :
  (exists v h',
     Js.create js_example_Material empty_heap = Ok (v, h')
     /\ js_windows_checked 72 v)
  /\ Js.create (Js.mkStruct 14 [Js.scalar "a" (Js.p uint16) 0;
                                Js.vector "v" (Js.p float32) 3 2]) empty_heap
     = Throw RangeError.
Proof.
  split; [|reflexivity].
  do 2 eexists. split; [vm_compute; reflexivity|].
  match goal with
  | |- js_windows_checked _ ?v =>
      apply (proj1 (X12_js_create_checks_windows js_example_Material 0%nat 0
                      (mkHeap [repeat 0 72] 0) (mkHeap [repeat 0 72] 6) v eq_refl))
  end.
Defined.

(** * Further properties of part_000: the layout of every schema *)

Lemma part000_classify_layout (name : string) (type : Ts.value)
    (offset : number) (f : Ts.FieldDescriptor) (offset' : number) :
  Part000.classify name type offset = Ok (f, offset') ->
  Ts.field_name f = name /\ Ts.field_offset f = offset
  /\ offset' = nadd offset (LayoutRule.ts_field_size f)
  /\ ts_is_array_field f = false.
Proof.
  intros H. destruct type as [d | l | d | ]; simpl in H.
  - inversion H; subst; auto.
  - destruct l as [|e l']; [discriminate|]. inversion H; subst; auto.
  - destruct (truthy (Ts.desc_size d)); [|discriminate].
    inversion H; subst; auto.
  - discriminate.
Qed.

Lemma part000_resolve_layout (schema : list (string * Ts.value)) :
  forall offset fields total,
  Part000.resolve schema offset = Ok (fields, total) ->
  map Ts.field_name fields = map fst schema
  /\ LayoutRule.ts_packed offset fields
  /\ total = nadd offset (LayoutRule.ts_total fields)
  /\ forallb (fun f => negb (ts_is_array_field f)) fields = true.
Proof.
  induction schema as [|[name type] rest IH]; intros offset fields total H.
  - simpl in H. inversion H; subst. simpl. repeat split.
    destruct total; simpl; [f_equal; lia|reflexivity].
  - simpl in H.
    destruct (Part000.classify name type offset) as [[f o']|] eqn:Hc;
      simpl in H; [|discriminate].
    destruct (Part000.resolve rest o') as [[fs t]|] eqn:Hr; simpl in H;
      [|discriminate].
    inversion H; subst.
    destruct (part000_classify_layout _ _ _ _ _ Hc) as (Hn & Ho & Hs & Hk).
    destruct (IH _ _ _ Hr) as (Hnames & Hp & Ht & Hks).
    subst o'. simpl. split; [congruence|]. split; [auto|]. split.
    + unfold LayoutRule.ts_total in *. simpl. rewrite Ht. apply nadd_assoc.
    + rewrite Hk, Hks. reflexivity.
Qed.

(** X13 (part_000, c.struct and c.array): the resolver of part_000 tests
    [type.kind] to find an array descriptor, a property that the result of
    its c.array does not have, so an array descriptor is recorded as a
    nested struct of size element size times length.  For every schema
    that c.struct accepts the fields are kept in declaration order under
    their names, the first at offset 0 and each next one at the previous
    offset plus the previous size, the size of the descriptor is the sum
    of the field sizes, and no field is recorded with kind array.  After
    c.array(D, n) the field of a schema with that one field has the size
    of D times n. *)
Theorem X13_part000_layout (schema : list (string * Ts.value))
    (size : number) (fields : list Ts.FieldDescriptor) :
  Part000.struct schema = Ok (Ts.DStruct size fields) ->
  map Ts.field_name fields = map fst schema
  /\ LayoutRule.ts_packed (Int 0) fields
  /\ size = LayoutRule.ts_total fields
  /\ forallb (fun f => negb (ts_is_array_field f)) fields = true
  /\ forall name D len a,
       Ts.array (Ts.VDesc D) len = Ok a -> schema = [(name, a)] ->
       exists n, positive_integer len = Some n
                 /\ fields = [Ts.struct_ name (Ts.DArray D n) (Int 0)]
                 /\ size = nadd (Int 0) (nmul (Ts.desc_size D) (Int n)).
Proof.
  intros H. unfold Part000.struct in H.
  destruct (Part000.resolve schema (Int 0)) as [[fs t]|] eqn:Hr; simpl in H;
    [|discriminate].
  inversion H; subst fs t. clear H.
  destruct (part000_resolve_layout _ _ _ _ Hr) as (Hn & Hp & Ht & Hk).
  split; [assumption|]. split; [assumption|]. split.
  { rewrite Ht. destruct (LayoutRule.ts_total fields); reflexivity. }
  split; [assumption|].
  intros name D len a Ha Hs. subst schema. simpl in Ha.
  destruct (positive_integer len) as [n|]; [|discriminate].
  inversion Ha; subst a. exists n. split; [reflexivity|].
  simpl in Hr.
  destruct (truthy (nmul (Ts.desc_size D) (Int n))); simpl in Hr; [|discriminate].
  inversion Hr; subst. auto.
Qed.

Lemma X13_part000_layout_witness :
  Part000.struct [("position", Ts.float3)] = Ok part000_ItemDesc
  /\ LayoutRule.ts_packed (Int 0)
       [Ts.struct_ "items" (Ts.DArray part000_ItemDesc 2) (Int 0)]
  /\ Int 24 = LayoutRule.ts_total
       [Ts.struct_ "items" (Ts.DArray part000_ItemDesc 2) (Int 0)].
Proof.
  split; [reflexivity|].
  pose proof (X13_part000_layout
                [("items", Ts.VDesc (Ts.DArray part000_ItemDesc 2))]
                (Int 24)
                [Ts.struct_ "items" (Ts.DArray part000_ItemDesc 2) (Int 0)]
                eq_refl) as (_ & Hp & Ht & _).
  split; assumption.
Defined.

(** * Further properties of the binder with closures: one buffer, checked windows *)

Lemma closure_bound_items (size : Z) (b : nat) (items : list Closure.Created)
    (ob : option nat) :
  match ob with Some b' => b' = b | None => True end ->
  Forall (closure_bound size b) items ->
  closure_bound size b (Closure.CArray items ob).
Proof.
  intros Hb Hall. cbn [closure_bound]. split; [assumption|].
  induction Hall as [|x r Hx _ IH]; [exact I|]. split; assumption.
Qed.

Lemma closure_bound_props (size : Z) (b : nat)
    (props : list (string * Closure.Property)) :
  Forall (fun p => closure_prop_bound size b (snd p)) props ->
  closure_bound size b (Closure.CView (Closure.mkView b props)).
Proof.
  intros Hall. cbn [closure_bound closure_view_bound]. split; [reflexivity|].
  induction Hall as [|[n pr] r Hx _ IH]; [exact I|]. split; assumption.
Qed.

Lemma closure_define_buffer_In (props props' : list (string * Closure.Property)) p :
  Closure.define_buffer props = Ok props' -> In p props' -> In p props.
Proof.
  unfold Closure.define_buffer.
  destruct (lookup "buffer" props) as [[| |]|]; intros H; inversion H; subst;
    auto; apply remove_prop_In.
Qed.

Lemma closure_create_at_bound (ab : bool) (d : Ts.Descriptor) :
  forall size b base h x h',
  byteLength h b = size ->
  Closure.create_at ab d b base h = Ok (x, h') ->
  buffers h' = buffers h /\ closure_bound size b x.
Proof.
  induction d using ts_descriptor_ind with
    (Q := fun f => forall size b base h pr h',
            byteLength h b = size ->
            Closure.bind_field ab f b base h = Ok (pr, h') ->
            buffers h' = buffers h /\ closure_prop_bound size b pr).
  - intros sz b base h x h' Hsz Hc. cbn [Closure.create_at] in Hc.
    match type of Hc with
    | bind (for_each_collect ?step _ _) _ = _ => set (stp := step) in *
    end.
    destruct (for_each_collect stp fields h) as [[props h1]|] eqn:Hl;
      simpl in Hc; [|discriminate].
    destruct (Closure.define_buffer props) as [props'|] eqn:Hd; simpl in Hc;
      [|discriminate].
    inversion Hc; subst x h'. clear Hc.
    destruct (for_each_collect_state stp (fun s => buffers s = buffers h)
                (fun p => closure_prop_bound sz b (snd p)) fields) with
      (s := h) (ps := props) (s' := h1) as (Hb & Hg); auto.
    + eapply Forall_impl; [|exact H]. intros f Hf s p s' Hi Hs. unfold stp in Hs.
      destruct (Closure.bind_field ab f b base s) as [[pr h2]|] eqn:Hbf;
        simpl in Hs; [|discriminate].
      inversion Hs; subst p s'. simpl.
      assert (byteLength s b = sz) as Hsb
        by (unfold byteLength in *; rewrite Hi; assumption).
      destruct (Hf sz b base s pr h2 Hsb Hbf) as (E & G).
      split; [congruence|assumption].
    + split; [assumption|]. apply closure_bound_props.
      rewrite Forall_forall in *. intros p Hp. apply Hg.
      eapply closure_define_buffer_In; eassumption.
  - intros sz b base h x h' Hsz Hc. cbn [Closure.create_at] in Hc.
    match type of Hc with
    | bind (for_index ?mk _ _ _) _ = _ => set (make := mk) in *
    end.
    destruct (for_index make (Z.to_nat len) 0 h) as [[arr h1]|] eqn:Hl;
      simpl in Hc; [|discriminate].
    inversion Hc; subst x h'. clear Hc.
    destruct (for_index_state make (fun s => buffers s = buffers h)
                (closure_bound sz b)) with
      (n := Z.to_nat len) (i := 0) (s := h) (xs := arr) (s' := h1)
      as (Hb & Hg); auto.
    + intros i s x s' Hi Hm. unfold make in Hm.
      assert (byteLength s b = sz) as Hsb
        by (unfold byteLength in *; rewrite Hi; assumption).
      destruct (IHd sz b _ s x s' Hsb Hm) as (E & G).
      split; [congruence|assumption].
    + split; [assumption|]. apply closure_bound_items; [|assumption].
      destruct ab; auto.
  - intros sz b base h pr h' Hsz Hc. simpl in Hc. inversion Hc; subst. simpl. auto.
  - intros sz b base h pr h' Hsz Hc. cbn [Closure.bind_field] in Hc.
    unfold new_TypedArray in Hc.
    destruct (to_index (nadd base offset)) as [o|] eqn:Ho; simpl in Hc;
      [|discriminate].
    apply to_index_ok in Ho as Ho'.
    destruct (Z.eqb_spec (o mod BYTES_PER_ELEMENT (arrayType elem)) 0) as [Hal|];
      simpl in Hc; [|discriminate].
    destruct (Z.ltb_spec (byteLength h b) (o + len * BYTES_PER_ELEMENT (arrayType elem)));
      [discriminate|].
    inversion Hc; subst. simpl.
    split; [reflexivity|]. split; [reflexivity|].
    unfold js_window_checked. simpl. auto.
  - intros sz b base h pr h' Hsz Hc. cbn [Closure.bind_field] in Hc.
    destruct (Closure.create_at ab d b (nadd base offset) h) as [[x h1]|] eqn:Hs;
      simpl in Hc; [|discriminate].
    inversion Hc; subst. simpl. eapply IHd; eauto.
  - intros sz b base h pr h' Hsz Hc. cbn [Closure.bind_field] in Hc.
    destruct (positive_integer (Ts.length_value len)) as [n|]; [|discriminate].
    match type of Hc with
    | bind (for_index ?mk _ _ _) _ = _ => set (make := mk) in *
    end.
    destruct (for_index make (Z.to_nat n) 0 h) as [[arr h1]|] eqn:Hl;
      simpl in Hc; [|discriminate].
    inversion Hc; subst pr h'. clear Hc.
    destruct (for_index_state make (fun s => buffers s = buffers h)
                (closure_bound sz b)) with
      (n := Z.to_nat n) (i := 0) (s := h) (xs := arr) (s' := h1)
      as (Hb & Hg); auto.
    + intros i s x s' Hi Hm. unfold make in Hm.
      assert (byteLength s b = sz) as Hsb
        by (unfold byteLength in *; rewrite Hi; assumption).
      destruct (IHd sz b _ s x s' Hsb Hm) as (E & G).
      split; [congruence|assumption].
    + split; [assumption|]. cbn [closure_prop_bound].
      apply closure_bound_items; [|assumption].
      destruct ab; auto.
Qed.

(** X14 (index.ts second implementation and part_000, create of c.struct
    and of c.array): whatever create(buffer, baseOffset) returns is bound
    to the buffer it was given and to nothing else.  At every depth the
    buffer getter of an instance, and of an Array in index.ts, returns
    that buffer; every vector field is a window on it with the length of
    the field, starting at a multiple of the element size and ending
    within the buffer; and the call leaves the list of buffers, with
    their contents, as it was: binding writes no byte. *)
Theorem X14_closure_create_bound (array_buffer : bool) (d : Ts.Descriptor)
    (b : nat) (base : number) (h h' : Heap) (x : Closure.Created) :
  Closure.create_at array_buffer d b base h = Ok (x, h') ->
  buffers h' = buffers h /\ closure_bound (byteLength h b) b x.
Proof.
  intros H. exact (closure_create_at_bound array_buffer d _ b base h x h' eq_refl H).
Qed.

Lemma X14_closure_create_bound_witness :
  exists x h',
    Closure.create_at false part000_MaterialDesc 0%nat (Int 0)
      (mkHeap [repeat 0 24] 0) = Ok (x, h')
    /\ buffers h' = [repeat 0 24]
    /\ closure_bound 24 0%nat x.
Proof.
  do 2 eexists. split; [vm_compute; reflexivity|].
  match goal with
  | |- buffers ?h' = _ /\ closure_bound _ _ ?x =>
      exact (X14_closure_create_bound false part000_MaterialDesc 0%nat (Int 0)
               (mkHeap [repeat 0 24] 0) h' x eq_refl)
  end.
Defined.

(** * Further properties of the binder with closures: the create of c.array *)

(** X15 (index.ts second implementation and part_000, the create of
    c.array): called without arguments, the create of c.array(D, n) that
    returns has allocated one zero-filled buffer of ToIndex(D.size * n)
    bytes and returns an Array of exactly n elements, the j-th being what
    D.create returns for that buffer at base offset j * D.size.  In
    index.ts the Array has that buffer as its buffer property; in
    part_000 it has no such property, so the buffer can be reached
    through the elements only. *)
Theorem X15_closure_array_create (array_buffer : bool) (D : Ts.Descriptor)
    (n : Z) (h h' : Heap) (x : Closure.Created) :
  Closure.create array_buffer (Ts.DArray D n) h = Ok (x, h') ->
  exists len items,
    to_index (nmul (Ts.desc_size D) (Int n)) = Ok len
    /\ buffers h' = buffers h ++ [repeat 0 (Z.to_nat len)]
    /\ x = Closure.CArray items
             (if array_buffer then Some (List.length (buffers h)) else None)
    /\ List.length items = Z.to_nat n
    /\ forall j, (j < Z.to_nat n)%nat ->
         exists hj hj',
           Closure.create_at array_buffer D (List.length (buffers h))
             (nadd (Int 0) (nmul (Int (Z.of_nat j)) (Ts.desc_size D))) hj
           = Ok (nth j items (Closure.CArray [] None), hj').
Proof.
  intros H. unfold Closure.create, new_ArrayBuffer in H. cbn [Ts.desc_size] in H.
  destruct (to_index (nmul (Ts.desc_size D) (Int n))) as [len|] eqn:Hlen;
    cbn [bind] in H; [|discriminate].
  exists len.
  destruct (closure_create_at_bound _ _ _ _ _ _ _ _ eq_refl H) as (Hb & _).
  cbn [Closure.create_at] in H.
  match type of H with
  | bind (for_index ?mk _ _ _) _ = _ => set (make := mk) in *
  end.
  destruct (for_index make (Z.to_nat n) 0 _) as [[items h1]|] eqn:Hl;
    simpl in H; [|discriminate].
  inversion H; subst x h'. clear H.
  destruct (for_index_elements make (Closure.CArray [] None) _ _ _ _ _ Hl)
    as (Hn & He).
  exists items. do 4 (split; [auto|]).
  intros j Hj. destruct (He j Hj) as (hj & hj' & Hm).
  exists hj, hj'. unfold make in Hm. exact Hm.
Qed.

Lemma X15_closure_array_create_witness :
  exists items h',
    Closure.create false (Ts.DArray part000_ItemDesc 3) empty_heap
    = Ok (Closure.CArray items None, h')
    /\ List.length items = 3%nat
    /\ buffers h' = [repeat 0 36].
Proof.
  do 2 eexists. split; [reflexivity|].
  destruct (X15_closure_array_create false part000_ItemDesc 3 empty_heap _ _ eq_refl)
    as (len & items & Hlen & Hb & Hv & Hn & _).
  inversion Hv; subst items. inversion Hlen; subst len.
  split; [exact Hn|exact Hb].
Defined.

(** * Further properties of index.ts, second implementation: the layout *)

Lemma ts2_classify_layout (name : string) (type : Ts.value) (offset : number)
    (h h' : Heap) (f : Ts.FieldDescriptor) (offset' : number) :
  Ts2.classify name type offset h = Ok (f, offset', h') ->
  Ts.field_name f = name /\ Ts.field_offset f = offset
  /\ offset' = nadd offset (LayoutRule.ts_field_size f).
Proof.
  intros H. destruct type as [d | l | d | ]; simpl in H.
  - inversion H; subst; auto.
  - destruct l as [|e l']; [discriminate|]. inversion H; subst; auto.
  - destruct (truthy (Ts.desc_size d)); [|discriminate].
    destruct (Closure.create true d h) as [[probe h1]|]; simpl in H; [|discriminate].
    destruct (Closure.is_array probe); inversion H; subst; auto.
  - discriminate.
Qed.

Lemma ts2_resolve_layout (schema : list (string * Ts.value)) :
  forall offset h fields total h',
  Ts2.resolve schema offset h = Ok (fields, total, h') ->
  map Ts.field_name fields = map fst schema
  /\ LayoutRule.ts_packed offset fields
  /\ total = nadd offset (LayoutRule.ts_total fields).
Proof.
  induction schema as [|[name type] rest IH]; intros offset h fields total h' H.
  - simpl in H. inversion H; subst. simpl. repeat split.
    destruct total; simpl; [f_equal; lia|reflexivity].
  - simpl in H.
    destruct (Ts2.classify name type offset h) as [[[f o'] h1]|] eqn:Hc;
      simpl in H; [|discriminate].
    destruct (Ts2.resolve rest o' h1) as [[[fs t] h2]|] eqn:Hr; simpl in H;
      [|discriminate].
    inversion H; subst.
    destruct (ts2_classify_layout _ _ _ _ _ _ _ Hc) as (Hn & Ho & Hs).
    destruct (IH _ _ _ _ _ Hr) as (Hnames & Hp & Ht).
    subst o'. simpl. repeat split.
    + congruence.
    + assumption.
    + assumption.
    + unfold LayoutRule.ts_total in *. simpl. rewrite Ht. apply nadd_assoc.
Qed.

Lemma ts2_resolve_In (schema : list (string * Ts.value)) :
  forall offset h fields total h' name type,
  Ts2.resolve schema offset h = Ok (fields, total, h') ->
  In (name, type) schema ->
  exists f o0 h0 o1 h1,
    In f fields /\ Ts2.classify name type o0 h0 = Ok (f, o1, h1).
Proof.
  induction schema as [|[n t] rest IH];
    intros offset h fields total h' name type H Hin; [contradiction|].
  simpl in H.
  destruct (Ts2.classify n t offset h) as [[[f o'] h1]|] eqn:Hc; simpl in H;
    [|discriminate].
  destruct (Ts2.resolve rest o' h1) as [[[fs tt] h2]|] eqn:Hr; simpl in H;
    [|discriminate].
  inversion H; subst. destruct Hin as [Heq|Hin].
  - inversion Heq; subst. exists f, offset, h, o', h1.
    split; [left; reflexivity|assumption].
  - destruct (IH _ _ _ _ _ _ _ Hr Hin) as (g & o0 & h0 & o1 & h3 & Hg & Hcg).
    exists g, o0, h0, o1, h3. split; [right; assumption|assumption].
Qed.

(** X16 (index.ts second implementation, c.struct): for every schema that
    c.struct accepts, the descriptor keeps the fields in declaration order
    under their names, the first at offset 0 and each next one at the
    previous offset plus the previous size, and its size is the sum of
    the field sizes, in the arithmetic of JavaScript numbers: the size of
    a field recorded with kind array is NaN, and so are the later offsets
    and the total. *)
Theorem X16_ts2_layout (schema : list (string * Ts.value)) (h h' : Heap)
    (size : number) (fields : list Ts.FieldDescriptor) :
  Ts2.struct schema h = Ok (Ts.DStruct size fields, h') ->
  map Ts.field_name fields = map fst schema
  /\ LayoutRule.ts_packed (Int 0) fields
  /\ size = LayoutRule.ts_total fields.
Proof.
  intros H. unfold Ts2.struct in H.
  destruct (Ts2.resolve schema (Int 0) h) as [[[fs t] h1]|] eqn:Hr; simpl in H;
    [|discriminate].
  inversion H; subst fs t h1. clear H.
  destruct (ts2_resolve_layout _ _ _ _ _ _ Hr) as (Hn & Hp & Ht).
  split; [assumption|]. split; [assumption|].
  rewrite Ht. destruct (LayoutRule.ts_total fields); reflexivity.
Qed.

Lemma X16_ts2_layout_witness :
  exists h',
    Ts2.struct [("id", Ts.uint); ("color", Ts.float3); ("inner", Ts.VDesc ts_Item)]
      empty_heap
    = Ok (Ts.DStruct (Int 28)
            [Ts.scalar "id" (Ts.p uint32) (Int 0);
             Ts.vector "color" (Ts.p float32) 3 (Int 4);
             Ts.struct_ "inner" ts_Item (Int 16)], h')
    /\ LayoutRule.ts_packed (Int 0)
         [Ts.scalar "id" (Ts.p uint32) (Int 0);
          Ts.vector "color" (Ts.p float32) 3 (Int 4);
          Ts.struct_ "inner" ts_Item (Int 16)].
Proof.
  eexists. split; [vm_compute; reflexivity|].
  match goal with
  | |- LayoutRule.ts_packed _ ?fs =>
      exact (proj1 (proj2 (X16_ts2_layout
               [("id", Ts.uint); ("color", Ts.float3); ("inner", Ts.VDesc ts_Item)]
               empty_heap (mkHeap [repeat 0 12] 1) (Int 28) fs eq_refl)))
  end.
Defined.

(** * Further properties of index.ts, second implementation: array fields *)

Lemma for_each_collect_throws {F P S} (step : F -> S -> result (P * S))
    (f : F) (fs : list F) :
  In f fs ->
  (forall s, exists e, step f s = Throw e) ->
  forall s, exists e, for_each_collect step fs s = Throw e.
Proof.
  intros Hin Hf. induction fs as [|g r IH]; [contradiction|]. intros s. simpl.
  destruct (step g s) as [[p s1]|e] eqn:Hs; simpl.
  - destruct Hin as [->|Hin].
    + destruct (Hf s) as (e & He). congruence.
    + destruct (IH Hin s1) as (e & He). rewrite He. simpl. eauto.
  - eauto.
Qed.

Lemma ts2_classify_array_descriptor (name : string) (e : Ts.Descriptor) (n : Z)
    (offset offset' : number) (h h1 : Heap) (f : Ts.FieldDescriptor) :
  Ts2.classify name (Ts.VDesc (Ts.DArray e n)) offset h = Ok (f, offset', h1) ->
  f = Ts.array_ name (Ts.DArray e n) None offset.
Proof.
  intros H. cbn [Ts2.classify] in H.
  destruct (truthy _); [|discriminate].
  destruct (Closure.create true (Ts.DArray e n) h) as [[probe h2]|] eqn:Hc;
    simpl in H; [|discriminate].
  assert (Closure.is_array probe = true) as Hp.
  { unfold Closure.create in Hc.
    destruct (new_ArrayBuffer _ _) as [[b h3]|]; simpl in Hc; [|discriminate].
    cbn [Closure.create_at] in Hc.
    destruct (for_index _ _ _ _) as [[arr h4]|]; simpl in Hc; [|discriminate].
    inversion Hc; subst. reflexivity. }
  rewrite Hp in H. inversion H; subst. reflexivity.
Qed.

(** X17 (index.ts second implementation, c.struct and create): whenever
    c.struct accepts a schema in which some field is a descriptor made by
    c.array, the struct descriptor that it returns has size NaN and its
    create never returns an instance: with any buffer, at any base offset
    and from any state it throws. *)
Theorem X17_ts2_array_field_breaks_struct (schema : list (string * Ts.value))
    (h h' : Heap) (d : Ts.Descriptor) (name : string) (e : Ts.Descriptor)
    (n : Z) :
  Ts2.struct schema h = Ok (d, h') ->
  In (name, Ts.VDesc (Ts.DArray e n)) schema ->
  Ts.desc_size d = NaN
  /\ (forall b base h1, exists err,
        Closure.create_at true d b base h1 = Throw err)
  /\ (forall h1, exists err, Ts2.create d h1 = Throw err).
Proof.
  intros H Hin. unfold Ts2.struct in H.
  destruct (Ts2.resolve schema (Int 0) h) as [[[fields total] h1]|] eqn:Hr;
    simpl in H; [|discriminate].
  inversion H; subst d h'. clear H.
  destruct (ts2_resolve_In _ _ _ _ _ _ _ _ Hr Hin) as (f & o0 & h0 & o1 & h2 & Hf & Hc).
  apply ts2_classify_array_descriptor in Hc. subst f.
  destruct (ts2_resolve_layout _ _ _ _ _ _ Hr) as (_ & _ & Ht).
  rewrite (ts_total_NaN fields _ Hf eq_refl), nadd_NaN_r in Ht. subst total.
  assert (forall b base h3, exists err,
            Closure.create_at true (Ts.DStruct NaN fields) b base h3 = Throw err)
    as Hthrow.
  { intros b base h3. cbn [Closure.create_at].
    match goal with
    | |- exists _, bind (for_each_collect ?step _ _) _ = _ => set (stp := step)
    end.
    destruct (for_each_collect_throws stp _ fields Hf) with (s := h3) as (err & He).
    - intros s. unfold stp. cbn [Closure.bind_field Ts.length_value positive_integer bind].
      eauto.
    - rewrite He. simpl. eauto. }
  split; [reflexivity|]. split; [exact Hthrow|].
  intros h3. unfold Ts2.create, Closure.create.
  cbn [Ts.desc_size new_ArrayBuffer to_index bind]. apply Hthrow.
Qed.

Lemma X17_ts2_array_field_breaks_struct_witness :
  exists d h',
    Ts2.struct [("id", Ts.uint); ("items", Ts.VDesc (Ts.DArray ts_Item 2))]
      empty_heap = Ok (d, h')
    /\ Ts.desc_size d = NaN
    /\ Ts2.create d h' = Throw ArrayLength.
Proof.
  do 2 eexists. split; [vm_compute; reflexivity|].
  match goal with
  | |- Ts.desc_size ?d = _ /\ _ =>
      destruct (X17_ts2_array_field_breaks_struct
                  [("id", Ts.uint); ("items", Ts.VDesc (Ts.DArray ts_Item 2))]
                  empty_heap (mkHeap [repeat 0 24] 2) d "items" ts_Item 2)
        as (A & _)
  end.
  - vm_compute; reflexivity.
  - right; left; reflexivity.
  - split; [exact A|vm_compute; reflexivity].
Defined.

(** * Further properties of index.ts, second implementation: probing *)

(** X18 (index.ts second implementation, c.struct): the resolver calls
    the create of every descriptor that it meets in a schema, so a schema
    is accepted only if each of them has a size other than 0 and NaN and
    returned from a create() of its own while the schema was resolved,
    every vector window below it being aligned and inside the probe
    buffer.  A descriptor whose create() throws from every state is
    accepted in no schema. *)
Theorem X18_ts2_struct_probes (schema : list (string * Ts.value)) (h h' : Heap)
    (d : Ts.Descriptor) (name : string) (a : Ts.Descriptor) :
  Ts2.struct schema h = Ok (d, h') ->
  In (name, Ts.VDesc a) schema ->
  truthy (Ts.desc_size a) = true
  /\ exists h0 x h1,
       Closure.create true a h0 = Ok (x, h1)
       /\ exists len,
            to_index (Ts.desc_size a) = Ok len
            /\ buffers h1 = buffers h0 ++ [repeat 0 (Z.to_nat len)]
            /\ closure_bound len (List.length (buffers h0)) x.
Proof.
  intros H Hin. unfold Ts2.struct in H.
  destruct (Ts2.resolve schema (Int 0) h) as [[[fields total] h1]|] eqn:Hr;
    simpl in H; [|discriminate].
  destruct (ts2_resolve_In _ _ _ _ _ _ _ _ Hr Hin) as (f & o0 & h0 & o1 & h2 & _ & Hc).
  cbn [Ts2.classify] in Hc.
  destruct (truthy (Ts.desc_size a)); [|discriminate].
  split; [reflexivity|].
  destruct (Closure.create true a h0) as [[probe h3]|] eqn:Hp; simpl in Hc;
    [|discriminate].
  exists h0, probe, h3. split; [exact Hp|].
  unfold Closure.create, new_ArrayBuffer in Hp.
  destruct (to_index (Ts.desc_size a)) as [len|] eqn:Hlen; cbn [bind] in Hp;
    [|discriminate].
  exists len. split; [reflexivity|].
  destruct (closure_create_at_bound _ _ _ _ _ _ _ _ eq_refl Hp) as (Hb & Hx).
  split; [exact Hb|].
  unfold byteLength in Hx. cbn [buffers] in Hx.
  rewrite app_nth2, Nat.sub_diag in Hx by lia. cbn [nth] in Hx.
  rewrite repeat_length, Z2Nat.id in Hx by (eapply to_index_ok; eassumption).
  exact Hx.
Qed.

Lemma X18_ts2_struct_probes_witness :
  (exists h0 x h1, Closure.create true ts_Item h0 = Ok (x, h1))
  /\ Ts2.struct
       [("inner",
         Ts.VDesc (Ts.DStruct (Int 14)
                     [Ts.scalar "a" (Ts.p uint16) (Int 0);
                      Ts.vector "v" (Ts.p float32) 3 (Int 2)]))]
       empty_heap = Throw RangeError.
Proof.
  split; [|reflexivity].
  destruct (X18_ts2_struct_probes [("inner", Ts.VDesc ts_Item)] empty_heap
              (mkHeap [repeat 0 12] 1)
              (Ts.DStruct (Int 12) [Ts.struct_ "inner" ts_Item (Int 0)])
              "inner" ts_Item)
    as (_ & h0 & x & h1 & Hc & _).
  - vm_compute; reflexivity.
  - left; reflexivity.
  - exists h0, x, h1. exact Hc.
Defined.

(** * Further properties of the binder with closures: assignments to fields *)

(** X19 (index.ts second implementation and part_000, the scalar
    accessors): an assignment to a scalar field that returns has
    converted the value to a bit pattern of the setter's kind and has
    touched only the BYTES_PER_ELEMENT bytes at ToIndex of the field's
    absolute offset, which lie inside the buffer of the view; it changes
    no buffer length and no byte outside these bytes, and when the getter
    and the setter of the descriptor are of one kind a read of the field
    then gives that pattern back as a value. *)
Theorem X19_closure_scalar_write (h h2 : Heap) (inst : Closure.View)
    (name : string) (v : jsvalue) :
  Closure.set_scalar h inst name v = Some (Ok h2) ->
  exists desc abs i bits,
    lookup name (Closure.view_props inst) = Some (Closure.PScalar desc abs)
    /\ to_index abs = Ok i
    /\ encode (setter desc) v = Ok bits
    /\ i + BYTES_PER_ELEMENT (setter desc)
       <= byteLength h (Closure.view_buffer inst)
    /\ (forall b', byteLength h2 b' = byteLength h b')
    /\ (forall b' k, 0 <= k ->
          b' <> Closure.view_buffer inst \/ k < i
          \/ i + BYTES_PER_ELEMENT (setter desc) <= k ->
          byte_at h2 b' k = byte_at h b' k)
    /\ (getter desc = setter desc ->
        Closure.get h2 inst name = Ok (Closure.Value (decode (setter desc) bits))).
Proof.
  unfold Closure.set_scalar, Closure.get. intros H.
  destruct (String.eqb name "buffer"); [discriminate|].
  destruct (lookup name (Closure.view_props inst)) as [[desc abs| |]|] eqn:Hp;
    try discriminate.
  destruct (DataView_set (setter desc)
              (nth (Closure.view_buffer inst) (buffers h) []) abs v)
    as [buf|] eqn:Hset; simpl in H; [|discriminate].
  inversion H; subst h2. clear H.
  destruct (DataView_set_inv _ _ _ _ _ Hset)
    as (i & bits & Hi & Hi0 & He & Hfit & Hbuf & Hl).
  pose proof (BYTES_PER_ELEMENT_pos (setter desc)) as Hpos.
  assert (Hin : (Closure.view_buffer inst < List.length (buffers h))%nat)
    by (apply nth_nonempty_in_range; unfold ArrayBuffer in *; lia).
  destruct (set_buffer_frame h (Closure.view_buffer inst) buf i
              (BYTES_PER_ELEMENT (setter desc))
              (le_bytes (elem_bytes (setter desc)) bits)) as (A & B); auto.
  { rewrite le_bytes_length. apply elem_bytes_Z. }
  exists desc, abs, i, bits. do 3 (split; [auto|]). split; [exact Hfit|].
  split; [exact A|]. split; [exact B|].
  intros Hgs.
  destruct (DataView_set_get _ _ _ _ _ Hset) as (bits' & Henc & Hget & _ & _).
  rewrite He in Henc. inversion Henc; subst bits'.
  rewrite nth_set_buffer_same by assumption.
  rewrite Hgs, Hget. reflexivity.
Qed.

Lemma X19_closure_scalar_write_witness :
  exists h2,
    Closure.set_scalar (mkHeap [repeat 0 8] 0)
      (Closure.mkView 0 [("id", Closure.PScalar (Ts.p uint32) (Int 4))])
      "id" (Num 7) = Some (Ok h2)
    /\ Closure.get h2
         (Closure.mkView 0 [("id", Closure.PScalar (Ts.p uint32) (Int 4))]) "id"
       = Ok (Closure.Value (Num 7))
    /\ byte_at h2 0 3 = 0.
Proof.
  eexists. split; [reflexivity|].
  destruct (X19_closure_scalar_write (mkHeap [repeat 0 8] 0) _
              (Closure.mkView 0 [("id", Closure.PScalar (Ts.p uint32) (Int 4))])
              "id" (Num 7) eq_refl)
    as (desc & abs & i & bits & Hp & Hi & He & _ & _ & Hf & Hg).
  inversion Hp; subst desc abs. inversion Hi; subst i. inversion He; subst bits.
  split; [exact (Hg eq_refl)|].
  rewrite (Hf 0%nat 3); [reflexivity|lia|right; left; lia].
Defined.

Lemma lookup_In {A} (name : string) (props : list (string * A)) (a : A) :
  lookup name props = Some a -> exists n, In (n, a) props.
Proof.
  induction props as [|[n x] rest IH]; simpl; [discriminate|].
  destruct (String.eqb n name).
  - intros H. inversion H; subst. eauto.
  - intros H. destruct (IH H) as (m & Hm). eauto.
Qed.

Lemma closure_view_bound_In (size : Z) (b : nat) (inst : Closure.View)
    (n : string) (pr : Closure.Property) :
  closure_view_bound size b inst ->
  In (n, pr) (Closure.view_props inst) ->
  Closure.view_buffer inst = b /\ closure_prop_bound size b pr.
Proof.
  destruct inst as [b' props]. cbn [closure_view_bound Closure.view_props
                                     Closure.view_buffer].
  intros (Hb & Hall) Hin. split; [assumption|]. clear Hb.
  induction props as [|[m q] rest IH]; [contradiction|].
  destruct Hall as (Hq & Hrest). destruct Hin as [Heq|Hin].
  - inversion Heq; subst. assumption.
  - apply IH; assumption.
Qed.

(** X20 (index.ts second implementation and part_000, the vector
    accessors of a created instance): for an instance that create has
    returned, an assignment of an Array to one of its vector fields
    returns exactly when each of the first [length] source elements
    (undefined where the source is shorter) is accepted by the elements'
    kind, and throws a TypeError otherwise; when it returns, every buffer
    has kept its length, no byte outside the field's window has changed,
    and element j of the window holds the converted j-th source element. *)
Theorem X20_closure_vector_assignment (array_buffer : bool) (d : Ts.Descriptor)
    (b : nat) (base : number) (h0 h1 h : Heap) (inst : Closure.View)
    (name : string) (ta : TypedArray) (len : Z) (arr : list jsvalue)
    (r : result Heap) :
  Closure.create_at array_buffer d b base h0 = Ok (Closure.CView inst, h1) ->
  (b < List.length (buffers h))%nat ->
  byteLength h b = byteLength h0 b ->
  lookup name (Closure.view_props inst) = Some (Closure.PVector ta len) ->
  0 <= len ->
  Closure.set_vector h inst name arr = Some r ->
  (if forallb (fun j => accepts (ta_type ta) (index arr j)) (seq 0 (Z.to_nat len))
   then exists h2, r = Ok h2
   else r = Throw TypeError)
  /\ forall h2, r = Ok h2 ->
       (forall b', byteLength h2 b' = byteLength h b')
       /\ (forall b' k, 0 <= k -> b' <> b \/ ~ in_window ta k ->
             byte_at h2 b' k = byte_at h b' k)
       /\ (forall j, (j < Z.to_nat len)%nat ->
             exists bits,
               encode (ta_type ta) (index arr j) = Ok bits
               /\ TypedArray_get ta (Z.of_nat j) h2 = decode (ta_type ta) bits).
Proof.
  intros Hc Hb Hlen Hp Hl0 Hs.
  destruct (closure_create_at_bound _ _ _ _ _ _ _ _ eq_refl Hc) as (_ & Hx).
  cbn [closure_bound] in Hx.
  destruct (lookup_In _ _ _ Hp) as (n & Hin).
  destruct (closure_view_bound_In _ _ _ _ _ Hx Hin) as (_ & Hta & Hw).
  destruct Hw as (Htl & Ho0 & _ & Hfit).
  assert (Hv : valid_window h ta).
  { unfold valid_window. rewrite Htl, Hta, Hlen. auto. }
  unfold Closure.set_vector in Hs.
  destruct (String.eqb name "buffer"); [discriminate|].
  rewrite Hp in Hs. inversion Hs; subst r. clear Hs.
  split.
  - apply copy_into_decided.
  - intros h2 Hr.
    destruct (copy_into_frame _ _ _ _ _ _ Hv Hr) as (_ & _ & _ & A & B & _ & E).
    split; [exact A|]. split.
    + intros b' k Hk Hout. destruct (Nat.eq_dec b' b) as [->|Hne].
      * destruct Hout as [Hne|Hout]; [congruence|].
        rewrite <- Hta. eapply copy_into_window; eassumption.
      * apply B. congruence.
    + intros j Hj. apply E; lia.
Qed.

Lemma X20_closure_vector_assignment_witness :
  exists inst h1 ta h2,
    Closure.create_at false part000_ItemDesc 0%nat (Int 0)
      (mkHeap [repeat 0 12] 0) = Ok (Closure.CView inst, h1)
    /\ lookup "position" (Closure.view_props inst) = Some (Closure.PVector ta 3)
    /\ Closure.set_vector h1 inst "position" [Num 1; Num 2] = Some (Ok h2)
    /\ byteLength h2 0 = 12.
Proof.
  do 4 eexists. split; [reflexivity|]. split; [reflexivity|].
  split; [reflexivity|].
  match goal with
  | |- byteLength ?h2 _ = _ =>
      destruct (X20_closure_vector_assignment false part000_ItemDesc 0%nat
                  (Int 0) (mkHeap [repeat 0 12] 0) (mkHeap [repeat 0 12] 1)
                  (mkHeap [repeat 0 12] 1)
                  (Closure.mkView 0
                     [("position",
                       Closure.PVector (mkTypedArray 0 Float32 0 0 3) 3)])
                  "position" (mkTypedArray 0 Float32 0 0 3) 3 [Num 1; Num 2]
                  (Ok h2))
        as (_ & F);
        [reflexivity | simpl; lia | reflexivity | reflexivity | lia
        | reflexivity | ]
  end.
  destruct (F _ eq_refl) as (A & _). rewrite A. reflexivity.
Defined.
